(** * typed-gql/analyzer: the schema analyzer, embedded and verified

    The embedding follows the latest revision of the module (the one that
    threads a [SchemaContext] through [typeSystem], [schemaDefinition],
    [typeExtension], ... and signals failure with [raise]).  The older inline
    revision kept in [src/index.ts] is embedded as [inline_analyzeSchema],
    for the places where the two disagree.

    Conventions of the embedding.
    - A thrown [ParseError] is the [Raise] branch of [Result]; [analyzeSchema]
      catches it and returns its payload.
    - A JavaScript object used as a dictionary is a plain [{}]: its own keys
      are a [gmap], and it inherits the members of [Object.prototype].  The
      code tests [obj[key]] for truthiness, so an inherited name counts as
      taken although nothing was stored under it ([has_key], [inherited]).
    - Objects mutated in place ([SchemaContext], a stored [TypeDefinition])
      are passed and returned.  A failure discards the whole context, so a
      half-applied mutation is never observed.
    - An optional parser field is an [option]; [x ?? []] is [default [] x].
    - The parser's [Type] and [Value] nodes are never inspected by the
      analyzer: they are the parameters [GType] and [GValue]. *)

From stdpp Require Import gmap strings list fin_maps.

Open Scope string_scope.
Open Scope list_scope.

Set Warnings "-register-all".

(** ** Failure *)

Record Error := { message : string }.

Inductive Result (A : Type) : Type :=
| Ok (a : A)
| Raise (e : Error).
Arguments Ok {A} a.
Arguments Raise {A} e.

Definition raise {A : Type} (e : Error) : Result A := Raise e.

Definition bind {A B : Type} (r : Result A) (k : A -> Result B) : Result B :=
  match r with
  | Ok a => k a
  | Raise e => Raise e
  end.

Definition is_Ok {A : Type} (r : Result A) : Prop := exists a, r = Ok a.

Notation "'let!' x := e 'in' k" := (bind e (fun x => k))
  (at level 10, x name, e at level 200, k at level 200).

(** [for (const x of l) body], the body threading the mutated state. *)
Fixpoint for_of {A S : Type} (body : A -> S -> Result S) (l : list A) (s : S)
  : Result S :=
  match l with
  | [] => Ok s
  | x :: l' => let! s' := body x s in for_of body l' s'
  end.

(** [l.map(f)] with a callback that may throw. *)
Fixpoint map_raising {A B : Type} (f : A -> Result B) (l : list A)
  : Result (list B) :=
  match l with
  | [] => Ok []
  | x :: l' => let! y := f x in let! ys := map_raising f l' in Ok (y :: ys)
  end.

(** The members every plain object inherits from [Object.prototype]: the
    methods of the standard, the legacy accessors and [__proto__].  Each of
    them reads as a function or, for [__proto__], as the prototype itself,
    hence as a truthy value without a [type] property. *)
Definition objectPrototype : list string :=
  [ "constructor"; "hasOwnProperty"; "isPrototypeOf"; "propertyIsEnumerable";
    "toLocaleString"; "toString"; "valueOf"; "__proto__";
    "__defineGetter__"; "__defineSetter__"; "__lookupGetter__"; "__lookupSetter__" ].

Definition inherited (k : string) : bool := bool_decide (k ∈ objectPrototype).

(** Truthiness of [obj[key]] for a plain object whose own values are
    objects: an own key, or an inherited member. *)
Definition has_key {V : Type} (m : gmap string V) (k : string) : bool :=
  match m !! k with
  | Some _ => true
  | None => inherited k
  end.

(** Truthiness of a string: only the empty string is falsy. *)
Definition truthy (s : string) : bool :=
  match s with
  | EmptyString => false
  | String _ _ => true
  end.

(** [`${x}`] for an optional string. *)
Definition show (x : option string) : string := default "undefined" x.

(** ** Parser vocabulary shared by input and output *)

Inductive OperationType := query | mutation | subscription.

Definition OperationType_show (o : OperationType) : string :=
  match o with
  | query => "query"
  | mutation => "mutation"
  | subscription => "subscription"
  end.

#[global] Instance OperationType_eq_dec : EqDecision OperationType.
Proof. solve_decision. Defined.

#[global] Instance OperationType_countable : Countable OperationType.
Proof.
  refine (inj_countable'
            (fun o => match o with query => 0 | mutation => 1 | subscription => 2 end)
            (fun n => match n with 0 => query | 1 => mutation | _ => subscription end) _).
  by intros [].
Defined.

(** [DirectiveLocation] is the parser's union of string literals.  The
    [locations] object of a directive definition maps each of them to
    [true]: it is a set of strings, tested like every other dictionary. *)
Definition DirectiveLocation := string.

Inductive TypeKind := scalar | object | interface | union | enum | inputObject.

#[global] Instance TypeKind_eq_dec : EqDecision TypeKind.
Proof. solve_decision. Defined.

Section Analyzer.
Context {GType GValue : Type}.

(** ** The parsed document (input) *)

Record ParserArgument := {
  parg_name : string;
  parg_value : GValue }.

Record ParserDirective := {
  pdir_name : string;
  pdir_arguments : option (list ParserArgument) }.

Record ParserInputValueDefinition := {
  piv_description : option string;
  piv_name : string;
  piv_type : GType;
  piv_defaultValue : option GValue;
  piv_directives : option (list ParserDirective) }.

Record ParserFieldDefinition := {
  pfd_description : option string;
  pfd_name : string;
  pfd_argumentsDefinition : option (list ParserInputValueDefinition);
  pfd_type : GType;
  pfd_directives : option (list ParserDirective) }.

Record ParserEnumValueDefinition := {
  pev_description : option string;
  pev_enumValue : string;
  pev_directives : option (list ParserDirective) }.

Record RootOperationTypeDefinition := {
  operationType : OperationType;
  rotd_type : string }.

Record SchemaDefinition := {
  sd_description : option string;
  sd_directives : option (list ParserDirective);
  sd_rootOperationTypeDefinitions : list RootOperationTypeDefinition }.

Record ParserDirectiveDefinition := {
  pdd_description : option string;
  pdd_name : string;
  pdd_argumentsDefinition : option (list ParserInputValueDefinition);
  pdd_repeatable : bool;
  pdd_directiveLocations : list DirectiveLocation }.

(** The kind-specific part of a type definition or extension; the
    constructor is the node's [typeType]. *)
Inductive ParserTypeBody :=
| PScalar
| PObject (implementsInterfaces : option (list string))
          (fieldsDefinition : option (list ParserFieldDefinition))
| PInterface (implementsInterfaces : option (list string))
             (fieldsDefinition : option (list ParserFieldDefinition))
| PUnion (unionMemberTypes : option (list string))
| PEnum (enumValuesDefinition : option (list ParserEnumValueDefinition))
| PInputObject (inputFieldsDefinition : option (list ParserInputValueDefinition)).

Definition typeType (b : ParserTypeBody) : TypeKind :=
  match b with
  | PScalar => scalar
  | PObject _ _ => object
  | PInterface _ _ => interface
  | PUnion _ => union
  | PEnum _ => enum
  | PInputObject _ => inputObject
  end.

Record ParserTypeDefinition := {
  ptd_description : option string;
  ptd_name : string;
  ptd_directives : option (list ParserDirective);
  ptd_body : ParserTypeBody }.

Record SchemaExtension := {
  se_directives : option (list ParserDirective);
  se_rootOperationTypeDefinitions : option (list RootOperationTypeDefinition) }.

Record TypeExtension := {
  te_name : string;
  te_directives : option (list ParserDirective);
  te_body : ParserTypeBody }.

(** Every node of the document carries [type: "typeSystem"] or
    [type: "executable"]; a type extension's [definition.type] is therefore
    the string below. *)
Definition te_type (definition : TypeExtension) : string := "typeSystem".

Inductive TypeSystemDefinition :=
| DSchema (definition : SchemaDefinition)
| DDirective (definition : ParserDirectiveDefinition)
| DType (definition : ParserTypeDefinition).

Inductive TypeSystemExtension :=
| ESchema (definition : SchemaExtension)
| EType (definition : TypeExtension).

Inductive TypeSystemDefinitionOrExtension :=
| definition_ (d : TypeSystemDefinition)
| extension_ (e : TypeSystemExtension).

(** Only the [subType] of an executable definition is ever read. *)
Inductive ExecutableDefinition := fragment | operation_.

Inductive DefinitionNode :=
| typeSystem_ (d : TypeSystemDefinitionOrExtension)
| executable_ (d : ExecutableDefinition).

Definition Document := list DefinitionNode.

(** ** The analyzed schema (output) *)

Record Argument := {
  arg_name : string;
  arg_value : GValue }.

Record Directive := {
  dir_name : string;
  dir_arguments : gmap string Argument }.

Record InputValueDefinition := {
  iv_name : string;
  iv_description : option string;
  iv_type : GType;
  iv_defaultValue : option GValue;
  iv_directives : list Directive }.

Record DirectiveDefinition := {
  dd_description : option string;
  dd_name : string;
  dd_argumentsDefinition : gmap string InputValueDefinition;
  dd_repeatable : bool;
  dd_locations : gset DirectiveLocation }.

Record FieldDefinition := {
  fd_description : option string;
  fd_name : string;
  fd_argumentsDefinition : gmap string InputValueDefinition;
  fd_type : GType;
  fd_directives : list Directive }.

Record EnumValueDefinition := {
  ev_name : string;
  ev_description : option string;
  ev_directives : list Directive }.

Record TypeDefinitionBase := {
  td_name : string;
  td_description : option string;
  td_directives : list Directive }.

Inductive TypeDefinition :=
| ScalarTypeDefinition (base : TypeDefinitionBase)
| ObjectTypeDefinition (base : TypeDefinitionBase)
    (implementsInterfaces : list string)
    (fieldsDefinition : gmap string FieldDefinition)
| InterfaceTypeDefinition (base : TypeDefinitionBase)
    (implementsInterfaces : list string)
    (fieldsDefinition : gmap string FieldDefinition)
| UnionTypeDefinition (base : TypeDefinitionBase)
    (unionMemberTypes : list string)
| EnumTypeDefinition (base : TypeDefinitionBase)
    (enumValuesDefinition : gmap string EnumValueDefinition)
| InputObjectTypeDefinition (base : TypeDefinitionBase)
    (inputFieldsDefinition : gmap string InputValueDefinition).

(** The [type] tag of a stored definition. *)
Definition td_type (t : TypeDefinition) : TypeKind :=
  match t with
  | ScalarTypeDefinition _ => scalar
  | ObjectTypeDefinition _ _ _ => object
  | InterfaceTypeDefinition _ _ _ => interface
  | UnionTypeDefinition _ _ => union
  | EnumTypeDefinition _ _ => enum
  | InputObjectTypeDefinition _ _ => inputObject
  end.

Definition td_base (t : TypeDefinition) : TypeDefinitionBase :=
  match t with
  | ScalarTypeDefinition b => b
  | ObjectTypeDefinition b _ _ => b
  | InterfaceTypeDefinition b _ _ => b
  | UnionTypeDefinition b _ => b
  | EnumTypeDefinition b _ => b
  | InputObjectTypeDefinition b _ => b
  end.

(** [typeDefinition.fieldsDefinition], present on objects and interfaces. *)
Definition td_fieldsDefinition (t : TypeDefinition) : option (gmap string FieldDefinition) :=
  match t with
  | ObjectTypeDefinition _ _ f => Some f
  | InterfaceTypeDefinition _ _ f => Some f
  | _ => None
  end.

Definition td_implementsInterfaces (t : TypeDefinition) : option (list string) :=
  match t with
  | ObjectTypeDefinition _ i _ => Some i
  | InterfaceTypeDefinition _ i _ => Some i
  | _ => None
  end.

(** [typeDefinition.directives.push(...ds)] *)
Definition push_directives (b : TypeDefinitionBase) (ds : list Directive) : TypeDefinitionBase :=
  {| td_name := td_name b;
     td_description := td_description b;
     td_directives := td_directives b ++ ds |}.

Record Schema := {
  s_description : option string;
  s_rootOperationTypes : gmap OperationType string;
  s_schemaDirectives : list Directive;
  s_directiveDefinitions : gmap string DirectiveDefinition;
  s_typeDefinitions : gmap string TypeDefinition }.

Record SchemaContext := {
  description : option string;
  rootOperationTypes : option (gmap OperationType string);
  schemaDirectives : list Directive;
  directiveDefinitions : gmap string DirectiveDefinition;
  typeDefinitions : gmap string TypeDefinition }.

(** ** Directives and argument definitions *)

Definition directive (d : ParserDirective) (on : string) : Result Directive :=
  let! args :=
    for_of (fun argument (args : gmap string Argument) =>
              if has_key args (parg_name argument) then
                raise {| message := "Multiple argument " +:+ parg_name argument
                                    +:+ " on directive " +:+ pdir_name d
                                    +:+ " on " +:+ on |}
              else
                Ok (<[parg_name argument :=
                        {| arg_name := parg_name argument;
                           arg_value := parg_value argument |}]> args))
           (default [] (pdir_arguments d)) ∅ in
  Ok {| dir_name := pdir_name d; dir_arguments := args |}.

Definition directives (ds : option (list ParserDirective)) (on : string)
  : Result (list Directive) :=
  map_raising (fun d => directive d on) (default [] ds).

(** The object literal [{name, description, type, defaultValue, directives}]
    that [inputValuesDefinition] and [inputObjectTypeExtension] both build. *)
Definition inputValueDefinition (argumentDefinition : ParserInputValueDefinition)
    (on : string) : Result InputValueDefinition :=
  let! ds := directives (piv_directives argumentDefinition) on in
  Ok {| iv_name := piv_name argumentDefinition;
        iv_description := piv_description argumentDefinition;
        iv_type := piv_type argumentDefinition;
        iv_defaultValue := piv_defaultValue argumentDefinition;
        iv_directives := ds |}.

Definition inputValuesDefinition
    (definition : option (list ParserInputValueDefinition)) (on : string)
  : Result (gmap string InputValueDefinition) :=
  for_of (fun argumentDefinition (result : gmap string InputValueDefinition) =>
            if has_key result (piv_name argumentDefinition) then
              raise {| message := "Multiple argument " +:+ piv_name argumentDefinition
                                  +:+ " on " +:+ on |}
            else
              let! v := inputValueDefinition argumentDefinition ("argument on " +:+ on) in
              Ok (<[piv_name argumentDefinition := v]> result))
         (default [] definition) ∅.

Definition fieldDefinition (definition : ParserFieldDefinition) (on : string)
  : Result FieldDefinition :=
  let! args := inputValuesDefinition (pfd_argumentsDefinition definition) on in
  let! ds := directives (pfd_directives definition) on in
  Ok {| fd_description := pfd_description definition;
        fd_name := pfd_name definition;
        fd_argumentsDefinition := args;
        fd_type := pfd_type definition;
        fd_directives := ds |}.

Definition fieldsDefinition (definition : list ParserFieldDefinition) (on : string)
  : Result (gmap string FieldDefinition) :=
  for_of (fun fd (result : gmap string FieldDefinition) =>
            if has_key result (pfd_name fd) then
              raise {| message := "Multiple field definition on " +:+ on |}
            else
              let! f := fieldDefinition fd ("field " +:+ pfd_name fd +:+ " on " +:+ on) in
              Ok (<[pfd_name fd := f]> result))
         definition ∅.

(** [new Set(strs).size !== strs.length] *)
Definition noDuplicate (strs : list string) (on : string) : Result (list string) :=
  if bool_decide (size (list_to_set strs : gset string) ≠ length strs) then
    raise {| message := "Duplicate " +:+ on |}
  else Ok strs.

(** ** Schema definition and the root operation types *)

(** The loop shared by [schemaDefinition] and [schemaExtension]. *)
Definition bindRootOperationType (rootOperationTypeDefinition : RootOperationTypeDefinition)
    (rootOperationTypes : gmap OperationType string)
  : Result (gmap OperationType string) :=
  if from_option truthy false
       (rootOperationTypes !! operationType rootOperationTypeDefinition) then
    raise {| message := "Multiple RootOperationTypeDefinition for "
                        +:+ OperationType_show (operationType rootOperationTypeDefinition) |}
  else
    Ok (<[operationType rootOperationTypeDefinition :=
            rotd_type rootOperationTypeDefinition]> rootOperationTypes).

Definition schemaDefinition (definition : SchemaDefinition) (context : SchemaContext)
  : Result SchemaContext :=
  match rootOperationTypes context with
  | Some _ => raise {| message := "Multiple SchemaDefinition" |}
  | None =>
      let! rot := for_of bindRootOperationType
                    (sd_rootOperationTypeDefinitions definition) ∅ in
      let! ds := directives (sd_directives definition) "schema definition" in
      Ok {| description := sd_description definition;
            rootOperationTypes := Some rot;
            schemaDirectives := schemaDirectives context ++ ds;
            directiveDefinitions := directiveDefinitions context;
            typeDefinitions := typeDefinitions context |}
  end.

(** The loop over the locations of a directive definition:
    [directive.locations[directiveLocation]] is tested, then set to [true]. *)
Definition addLocation (name : string) (directiveLocation : DirectiveLocation)
    (locations : gset DirectiveLocation) : Result (gset DirectiveLocation) :=
  if bool_decide (directiveLocation ∈ locations) || inherited directiveLocation then
    raise {| message := "Multiple DirectiveLocation " +:+ directiveLocation
                        +:+ " for directive " +:+ name |}
  else Ok ({[directiveLocation]} ∪ locations).

Definition directiveDefinition (definition : ParserDirectiveDefinition)
    (context : SchemaContext) : Result SchemaContext :=
  if has_key (directiveDefinitions context) (pdd_name definition) then
    raise {| message := "Multiple DirectiveDefinition for " +:+ pdd_name definition |}
  else
    let! args := inputValuesDefinition (pdd_argumentsDefinition definition)
                   ("directive " +:+ pdd_name definition) in
    let! locations :=
      for_of (addLocation (pdd_name definition))
             (pdd_directiveLocations definition) ∅ in
    Ok {| description := description context;
          rootOperationTypes := rootOperationTypes context;
          schemaDirectives := schemaDirectives context;
          directiveDefinitions :=
            <[pdd_name definition :=
                {| dd_description := pdd_description definition;
                   dd_name := pdd_name definition;
                   dd_argumentsDefinition := args;
                   dd_repeatable := pdd_repeatable definition;
                   dd_locations := locations |}]> (directiveDefinitions context);
          typeDefinitions := typeDefinitions context |}.

(** ** Type definitions *)

(** [context.typeDefinitions[name] = t] *)
Definition setTypeDefinition (name : string) (t : TypeDefinition)
    (context : SchemaContext) : SchemaContext :=
  {| description := description context;
     rootOperationTypes := rootOperationTypes context;
     schemaDirectives := schemaDirectives context;
     directiveDefinitions := directiveDefinitions context;
     typeDefinitions := <[name := t]> (typeDefinitions context) |}.

(** [{name, description, directives: directives(..., `type ${name} definition`)}] *)
Definition definitionBase (definition : ParserTypeDefinition)
  : Result TypeDefinitionBase :=
  let! ds := directives (ptd_directives definition)
               ("type " +:+ ptd_name definition +:+ " definition") in
  Ok {| td_name := ptd_name definition;
        td_description := ptd_description definition;
        td_directives := ds |}.

Definition scalarTypeDefinition (definition : ParserTypeDefinition)
    (context : SchemaContext) : Result SchemaContext :=
  let! base := definitionBase definition in
  Ok (setTypeDefinition (ptd_name definition) (ScalarTypeDefinition base) context).

(** The label is built from [definition.description], not [definition.name]. *)
Definition objectTypeDefinition (definition : ParserTypeDefinition)
    (implementsInterfaces : option (list string))
    (fields : option (list ParserFieldDefinition)) (context : SchemaContext)
  : Result SchemaContext :=
  let! base := definitionBase definition in
  let! interfaces := noDuplicate (default [] implementsInterfaces)
                       ("implements on type " +:+ show (ptd_description definition)) in
  let! fs := match fields with
             | Some d => fieldsDefinition d ("type " +:+ ptd_name definition +:+ " definition")
             | None => Ok ∅
             end in
  Ok (setTypeDefinition (ptd_name definition) (ObjectTypeDefinition base interfaces fs) context).

Definition interfaceTypeDefinition (definition : ParserTypeDefinition)
    (implementsInterfaces : option (list string))
    (fields : option (list ParserFieldDefinition)) (context : SchemaContext)
  : Result SchemaContext :=
  let! base := definitionBase definition in
  let! interfaces := noDuplicate (default [] implementsInterfaces)
                       ("implements on type " +:+ show (ptd_description definition)) in
  let! fs := match fields with
             | Some d => fieldsDefinition d ("type " +:+ ptd_name definition +:+ " definition")
             | None => Ok ∅
             end in
  Ok (setTypeDefinition (ptd_name definition) (InterfaceTypeDefinition base interfaces fs) context).

Definition unionTypeDefinition (definition : ParserTypeDefinition)
    (unionMemberTypes : option (list string)) (context : SchemaContext)
  : Result SchemaContext :=
  let! base := definitionBase definition in
  let! members := noDuplicate (default [] unionMemberTypes)
                    ("type " +:+ ptd_name definition +:+ " definition") in
  Ok (setTypeDefinition (ptd_name definition) (UnionTypeDefinition base members) context).

(** The loop over enum values, shared by definition and extension
    ([what] is ["definition"] or ["extension"]). *)
Definition addEnumValue (name what : string)
    (enumValueDefinition : ParserEnumValueDefinition)
    (enumValuesDefinition : gmap string EnumValueDefinition)
  : Result (gmap string EnumValueDefinition) :=
  if has_key enumValuesDefinition (pev_enumValue enumValueDefinition) then
    raise {| message := "Duplicate enum value " +:+ pev_enumValue enumValueDefinition
                        +:+ " on " +:+ name +:+ " " +:+ what |}
  else
    let! ds := directives (pev_directives enumValueDefinition)
                 ("type " +:+ name +:+ " " +:+ what) in
    Ok (<[pev_enumValue enumValueDefinition :=
            {| ev_name := pev_enumValue enumValueDefinition;
               ev_description := pev_description enumValueDefinition;
               ev_directives := ds |}]> enumValuesDefinition).

Definition enumTypeDefinition (definition : ParserTypeDefinition)
    (values : option (list ParserEnumValueDefinition)) (context : SchemaContext)
  : Result SchemaContext :=
  let! enumValuesDefinition :=
    for_of (addEnumValue (ptd_name definition) "definition") (default [] values) ∅ in
  let! base := definitionBase definition in
  Ok (setTypeDefinition (ptd_name definition) (EnumTypeDefinition base enumValuesDefinition) context).

Definition inputObjectTypeDefinition (definition : ParserTypeDefinition)
    (inputFields : option (list ParserInputValueDefinition)) (context : SchemaContext)
  : Result SchemaContext :=
  let! base := definitionBase definition in
  let! fs := inputValuesDefinition inputFields
               ("type " +:+ ptd_name definition +:+ " definition") in
  Ok (setTypeDefinition (ptd_name definition) (InputObjectTypeDefinition base fs) context).

Definition typeDefinition (definition : ParserTypeDefinition) (context : SchemaContext)
  : Result SchemaContext :=
  if has_key (typeDefinitions context) (ptd_name definition) then
    raise {| message := "Multiple TypeDefinition for " +:+ ptd_name definition |}
  else
    match ptd_body definition with
    | PScalar => scalarTypeDefinition definition context
    | PObject i f => objectTypeDefinition definition i f context
    | PInterface i f => interfaceTypeDefinition definition i f context
    | PUnion m => unionTypeDefinition definition m context
    | PEnum v => enumTypeDefinition definition v context
    | PInputObject f => inputObjectTypeDefinition definition f context
    end.

Definition typeSystemDefinition (definition : TypeSystemDefinition)
    (context : SchemaContext) : Result SchemaContext :=
  match definition with
  | DSchema d => schemaDefinition d context
  | DDirective d => directiveDefinition d context
  | DType d => typeDefinition d context
  end.

(** ** Extensions *)

Definition schemaExtension (definition : SchemaExtension) (context : SchemaContext)
  : Result SchemaContext :=
  let! rot := for_of bindRootOperationType
                (default [] (se_rootOperationTypeDefinitions definition))
                (default ∅ (rootOperationTypes context)) in
  let! ds := directives (se_directives definition) "schema definition" in
  Ok {| description := description context;
        rootOperationTypes := Some rot;
        schemaDirectives := schemaDirectives context ++ ds;
        directiveDefinitions := directiveDefinitions context;
        typeDefinitions := typeDefinitions context |}.

Definition differentType {A : Type} (definition : TypeExtension) : Result A :=
  raise {| message := "Type extension for type with different type "
                      +:+ te_name definition |}.

(** [directives(definition.directives, `type ${definition.name} extension`)] *)
Definition extensionDirectives (definition : TypeExtension) : Result (list Directive) :=
  directives (te_directives definition) ("type " +:+ te_name definition +:+ " extension").

Definition scalarTypeExtension (definition : TypeExtension) (typeDefinition : TypeDefinition)
  : Result TypeDefinition :=
  match typeDefinition with
  | ScalarTypeDefinition base =>
      let! ds := extensionDirectives definition in
      Ok (ScalarTypeDefinition (push_directives base ds))
  | _ => differentType definition
  end.

(** The loop over the fields of an object or interface extension. *)
Definition addField (definition : TypeExtension) (fd : ParserFieldDefinition)
    (fields : gmap string FieldDefinition) : Result (gmap string FieldDefinition) :=
  if has_key fields (pfd_name fd) then
    raise {| message := "Multiple field definition on type " +:+ te_type definition
                        +:+ " extension" |}
  else
    let! f := fieldDefinition fd ("field " +:+ pfd_name fd +:+ " on type "
                                  +:+ te_type definition +:+ " extension") in
    Ok (<[pfd_name fd := f]> fields).

Definition objectTypeExtension (definition : TypeExtension)
    (implementsInterfaces : option (list string))
    (fields : option (list ParserFieldDefinition)) (typeDefinition : TypeDefinition)
  : Result TypeDefinition :=
  match typeDefinition with
  | ObjectTypeDefinition base interfaces fs =>
      let! interfaces' :=
        noDuplicate (interfaces ++ default [] implementsInterfaces)
          ("implements on type " +:+ te_name definition +:+ " extension") in
      let! fs' := for_of (addField definition) (default [] fields) fs in
      let! ds := extensionDirectives definition in
      Ok (ObjectTypeDefinition (push_directives base ds) interfaces' fs')
  | _ => differentType definition
  end.

Definition interfaceTypeExtension (definition : TypeExtension)
    (implementsInterfaces : option (list string))
    (fields : option (list ParserFieldDefinition)) (typeDefinition : TypeDefinition)
  : Result TypeDefinition :=
  match typeDefinition with
  | InterfaceTypeDefinition base interfaces fs =>
      let! interfaces' :=
        noDuplicate (interfaces ++ default [] implementsInterfaces)
          ("implements on type " +:+ te_name definition +:+ " extension") in
      let! fs' := for_of (addField definition) (default [] fields) fs in
      let! ds := extensionDirectives definition in
      Ok (InterfaceTypeDefinition (push_directives base ds) interfaces' fs')
  | _ => differentType definition
  end.

Definition unionTypeExtension (definition : TypeExtension)
    (unionMemberTypes : option (list string)) (typeDefinition : TypeDefinition)
  : Result TypeDefinition :=
  match typeDefinition with
  | UnionTypeDefinition base members =>
      let! ds := extensionDirectives definition in
      let! members' :=
        noDuplicate (members ++ default [] unionMemberTypes)
          ("type " +:+ te_name definition +:+ " extension") in
      Ok (UnionTypeDefinition (push_directives base ds) members')
  | _ => differentType definition
  end.

Definition enumTypeExtension (definition : TypeExtension)
    (values : option (list ParserEnumValueDefinition)) (typeDefinition : TypeDefinition)
  : Result TypeDefinition :=
  match typeDefinition with
  | EnumTypeDefinition base enumValuesDefinition =>
      let! vs := for_of (addEnumValue (te_name definition) "extension")
                   (default [] values) enumValuesDefinition in
      let! ds := extensionDirectives definition in
      Ok (EnumTypeDefinition (push_directives base ds) vs)
  | _ => differentType definition
  end.

Definition inputObjectTypeExtension (definition : TypeExtension)
    (inputFields : option (list ParserInputValueDefinition))
    (typeDefinition : TypeDefinition) : Result TypeDefinition :=
  match typeDefinition with
  | InputObjectTypeDefinition base inputFieldsDefinition =>
      let! fs :=
        for_of (fun argumentDefinition (result : gmap string InputValueDefinition) =>
                  if has_key result (piv_name argumentDefinition) then
                    raise {| message := "Multiple argument " +:+ piv_name argumentDefinition
                                        +:+ " on type " +:+ te_name definition
                                        +:+ " extension" |}
                  else
                    let! v := inputValueDefinition argumentDefinition
                                ("argument on type " +:+ te_name definition
                                 +:+ " extension") in
                    Ok (<[piv_name argumentDefinition := v]> result))
               (default [] inputFields) inputFieldsDefinition in
      let! ds := extensionDirectives definition in
      Ok (InputObjectTypeDefinition (push_directives base ds) fs)
  | _ => differentType definition
  end.

(** The stored object is mutated in place: the extended definition stays
    under the key it was found at.  For a name that is not stored but
    inherited, [context.typeDefinitions[name]] is a member of
    [Object.prototype]: it is truthy, and its [type] is [undefined], so each
    of the six mergers raises its kind mismatch. *)
Definition typeExtension (definition : TypeExtension) (context : SchemaContext)
  : Result SchemaContext :=
  match typeDefinitions context !! te_name definition with
  | None =>
      if inherited (te_name definition) then differentType definition
      else
        raise {| message := "Type extension before type definition for type "
                            +:+ te_name definition |}
  | Some typeDefinition =>
      let! t := match te_body definition with
                | PScalar => scalarTypeExtension definition typeDefinition
                | PObject i f => objectTypeExtension definition i f typeDefinition
                | PInterface i f => interfaceTypeExtension definition i f typeDefinition
                | PUnion m => unionTypeExtension definition m typeDefinition
                | PEnum v => enumTypeExtension definition v typeDefinition
                | PInputObject f => inputObjectTypeExtension definition f typeDefinition
                end in
      Ok (setTypeDefinition (te_name definition) t context)
  end.

Definition typeSystemExtension (definition : TypeSystemExtension)
    (context : SchemaContext) : Result SchemaContext :=
  match definition with
  | ESchema d => schemaExtension d context
  | EType d => typeExtension d context
  end.

(** ** The document traversal *)

Definition typeSystem (definition : TypeSystemDefinitionOrExtension)
    (context : SchemaContext) : Result SchemaContext :=
  match definition with
  | definition_ d => typeSystemDefinition d context
  | extension_ e => typeSystemExtension e context
  end.

Definition emptyContext : SchemaContext :=
  {| description := None;
     rootOperationTypes := None;
     schemaDirectives := [];
     directiveDefinitions := ∅;
     typeDefinitions := ∅ |}.

(** One iteration of the loop of [schema]. *)
Definition schemaStep (definition : DefinitionNode) (context : SchemaContext)
  : Result SchemaContext :=
  match definition with
  | typeSystem_ d => typeSystem d context
  | executable_ _ => raise {| message := "ExecutableDocument in Schema" |}
  end.

Definition freeze (context : SchemaContext) : Schema :=
  {| s_description := description context;
     s_rootOperationTypes := default ∅ (rootOperationTypes context);
     s_schemaDirectives := schemaDirectives context;
     s_directiveDefinitions := directiveDefinitions context;
     s_typeDefinitions := typeDefinitions context |}.

Definition schema (document : Document) : Result Schema :=
  let! context := for_of schemaStep document emptyContext in
  Ok (freeze context).

(** [try { return unwrap(schema(document)) } catch (ParseError e) { return e.error }] *)
Definition analyzeSchema (document : Document) : Schema + Error :=
  match schema document with
  | Ok s => inl s
  | Raise e => inr e
  end.

(** The four type-system entries of a document, as nodes. *)
Definition schemaDefinitionNode (d : SchemaDefinition) : DefinitionNode :=
  typeSystem_ (definition_ (DSchema d)).
Definition typeDefinitionNode (d : ParserTypeDefinition) : DefinitionNode :=
  typeSystem_ (definition_ (DType d)).
Definition schemaExtensionNode (e : SchemaExtension) : DefinitionNode :=
  typeSystem_ (extension_ (ESchema e)).
Definition typeExtensionNode (e : TypeExtension) : DefinitionNode :=
  typeSystem_ (extension_ (EType e)).

(** The label under which an extension builds one of its fields. *)
Definition fieldLabel (definition : TypeExtension) (fd : ParserFieldDefinition) : string :=
  "field " +:+ pfd_name fd +:+ " on type " +:+ te_type definition +:+ " extension".

(** The duplicate-field failure of an object or interface extension. *)
Definition duplicateField (definition : TypeExtension) : Error :=
  {| message := "Multiple field definition on type " +:+ te_type definition
                +:+ " extension" |}.

(** The failures raised while an entry is processed: how their messages begin. *)
Fixpoint startsWith (p s : string) : bool :=
  match p with
  | EmptyString => true
  | String a p' =>
      match s with
      | EmptyString => false
      | String b s' => Ascii.eqb a b && startsWith p' s'
      end
  end.

Definition entryFailure (msg : string) : bool :=
  startsWith "Multiple " msg || startsWith "Duplicate " msg
  || startsWith "Type extension " msg || startsWith "ExecutableDocument " msg.

(** The field map of an outcome, when there is one. *)
Definition resultFields (r : Result TypeDefinition)
  : option (gmap string FieldDefinition) :=
  match r with
  | Ok t => td_fieldsDefinition t
  | Raise _ => None
  end.

(** ** Executable documents *)

Inductive SelectionSetItem :=
| SelectionSetItemField (directives : list Directive) (alias : option string)
    (name : string) (arguments : gmap string Argument)
    (selectionSet : list SelectionSetItem)
| SelectionSetItemFragmentSpread (directives : list Directive) (name : string)
| SelectionSetItemInlineFragment (directives : list Directive)
    (typeCondition : option string) (selectionSet : list SelectionSetItem).

Record Fragment := {
  fr_name : string;
  fr_typeCondition : string;
  fr_directives : list Directive;
  fr_selectionSet : list SelectionSetItem }.

Record VariableDefinition := {
  vd_name : string;
  vd_type : GType;
  vd_defaultValue : option GValue;
  vd_directives : list Directive }.

Record OperationItem := {
  oi_type : option OperationType;
  oi_name : option string;
  oi_variableDefinitions : gmap string VariableDefinition;
  oi_directives : list Directive;
  oi_selectionSet : list SelectionSetItem }.

Record OperationContext := {
  fragments : gmap string Fragment;
  operations : gmap string OperationItem }.

(** The [Operation] result is the context spread under [isError: false]. *)
Definition Operation := OperationContext.

(** Both cases of the switch only [break]. *)
Definition executable (definition : ExecutableDefinition) (context : OperationContext)
  : Result OperationContext :=
  match definition with
  | fragment => Ok context
  | operation_ => Ok context
  end.

Definition operationStep (definition : DefinitionNode) (context : OperationContext)
  : Result OperationContext :=
  match definition with
  | typeSystem_ _ =>
      raise {| message := "TypeSystemDefinitionOrExtension in Operation" |}
  | executable_ d => executable d context
  end.

Definition operation (document : Document) : Result Operation :=
  for_of operationStep document {| fragments := ∅; operations := ∅ |}.

Definition analyzeOperation (document : Document) : Operation + Error :=
  match operation document with
  | Ok o => inl o
  | Raise e => inr e
  end.

(** ** The inline revision ([src/index.ts])

    The older revision has the whole traversal in one function.  Its code
    for definitions and for type extensions is the code of
    [typeSystemDefinition] and [typeExtension] above, written in place; it
    differs in four places: a node that is not of the type system is skipped,
    a SchemaExtension needs the root operation types to exist, the result
    needs them too, and it has no analysis of executable documents. *)

Definition inline_schemaExtension (definition : SchemaExtension) (context : SchemaContext)
  : Result SchemaContext :=
  match rootOperationTypes context with
  | None => raise {| message := "SchemaExtension before SchemaDefinition" |}
  | Some rootOperationTypes0 =>
      let! rot := for_of bindRootOperationType
                    (default [] (se_rootOperationTypeDefinitions definition))
                    rootOperationTypes0 in
      let! ds := directives (se_directives definition) "schema definition" in
      Ok {| description := description context;
            rootOperationTypes := Some rot;
            schemaDirectives := schemaDirectives context ++ ds;
            directiveDefinitions := directiveDefinitions context;
            typeDefinitions := typeDefinitions context |}
  end.

Definition inline_schemaStep (definition : DefinitionNode) (context : SchemaContext)
  : Result SchemaContext :=
  match definition with
  | typeSystem_ (definition_ d) => typeSystemDefinition d context
  | typeSystem_ (extension_ (ESchema e)) => inline_schemaExtension e context
  | typeSystem_ (extension_ (EType e)) => typeExtension e context
  | executable_ _ => Ok context
  end.

Definition inline_schema (document : Document) : Result Schema :=
  let! context := for_of inline_schemaStep document emptyContext in
  match rootOperationTypes context with
  | None => raise {| message := "No SchemaDefinition" |}
  | Some _ => Ok (freeze context)
  end.

Definition inline_analyzeSchema (document : Document) : Schema + Error :=
  match inline_schema document with
  | Ok s => inl s
  | Raise e => inr e
  end.

(** ** The insert-if-absent loop

    Arguments of a directive, argument definitions, fields, enum values and
    input fields are all collected by the same loop body: fail when the key
    is taken, otherwise build the value and store it. *)
Definition insertUnique {A V : Type} (key : A -> string) (err : A -> Error)
    (build : A -> Result V) (x : A) (m : gmap string V) : Result (gmap string V) :=
  if has_key m (key x) then raise (err x)
  else let! v := build x in Ok (<[key x := v]> m).

(** ** Names a dictionary accepts

    A list of names goes into an empty plain object, one key after the
    other, exactly when the names are pairwise distinct and none of them is
    inherited. *)
Definition namesAccepted (l : list string) : Prop :=
  NoDup l /\ Forall (fun k => inherited k = false) l.

(** ** What is stored for a directive application

    [directiveStored pd d]: [d] has the name of the application [pd], and its
    arguments are exactly those of [pd], each under its own name with its
    value. *)
Definition directiveStored (pd : ParserDirective) (d : Directive) : Prop :=
  dir_name d = pdir_name pd /\
  dom (dir_arguments d) = list_to_set (parg_name <$> default [] (pdir_arguments pd)) /\
  forall a, a ∈ default [] (pdir_arguments pd) ->
            dir_arguments d !! parg_name a
            = Some {| arg_name := parg_name a; arg_value := parg_value a |}.

(** ** How a stored definition may change

    [extendsDefinition t t']: [t'] is [t] with more directives at the end,
    more interfaces or members at the end, more fields or values, and
    nothing else changed. *)
Definition extendsBase (b b' : TypeDefinitionBase) : Prop :=
  td_name b' = td_name b /\ td_description b' = td_description b /\
  td_directives b `prefix_of` td_directives b'.

Definition extendsDefinition (t t' : TypeDefinition) : Prop :=
  extendsBase (td_base t) (td_base t') /\
  match t, t' with
  | ScalarTypeDefinition _, ScalarTypeDefinition _ => True
  | ObjectTypeDefinition _ i f, ObjectTypeDefinition _ i' f' => i `prefix_of` i' /\ f ⊆ f'
  | InterfaceTypeDefinition _ i f, InterfaceTypeDefinition _ i' f' =>
      i `prefix_of` i' /\ f ⊆ f'
  | UnionTypeDefinition _ m, UnionTypeDefinition _ m' => m `prefix_of` m'
  | EnumTypeDefinition _ v, EnumTypeDefinition _ v' => v ⊆ v'
  | InputObjectTypeDefinition _ f, InputObjectTypeDefinition _ f' => f ⊆ f'
  | _, _ => False
  end.

(** ** What a document declares *)

Definition typeDefinitionName (x : DefinitionNode) : option string :=
  match x with
  | typeSystem_ (definition_ (DType d)) => Some (ptd_name d)
  | _ => None
  end.

Definition directiveDefinitionName (x : DefinitionNode) : option string :=
  match x with
  | typeSystem_ (definition_ (DDirective d)) => Some (pdd_name d)
  | _ => None
  end.

(** The directives applied to the schema by an entry. *)
Definition schemaDirectivesOf (x : DefinitionNode) : list ParserDirective :=
  match x with
  | typeSystem_ (definition_ (DSchema d)) => default [] (sd_directives d)
  | typeSystem_ (extension_ (ESchema e)) => default [] (se_directives e)
  | _ => []
  end.

(** The root operation types listed by an entry. *)
Definition rootOperationTypesOf (x : DefinitionNode) : list RootOperationTypeDefinition :=
  match x with
  | typeSystem_ (definition_ (DSchema d)) => sd_rootOperationTypeDefinitions d
  | typeSystem_ (extension_ (ESchema e)) => default [] (se_rootOperationTypeDefinitions e)
  | _ => []
  end.

Definition isExecutable (x : DefinitionNode) : bool :=
  match x with
  | executable_ _ => true
  | typeSystem_ _ => false
  end.

(** ** Maps keyed by the name of their entries *)

Definition argumentsKeyed (m : gmap string InputValueDefinition) : Prop :=
  forall k v, m !! k = Some v -> iv_name v = k.

Definition fieldsKeyed (m : gmap string FieldDefinition) : Prop :=
  forall k f, m !! k = Some f ->
              fd_name f = k /\ argumentsKeyed (fd_argumentsDefinition f).

Definition definitionKeyed (t : TypeDefinition) : Prop :=
  match t with
  | ObjectTypeDefinition _ _ f => fieldsKeyed f
  | InterfaceTypeDefinition _ _ f => fieldsKeyed f
  | EnumTypeDefinition _ v => forall k x, v !! k = Some x -> ev_name x = k
  | InputObjectTypeDefinition _ f => argumentsKeyed f
  | _ => True
  end.

Definition typeDefinitionsKeyed (m : gmap string TypeDefinition) : Prop :=
  forall n t, m !! n = Some t -> td_name (td_base t) = n /\ definitionKeyed t.

Definition directiveDefinitionsKeyed (m : gmap string DirectiveDefinition) : Prop :=
  forall n d, m !! n = Some d ->
              dd_name d = n /\ argumentsKeyed (dd_argumentsDefinition d).

(** ** Names accumulated by a type

    The interfaces of an object or interface type, the members of a union. *)
Definition td_names (t : TypeDefinition) : list string :=
  match t with
  | ObjectTypeDefinition _ i _ => i
  | InterfaceTypeDefinition _ i _ => i
  | UnionTypeDefinition _ m => m
  | _ => []
  end.

Definition bodyNames (b : ParserTypeBody) : list string :=
  match b with
  | PObject i _ => default [] i
  | PInterface i _ => default [] i
  | PUnion m => default [] m
  | _ => []
  end.

(** The names an entry lists for the type called [n]. *)
Definition namesListedFor (n : string) (x : DefinitionNode) : list string :=
  match x with
  | typeSystem_ (definition_ (DType d)) =>
      if decide (ptd_name d = n) then bodyNames (ptd_body d) else []
  | typeSystem_ (extension_ (EType e)) =>
      if decide (te_name e = n) then bodyNames (te_body e) else []
  | _ => []
  end.

(** An object type read as an interface type and back. *)
Definition swapKind (t : TypeDefinition) : TypeDefinition :=
  match t with
  | ObjectTypeDefinition b i f => InterfaceTypeDefinition b i f
  | InterfaceTypeDefinition b i f => ObjectTypeDefinition b i f
  | _ => t
  end.

(** ** Keys and directives accumulated by a type *)

(** The names of the fields, enum values or input fields of a stored type. *)
Definition td_keys (t : TypeDefinition) : gset string :=
  match t with
  | ObjectTypeDefinition _ _ f => dom f
  | InterfaceTypeDefinition _ _ f => dom f
  | EnumTypeDefinition _ v => dom v
  | InputObjectTypeDefinition _ f => dom f
  | _ => ∅
  end.

Definition bodyKeys (b : ParserTypeBody) : list string :=
  match b with
  | PObject _ f => pfd_name <$> default [] f
  | PInterface _ f => pfd_name <$> default [] f
  | PEnum v => pev_enumValue <$> default [] v
  | PInputObject f => piv_name <$> default [] f
  | _ => []
  end.

Definition keysListedFor (n : string) (x : DefinitionNode) : list string :=
  match x with
  | typeSystem_ (definition_ (DType d)) =>
      if decide (ptd_name d = n) then bodyKeys (ptd_body d) else []
  | typeSystem_ (extension_ (EType e)) =>
      if decide (te_name e = n) then bodyKeys (te_body e) else []
  | _ => []
  end.

Definition directivesListedFor (n : string) (x : DefinitionNode) : list ParserDirective :=
  match x with
  | typeSystem_ (definition_ (DType d)) =>
      if decide (ptd_name d = n) then default [] (ptd_directives d) else []
  | typeSystem_ (extension_ (EType e)) =>
      if decide (te_name e = n) then default [] (te_directives e) else []
  | _ => []
  end.

(** ** Sample documents *)

(** [schema { query: Query }] *)
Definition schemaQuery : SchemaDefinition :=
  {| sd_description := None; sd_directives := None;
     sd_rootOperationTypeDefinitions :=
       [ {| operationType := query; rotd_type := "Query" |} ] |}.

(** [extend schema { mutation: Mutation }] *)
Definition extendSchemaMutation : SchemaExtension :=
  {| se_directives := None;
     se_rootOperationTypeDefinitions :=
       Some [ {| operationType := mutation; rotd_type := "Mutation" |} ] |}.

(** [scalar Foo] *)
Definition scalarFoo : ParserTypeDefinition :=
  {| ptd_description := None; ptd_name := "Foo"; ptd_directives := None;
     ptd_body := PScalar |}.

(** [union Foo = A | B] *)
Definition unionFoo : ParserTypeDefinition :=
  {| ptd_description := None; ptd_name := "Foo"; ptd_directives := None;
     ptd_body := PUnion (Some ["A"; "B"]) |}.

(** [name: type], without arguments or directives *)
Definition field (name : string) (type : GType) : ParserFieldDefinition :=
  {| pfd_description := None; pfd_name := name; pfd_argumentsDefinition := None;
     pfd_type := type; pfd_directives := None |}.

(** [type Query { hello: type }] *)
Definition typeQuery (type : GType) : ParserTypeDefinition :=
  {| ptd_description := None; ptd_name := "Query"; ptd_directives := None;
     ptd_body := PObject None (Some [field "hello" type]) |}.



Definition extendQuery (fields : list ParserFieldDefinition) : TypeExtension :=
  {| te_name := "Query"; te_directives := None;
     te_body := PObject None (Some fields) |}.

(** What [typeQuery] is stored as. *)
Definition storedQuery (type : GType) : TypeDefinition :=
  ObjectTypeDefinition
    {| td_name := "Query"; td_description := None; td_directives := [] |} []
    {[ "hello" := {| fd_description := None; fd_name := "hello";
                     fd_argumentsDefinition := ∅; fd_type := type;
                     fd_directives := [] |} ]}.

(** [@deprecated(reason: value)] and [@internal] *)
Definition deprecated (value : GValue) : ParserDirective :=
  {| pdir_name := "deprecated";
     pdir_arguments := Some [ {| parg_name := "reason"; parg_value := value |} ] |}.

Definition internal : ParserDirective :=
  {| pdir_name := "internal"; pdir_arguments := None |}.

(** [name: type], an argument or input field without default or directives *)
Definition inputValue (name : string) (type : GType) : ParserInputValueDefinition :=
  {| piv_description := None; piv_name := name; piv_type := type;
     piv_defaultValue := None; piv_directives := None |}.

(** [directive @deprecated(reason: type) on ...locations] *)
Definition directiveDeprecated (type : GType) (locations : list DirectiveLocation)
    : ParserDirectiveDefinition :=
  {| pdd_description := None; pdd_name := "deprecated";
     pdd_argumentsDefinition := Some [inputValue "reason" type];
     pdd_repeatable := false; pdd_directiveLocations := locations |}.

(** ["The API" schema @deprecated(reason: value) { query: Query }] *)
Definition schemaApi (value : GValue) : SchemaDefinition :=
  {| sd_description := Some "The API"; sd_directives := Some [deprecated value];
     sd_rootOperationTypeDefinitions :=
       [ {| operationType := query; rotd_type := "Query" |} ] |}.

(** [extend schema @internal { mutation: Mutation }] *)
Definition extendSchemaInternal : SchemaExtension :=
  {| se_directives := Some [internal];
     se_rootOperationTypeDefinitions :=
       Some [ {| operationType := mutation; rotd_type := "Mutation" |} ] |}.

Definition enumValue (name : string) : ParserEnumValueDefinition :=
  {| pev_description := None; pev_enumValue := name; pev_directives := None |}.

(** [enum Color { ...values }] and [extend enum Color { ...values }] *)
Definition enumColor (values : list string) : ParserTypeDefinition :=
  {| ptd_description := None; ptd_name := "Color"; ptd_directives := None;
     ptd_body := PEnum (Some (enumValue <$> values)) |}.

Definition extendColor (values : list string) : TypeExtension :=
  {| te_name := "Color"; te_directives := None;
     te_body := PEnum (Some (enumValue <$> values)) |}.

(** [extend type Query implements Node @deprecated(reason: value) { world: type }] *)
Definition extendQueryNode (type : GType) (value : GValue) : TypeExtension :=
  {| te_name := "Query"; te_directives := Some [deprecated value];
     te_body := PObject (Some ["Node"]) (Some [field "world" type]) |}.

(** [extend input Point { ...fields }] *)
Definition extendPoint (fields : list ParserInputValueDefinition) : TypeExtension :=
  {| te_name := "Point"; te_directives := None;
     te_body := PInputObject (Some fields) |}.

(** A schema document that uses every kind of entry the traversal handles. *)
Definition sampleDocument (type : GType) (value : GValue) : Document :=
  [ schemaDefinitionNode (schemaApi value);
    typeSystem_ (definition_ (DDirective (directiveDeprecated type ["SCHEMA"; "OBJECT"])));
    typeDefinitionNode (typeQuery type);
    typeDefinitionNode (enumColor ["RED"; "GREEN"]);
    typeExtensionNode (extendQueryNode type value);
    schemaExtensionNode extendSchemaInternal;
    typeExtensionNode (extendColor ["BLUE"]) ].

(** * Facts *)

(** ** The failure monad and the loops *)

Lemma bind_Ok_inv {A B : Type} (r : Result A) (k : A -> Result B) (b : B) :
  bind r k = Ok b -> exists a, r = Ok a /\ k a = Ok b.
Proof. destruct r as [a|e]; simpl; [eauto | discriminate]. Qed.

Lemma bind_Raise_inv {A B : Type} (r : Result A) (k : A -> Result B) (e : Error) :
  bind r k = Raise e -> r = Raise e \/ exists a, r = Ok a /\ k a = Raise e.
Proof. destruct r as [a|e']; simpl; [eauto | intros [= ->]; auto]. Qed.

(** Case analysis on the first computation of a [bind] chain that succeeded. *)
Ltac bind_ok H :=
  let a := fresh "x" in
  let E := fresh "E" in
  apply bind_Ok_inv in H as (a & E & H).

Lemma for_of_app {A S : Type} (body : A -> S -> Result S) (l1 l2 : list A) (s : S) :
  for_of body (l1 ++ l2) s = bind (for_of body l1 s) (for_of body l2).
Proof.
  revert s. induction l1 as [|x l1 IH]; intros s; simpl; [done|].
  destruct (body x s); simpl; auto.
Qed.

(** A failing loop fails at its first failing element. *)
Lemma for_of_Raise_inv {A S : Type} (body : A -> S -> Result S) (l : list A) (s : S) (e : Error) :
  for_of body l s = Raise e ->
  exists pre x post s', l = pre ++ x :: post /\ for_of body pre s = Ok s' /\ body x s' = Raise e.
Proof.
  revert s. induction l as [|x l IH]; intros s; simpl; [discriminate|].
  destruct (body x s) as [s1|e1] eqn:E; simpl.
  - intros H. destruct (IH _ H) as (pre & y & post & s' & -> & Hpre & Hy).
    exists (x :: pre), y, post, s'. simpl. rewrite E. simpl. auto.
  - intros [= ->]. exists [], x, l, s. auto.
Qed.

(** An invariant of the loop body is an invariant of the loop. *)
Lemma for_of_invariant {A S : Type} (P : S -> Prop) (body : A -> S -> Result S) (l : list A) :
  (forall x s s', P s -> body x s = Ok s' -> P s') ->
  forall s s', P s -> for_of body l s = Ok s' -> P s'.
Proof.
  intros Hstep. induction l as [|x l IH]; intros s s' HP; simpl.
  - by intros [= <-].
  - intros H. bind_ok H. eauto.
Qed.

Implicit Types (context ctx : SchemaContext).
Implicit Types (document pre mid post : Document).

(** ** What one entry does to the context *)

Lemma typeDefinition_Ok (d : ParserTypeDefinition) ctx ctx' :
  typeDefinition d ctx = Ok ctx' ->
  typeDefinitions ctx !! ptd_name d = None /\
  exists t, ctx' = setTypeDefinition (ptd_name d) t ctx /\
            td_type t = typeType (ptd_body d).
Proof.
  unfold typeDefinition, has_key.
  destruct (typeDefinitions ctx !! ptd_name d) eqn:Hd; [discriminate|].
  destruct (inherited (ptd_name d)); [discriminate|].
  intros H. split; [done|].
  destruct (ptd_body d); simpl in H;
    [ unfold scalarTypeDefinition in H
    | unfold objectTypeDefinition in H
    | unfold interfaceTypeDefinition in H
    | unfold unionTypeDefinition in H
    | unfold enumTypeDefinition in H
    | unfold inputObjectTypeDefinition in H ];
    repeat bind_ok H; injection H as <-; eexists; split; reflexivity.
Qed.

Lemma typeExtension_Ok (e : TypeExtension) ctx ctx' :
  typeExtension e ctx = Ok ctx' ->
  exists t0 t, typeDefinitions ctx !! te_name e = Some t0 /\
               ctx' = setTypeDefinition (te_name e) t ctx /\
               td_type t0 = typeType (te_body e) /\
               td_type t = td_type t0.
Proof.
  unfold typeExtension.
  destruct (typeDefinitions ctx !! te_name e) as [t0|] eqn:Hd;
    [|destruct (inherited (te_name e)); discriminate].
  intros H. bind_ok H. injection H as <-. exists t0, x. split; [done|]. split; [done|].
  destruct (te_body e), t0; simpl in E; try discriminate;
    repeat bind_ok E; injection E as <-; done.
Qed.

Lemma directiveDefinition_Ok (d : ParserDirectiveDefinition) ctx ctx' :
  directiveDefinition d ctx = Ok ctx' ->
  rootOperationTypes ctx' = rootOperationTypes ctx /\
  typeDefinitions ctx' = typeDefinitions ctx.
Proof.
  unfold directiveDefinition. destruct (has_key _ _); [discriminate|].
  intros H. repeat bind_ok H. by injection H as <-.
Qed.

Lemma schemaDefinition_Ok (d : SchemaDefinition) ctx ctx' :
  schemaDefinition d ctx = Ok ctx' ->
  rootOperationTypes ctx = None /\
  typeDefinitions ctx' = typeDefinitions ctx /\
  exists m, rootOperationTypes ctx' = Some m /\
            for_of bindRootOperationType (sd_rootOperationTypeDefinitions d) ∅ = Ok m.
Proof.
  unfold schemaDefinition. destruct (rootOperationTypes ctx); [discriminate|].
  intros H. repeat bind_ok H. injection H as <-. simpl. eauto.
Qed.

Lemma schemaExtension_Ok (e : SchemaExtension) ctx ctx' :
  schemaExtension e ctx = Ok ctx' ->
  typeDefinitions ctx' = typeDefinitions ctx /\
  exists m, rootOperationTypes ctx' = Some m /\
            for_of bindRootOperationType
              (default [] (se_rootOperationTypeDefinitions e))
              (default ∅ (rootOperationTypes ctx)) = Ok m.
Proof.
  unfold schemaExtension. intros H. repeat bind_ok H. injection H as <-. simpl. eauto.
Qed.

(** Once the root operation types exist they are never dropped. *)
Lemma schemaStep_rootOperationTypes_Some (d : DefinitionNode) ctx ctx' :
  is_Some (rootOperationTypes ctx) -> schemaStep d ctx = Ok ctx' ->
  is_Some (rootOperationTypes ctx').
Proof.
  intros Hs H. destruct d as [[[d|d|d]|[e|e]]|x]; simpl in H; try discriminate.
  - apply schemaDefinition_Ok in H as [Hn _]. rewrite Hn in Hs. by destruct Hs.
  - apply directiveDefinition_Ok in H as [-> _]. done.
  - apply typeDefinition_Ok in H as (_ & t & -> & _). done.
  - apply schemaExtension_Ok in H as (_ & m & -> & _). by eexists.
  - apply typeExtension_Ok in H as (t0 & t & _ & -> & _). done.
Qed.

Lemma schema_rootOperationTypes_Some document ctx ctx' :
  is_Some (rootOperationTypes ctx) -> for_of schemaStep document ctx = Ok ctx' ->
  is_Some (rootOperationTypes ctx').
Proof.
  apply (for_of_invariant (fun c => is_Some (rootOperationTypes c))).
  intros x s s' Hs H. eapply schemaStep_rootOperationTypes_Some; eauto.
Qed.

(** A stored type definition stays stored, and keeps its kind. *)
Lemma schemaStep_typeDefinitions_kept (d : DefinitionNode) ctx ctx' n k :
  (exists t, typeDefinitions ctx !! n = Some t /\ td_type t = k) ->
  schemaStep d ctx = Ok ctx' ->
  exists t, typeDefinitions ctx' !! n = Some t /\ td_type t = k.
Proof.
  intros (t & Ht & Hk) H. destruct d as [[[d|d|d]|[e|e]]|x]; simpl in H; try discriminate.
  - apply schemaDefinition_Ok in H as (_ & -> & _). eauto.
  - apply directiveDefinition_Ok in H as [_ ->]. eauto.
  - apply typeDefinition_Ok in H as (Hn & t' & -> & _). simpl.
    exists t. split; [|done]. rewrite lookup_insert_ne; [done|]. intros Heq. rewrite Heq in Hn. congruence.
  - apply schemaExtension_Ok in H as (-> & _). eauto.
  - apply typeExtension_Ok in H as (t0 & t' & H0 & -> & _ & Hk'). simpl.
    destruct (decide (te_name e = n)) as [Heq|Hne].
    + rewrite Heq in *. rewrite lookup_insert_eq. exists t'. split; [done|]. congruence.
    + rewrite lookup_insert_ne; eauto.
Qed.

Lemma schema_typeDefinitions_kept document ctx ctx' n k :
  (exists t, typeDefinitions ctx !! n = Some t /\ td_type t = k) ->
  for_of schemaStep document ctx = Ok ctx' ->
  exists t, typeDefinitions ctx' !! n = Some t /\ td_type t = k.
Proof.
  apply (for_of_invariant (fun c => exists t, typeDefinitions c !! n = Some t /\ td_type t = k)).
  intros x s s' Hs H. eapply schemaStep_typeDefinitions_kept; eauto.
Qed.

(** ** The traversal stops at the first failing entry *)

Lemma analyzeSchema_raise_at pre (d : DefinitionNode) post ctx e :
  for_of schemaStep pre emptyContext = Ok ctx ->
  schemaStep d ctx = Raise e ->
  analyzeSchema (pre ++ d :: post) = inr e.
Proof.
  intros Hpre Hd. unfold analyzeSchema, schema.
  rewrite for_of_app, Hpre. simpl. by rewrite Hd.
Qed.

Lemma analyzeSchema_raise_prefix pre post e :
  for_of schemaStep pre emptyContext = Raise e ->
  analyzeSchema (pre ++ post) = inr e.
Proof.
  intros Hpre. unfold analyzeSchema, schema. rewrite for_of_app, Hpre. done.
Qed.

Lemma analyzeSchema_inl_inv document s :
  analyzeSchema document = inl s ->
  exists ctx, for_of schemaStep document emptyContext = Ok ctx /\ s = freeze ctx.
Proof.
  unfold analyzeSchema, schema.
  destruct (for_of schemaStep document emptyContext) as [ctx|e]; simpl; [|discriminate].
  intros [= <-]. eauto.
Qed.

(** A document with a failing entry after a prefix is rejected, whatever
    the prefix does. *)
Lemma analyzeSchema_rejects pre (d : DefinitionNode) post :
  (forall ctx, for_of schemaStep pre emptyContext = Ok ctx ->
               exists e, schemaStep d ctx = Raise e) ->
  exists e, analyzeSchema (pre ++ d :: post) = inr e.
Proof.
  intros Hd. destruct (for_of schemaStep pre emptyContext) as [ctx|e] eqn:Hpre.
  - destruct (Hd _ eq_refl) as [e He]. exists e. by eapply analyzeSchema_raise_at.
  - exists e. by apply analyzeSchema_raise_prefix.
Qed.

Lemma middle_assoc {A : Type} (l1 : list A) (x : A) (l2 l3 : list A) :
  l1 ++ x :: l2 ++ l3 = (l1 ++ x :: l2) ++ l3.
Proof. by rewrite <- app_assoc. Qed.

(** ** Schema definitions *)

Lemma schemaDefinition_second (d : SchemaDefinition) ctx :
  is_Some (rootOperationTypes ctx) ->
  schemaStep (schemaDefinitionNode d) ctx = Raise {| message := "Multiple SchemaDefinition" |}.
Proof. intros [m Hm]. simpl. unfold schemaDefinition. by rewrite Hm. Qed.

Lemma schema_after_schemaDefinition pre (d : SchemaDefinition) mid ctx :
  for_of schemaStep (pre ++ schemaDefinitionNode d :: mid) emptyContext = Ok ctx ->
  is_Some (rootOperationTypes ctx).
Proof.
  rewrite for_of_app. intros H. bind_ok H. simpl in H. bind_ok H.
  apply schemaDefinition_Ok in E0 as (_ & _ & m & Hm & _).
  eapply schema_rootOperationTypes_Some; [|exact H]. rewrite Hm. by eexists.
Qed.

Lemma schema_after_schemaExtension pre (e : SchemaExtension) mid ctx :
  for_of schemaStep (pre ++ schemaExtensionNode e :: mid) emptyContext = Ok ctx ->
  is_Some (rootOperationTypes ctx).
Proof.
  rewrite for_of_app. intros H. bind_ok H. simpl in H. bind_ok H.
  apply schemaExtension_Ok in E0 as (_ & m & Hm & _).
  eapply schema_rootOperationTypes_Some; [|exact H]. rewrite Hm. by eexists.
Qed.

(** C6 (amended).  A document with two SchemaDefinition entries, wherever
    they stand, is rejected; when the traversal reaches the second one (no
    entry before it fails), the failure is "Multiple SchemaDefinition". *)
Theorem two_SchemaDefinitions_rejected pre (d1 : SchemaDefinition) mid
    (d2 : SchemaDefinition) post :
  (exists e, analyzeSchema
               (pre ++ schemaDefinitionNode d1 :: mid ++ schemaDefinitionNode d2 :: post)
             = inr e) /\
  (is_Ok (for_of schemaStep (pre ++ schemaDefinitionNode d1 :: mid) emptyContext) ->
   analyzeSchema (pre ++ schemaDefinitionNode d1 :: mid ++ schemaDefinitionNode d2 :: post)
   = inr {| message := "Multiple SchemaDefinition" |}).
Proof.
  rewrite middle_assoc. split.
  - apply analyzeSchema_rejects. intros ctx Hctx. eexists.
    apply schemaDefinition_second. by eapply schema_after_schemaDefinition.
  - intros [ctx Hctx]. eapply analyzeSchema_raise_at; [exact Hctx|].
    apply schemaDefinition_second. by eapply schema_after_schemaDefinition.
Qed.

(** C10 (amended).  When a SchemaExtension stands before a
    SchemaDefinition, the extension has already created the root operation
    types, so the definition is taken for a second one: the document is
    rejected, with "Multiple SchemaDefinition" when the traversal reaches
    the definition (no entry before it fails). *)
Theorem schemaDefinition_after_schemaExtension_rejected pre (e : SchemaExtension) mid
    (d : SchemaDefinition) post :
  (exists err, analyzeSchema
                 (pre ++ schemaExtensionNode e :: mid ++ schemaDefinitionNode d :: post)
               = inr err) /\
  (is_Ok (for_of schemaStep (pre ++ schemaExtensionNode e :: mid) emptyContext) ->
   analyzeSchema (pre ++ schemaExtensionNode e :: mid ++ schemaDefinitionNode d :: post)
   = inr {| message := "Multiple SchemaDefinition" |}).
Proof.
  rewrite middle_assoc. split.
  - apply analyzeSchema_rejects. intros ctx Hctx. eexists.
    apply schemaDefinition_second. by eapply schema_after_schemaExtension.
  - intros [ctx Hctx]. eapply analyzeSchema_raise_at; [exact Hctx|].
    apply schemaDefinition_second. by eapply schema_after_schemaExtension.
Qed.

(** ** Type definitions *)

(** The name is looked up before anything of the definition is built. *)
Lemma typeDefinition_duplicate (d : ParserTypeDefinition) ctx :
  is_Some (typeDefinitions ctx !! ptd_name d) ->
  schemaStep (typeDefinitionNode d) ctx
  = Raise {| message := "Multiple TypeDefinition for " +:+ ptd_name d |}.
Proof. intros [t Ht]. simpl. unfold typeDefinition, has_key. by rewrite Ht. Qed.

Lemma schema_after_typeDefinition pre (d : ParserTypeDefinition) mid ctx :
  for_of schemaStep (pre ++ typeDefinitionNode d :: mid) emptyContext = Ok ctx ->
  exists t, typeDefinitions ctx !! ptd_name d = Some t /\
            td_type t = typeType (ptd_body d).
Proof.
  rewrite for_of_app. intros H. bind_ok H. simpl in H. bind_ok H.
  apply typeDefinition_Ok in E0 as (_ & t & -> & Hk).
  eapply schema_typeDefinitions_kept; [|exact H].
  exists t. simpl. by rewrite lookup_insert_eq.
Qed.

(** C5 (amended).  Two TypeDefinition entries with the same name, of
    whatever kinds: the document is rejected, and when the traversal reaches
    the second one (no entry before it fails) the failure is the
    duplicate-type-definition error.  Nothing is assumed of the second
    definition's content: the name is checked first. *)
Theorem duplicate_TypeDefinition_rejected pre (d1 : ParserTypeDefinition) mid
    (d2 : ParserTypeDefinition) post :
  ptd_name d1 = ptd_name d2 ->
  (exists e, analyzeSchema
               (pre ++ typeDefinitionNode d1 :: mid ++ typeDefinitionNode d2 :: post)
             = inr e) /\
  (is_Ok (for_of schemaStep (pre ++ typeDefinitionNode d1 :: mid) emptyContext) ->
   analyzeSchema (pre ++ typeDefinitionNode d1 :: mid ++ typeDefinitionNode d2 :: post)
   = inr {| message := "Multiple TypeDefinition for " +:+ ptd_name d2 |}).
Proof.
  intros Hname. rewrite middle_assoc.
  assert (Hdup : forall ctx,
             for_of schemaStep (pre ++ typeDefinitionNode d1 :: mid) emptyContext = Ok ctx ->
             is_Some (typeDefinitions ctx !! ptd_name d2)).
  { intros ctx Hctx. apply schema_after_typeDefinition in Hctx as (t & Ht & _).
    rewrite <- Hname. by eexists. }
  split.
  - apply analyzeSchema_rejects. intros ctx Hctx. eexists.
    apply typeDefinition_duplicate. auto.
  - intros [ctx Hctx]. eapply analyzeSchema_raise_at; [exact Hctx|].
    apply typeDefinition_duplicate. auto.
Qed.

(** ** Type extensions *)






(** ** Documents of the wrong kind *)

Lemma operation_rejects_typeSystem document (context : OperationContext) :
  (exists x, typeSystem_ x ∈ document) ->
  for_of operationStep document context
  = Raise {| message := "TypeSystemDefinitionOrExtension in Operation" |}.
Proof.
  intros [x Hx]. revert context.
  induction document as [|y l IH]; intros context; [by apply elem_of_nil in Hx|].
  destruct y as [y|y]; simpl; [done|].
  apply elem_of_cons in Hx as [Hx|Hx]; [discriminate|].
  destruct y; simpl; auto.
Qed.

(** C9.  A document of the wrong kind is rejected in both directions:
    [analyzeSchema] fails on every document with an executable definition
    (with "ExecutableDocument in Schema" when the traversal reaches it), and
    [analyzeOperation] fails on every document with a type-system definition
    or extension. *)
Theorem wrong_document_kind_rejected :
  (forall pre (x : ExecutableDefinition) post,
      exists e, analyzeSchema (pre ++ executable_ x :: post) = inr e) /\
  (forall pre (x : ExecutableDefinition) post ctx,
      for_of schemaStep pre emptyContext = Ok ctx ->
      analyzeSchema (pre ++ executable_ x :: post)
      = inr {| message := "ExecutableDocument in Schema" |}) /\
  (forall pre (x : TypeSystemDefinitionOrExtension) post,
      analyzeOperation (pre ++ typeSystem_ x :: post)
      = inr {| message := "TypeSystemDefinitionOrExtension in Operation" |}).
Proof.
  split; [|split].
  - intros pre x post. apply analyzeSchema_rejects. intros ctx _. by eexists.
  - intros pre x post ctx Hctx. by eapply analyzeSchema_raise_at.
  - intros pre x post. unfold analyzeOperation, operation.
    rewrite operation_rejects_typeSystem; [done|].
    exists x. apply elem_of_app. right. apply elem_of_cons. by left.
Qed.

(** ** Root operation types *)

Lemma bindRootOperationType_Ok (b : RootOperationTypeDefinition) m m' :
  bindRootOperationType b m = Ok m' ->
  from_option truthy false (m !! operationType b) = false /\
  m' = <[operationType b := rotd_type b]> m.
Proof.
  unfold bindRootOperationType.
  destruct (from_option truthy false (m !! operationType b)); [discriminate|].
  by intros [= <-].
Qed.




(** Every binding was made by an element of the list, or was there before. *)
Lemma bindRootOperationTypes_origin (l : list RootOperationTypeDefinition) m m' o ty :
  for_of bindRootOperationType l m = Ok m' ->
  m' !! o = Some ty ->
  m !! o = Some ty \/ exists b, b ∈ l /\ operationType b = o /\ rotd_type b = ty.
Proof.
  revert m. induction l as [|b l IH]; intros m; simpl; [intros [= <-]; auto|].
  intros H Ho. bind_ok H. apply bindRootOperationType_Ok in E as [_ ->].
  destruct (IH _ H Ho) as [Hm|(b' & Hb' & Hop & Hty)].
  - destruct (decide (operationType b = o)) as [Heq|Hne].
    + rewrite Heq, lookup_insert_eq in Hm. injection Hm as Hm.
      right. exists b. split; [apply elem_of_cons; by left|done].
    + rewrite lookup_insert_ne in Hm by done. by left.
  - right. exists b'. split; [apply elem_of_cons; by right|done].
Qed.



(** ** Uniqueness of names *)

Lemma size_list_to_set_le (l : list string) :
  size (list_to_set l : gset string) <= length l.
Proof.
  induction l as [|x l IH]; [by rewrite list_to_set_nil, size_empty|].
  rewrite list_to_set_cons, size_union_alt, size_singleton. simpl.
  assert (Hsub : (list_to_set l ∖ {[x]} : gset string) ⊆ list_to_set l)
    by apply subseteq_difference_l, reflexivity.
  apply subseteq_size in Hsub. lia.
Qed.

Lemma size_list_to_set_NoDup (l : list string) :
  size (list_to_set l : gset string) = length l <-> NoDup l.
Proof.
  split; [|apply size_list_to_set].
  induction l as [|x l IH]; [constructor|].
  rewrite list_to_set_cons. simpl.
  intros Hsize. destruct (decide (x ∈ l)) as [Hin|Hnin].
  - exfalso.
    assert (Heq : ({[x]} ∪ list_to_set l : gset string) = list_to_set l).
    { apply subseteq_union_1_L, singleton_subseteq_l, elem_of_list_to_set, Hin. }
    rewrite Heq in Hsize. pose proof (size_list_to_set_le l). lia.
  - constructor; [done|]. apply IH.
    rewrite size_union, size_singleton in Hsize; [lia|].
    apply disjoint_singleton_l. by rewrite elem_of_list_to_set.
Qed.

Lemma noDuplicate_Ok (strs : list string) (on : string) :
  NoDup strs -> noDuplicate strs on = Ok strs.
Proof.
  intros Hnd. unfold noDuplicate. rewrite bool_decide_false; [done|].
  intros Hne. apply Hne. by apply size_list_to_set_NoDup.
Qed.

Lemma noDuplicate_Ok_inv (strs strs' : list string) (on : string) :
  noDuplicate strs on = Ok strs' -> NoDup strs /\ strs' = strs.
Proof.
  unfold noDuplicate. case_bool_decide as Hsize; [discriminate|].
  intros [= <-]. split; [|done]. apply size_list_to_set_NoDup.
  destruct (decide (size (list_to_set strs : gset string) = length strs)); [done|].
  by destruct Hsize.
Qed.

Lemma noDuplicate_Raise (strs : list string) (on : string) :
  ~ NoDup strs -> noDuplicate strs on = Raise {| message := "Duplicate " +:+ on |}.
Proof.
  intros Hnd. unfold noDuplicate. rewrite bool_decide_true; [done|].
  intros Hsize. by apply Hnd, size_list_to_set_NoDup.
Qed.

(** C7.  What the code does on the two documents of the claim.  The
    definition [type Foo implements A & A] is rejected, but the label of the
    message is built from the description of the type (absent here, hence
    "undefined"), not from its name; the extension path names the type. *)
Theorem implements_duplicate_messages :
  analyzeSchema
    [ typeDefinitionNode
        {| ptd_description := None; ptd_name := "Foo"; ptd_directives := None;
           ptd_body := PObject (Some ["A"; "A"]) None |} ]
  = inr {| message := "Duplicate implements on type undefined" |} /\
  analyzeSchema
    [ typeDefinitionNode
        {| ptd_description := None; ptd_name := "Foo"; ptd_directives := None;
           ptd_body := PObject (Some ["A"]) None |};
      typeExtensionNode
        {| te_name := "Foo"; te_directives := None;
           te_body := PObject (Some ["A"]) None |} ]
  = inr {| message := "Duplicate implements on type Foo extension" |}.
Proof. split; vm_compute; reflexivity. Qed.

(** The label of a definition's duplicate-interface failure, in general. *)
Lemma objectTypeDefinition_duplicate_label (d : ParserTypeDefinition) i f ctx base :
  definitionBase d = Ok base ->
  ~ NoDup (default [] i) ->
  objectTypeDefinition d i f ctx
  = Raise {| message := "Duplicate implements on type " +:+ show (ptd_description d) |}.
Proof.
  intros Hb Hnd. unfold objectTypeDefinition. rewrite Hb. simpl.
  by rewrite noDuplicate_Raise.
Qed.

(** C8.  The document [schema { query: Query } type Query { hello: String }]
    is accepted: [query] is bound to "Query", "Query" is an object type, and
    its field "hello" carries the parsed type node [t] as it came. *)
Theorem hello_schema_analysis (t : GType) :
  exists s,
    analyzeSchema
      [ schemaDefinitionNode
          {| sd_description := None; sd_directives := None;
             sd_rootOperationTypeDefinitions :=
               [ {| operationType := query; rotd_type := "Query" |} ] |};
        typeDefinitionNode
          {| ptd_description := None; ptd_name := "Query"; ptd_directives := None;
             ptd_body :=
               PObject None
                 (Some [ {| pfd_description := None; pfd_name := "hello";
                            pfd_argumentsDefinition := None; pfd_type := t;
                            pfd_directives := None |} ]) |} ]
    = inl s /\
    s_rootOperationTypes s !! query = Some "Query" /\
    exists td fields field,
      s_typeDefinitions s !! "Query" = Some td /\
      td_type td = object /\
      td_name (td_base td) = "Query" /\
      td_fieldsDefinition td = Some fields /\
      fields !! "hello" = Some field /\
      fd_name field = "hello" /\
      fd_type field = t.
Proof.
  eexists. split; [vm_compute; reflexivity|].
  split; [vm_compute; reflexivity|].
  eexists _, _, _. split; [vm_compute; reflexivity|]. simpl.
  repeat split.
Qed.

(** ** Fields added by an extension *)

Lemma addField_Ok (e : TypeExtension) fd (m m' : gmap string FieldDefinition) :
  addField e fd m = Ok m' ->
  m !! pfd_name fd = None /\
  exists f, fieldDefinition fd (fieldLabel e fd) = Ok f /\ m' = <[pfd_name fd := f]> m.
Proof.
  unfold addField, has_key. destruct (m !! pfd_name fd); [discriminate|].
  destruct (inherited (pfd_name fd)); [discriminate|].
  intros H. bind_ok H. injection H as <-. eauto.
Qed.

(** A field named like a member of [Object.prototype] is never added. *)
Lemma addField_Ok_name (e : TypeExtension) fd (m m' : gmap string FieldDefinition) :
  addField e fd m = Ok m' -> inherited (pfd_name fd) = false.
Proof.
  unfold addField, has_key. destruct (m !! pfd_name fd); [discriminate|].
  by destruct (inherited (pfd_name fd)).
Qed.

Lemma addFields_Ok_names (e : TypeExtension) F (m m' : gmap string FieldDefinition) :
  for_of (addField e) F m = Ok m' ->
  forall fd, fd ∈ F -> inherited (pfd_name fd) = false.
Proof.
  revert m. induction F as [|fd F IH]; intros m; simpl.
  - intros _ fd Hfd. by apply elem_of_nil in Hfd.
  - intros H. bind_ok H. intros fd' Hfd'. apply elem_of_cons in Hfd' as [->|Hfd'].
    + by eapply addField_Ok_name.
    + by eapply IH.
Qed.

Lemma addFields_Ok_inv (e : TypeExtension) F (m m' : gmap string FieldDefinition) :
  for_of (addField e) F m = Ok m' ->
  NoDup (pfd_name <$> F) /\
  (forall fd, fd ∈ F ->
              m !! pfd_name fd = None /\
              exists f, fieldDefinition fd (fieldLabel e fd) = Ok f /\
                        m' !! pfd_name fd = Some f) /\
  (forall k, k ∉ pfd_name <$> F -> m' !! k = m !! k).
Proof.
  revert m. induction F as [|fd F IH]; intros m; simpl.
  - intros [= <-]. split; [constructor|]. split; [|done].
    intros fd Hfd. by apply elem_of_nil in Hfd.
  - intros H. bind_ok H. apply addField_Ok in E as (Hfree & f & Hf & ->).
    destruct (IH _ H) as (Hnd & Hin & Hout).
    assert (Hfresh : pfd_name fd ∉ pfd_name <$> F).
    { intros Hk. apply list_elem_of_fmap in Hk as (fd' & Hname & Hfd').
      destruct (Hin _ Hfd') as [Hnone _]. rewrite <- Hname in Hnone.
      by rewrite lookup_insert_eq in Hnone. }
    split; [by constructor|]. split.
    + intros fd' Hfd'. apply elem_of_cons in Hfd' as [->|Hfd'].
      * split; [done|]. exists f. split; [done|].
        rewrite (Hout _ Hfresh). by rewrite lookup_insert_eq.
      * destruct (Hin _ Hfd') as (Hnone & f' & Hf' & Hm'). split; [|eauto].
        destruct (decide (pfd_name fd = pfd_name fd')) as [Heq|Hne].
        -- rewrite Heq in Hnone. by rewrite lookup_insert_eq in Hnone.
        -- by rewrite lookup_insert_ne in Hnone.
    + intros k Hk. apply not_elem_of_cons in Hk as [Hne Hk].
      rewrite (Hout _ Hk). by rewrite lookup_insert_ne.
Qed.

Lemma addFields_Ok_intro (e : TypeExtension) F (m : gmap string FieldDefinition) :
  NoDup (pfd_name <$> F) ->
  (forall fd, fd ∈ F -> m !! pfd_name fd = None /\
                        is_Ok (fieldDefinition fd (fieldLabel e fd))) ->
  (forall fd, fd ∈ F -> inherited (pfd_name fd) = false) ->
  is_Ok (for_of (addField e) F m).
Proof.
  revert m. induction F as [|fd F IH]; intros m Hnd Hall Hinh; simpl; [by eexists|].
  apply NoDup_cons in Hnd as [Hfresh Hnd].
  destruct (Hall fd) as (Hnone & f & Hf); [apply elem_of_cons; by left|].
  unfold addField at 1, has_key.
  rewrite Hnone, (Hinh fd) by (apply elem_of_cons; by left).
  fold (fieldLabel e fd). rewrite Hf. simpl.
  apply IH; [done| |].
  - intros fd' Hfd'.
    destruct (Hall fd') as [Hnone' Hok']; [apply elem_of_cons; by right|].
    split; [|done]. rewrite lookup_insert_ne; [done|].
    intros Heq. apply Hfresh. rewrite Heq. by apply list_elem_of_fmap_2.
  - intros fd' Hfd'. apply Hinh. apply elem_of_cons. by right.
Qed.

(** A list of fields that is fine on its own fails, on a map that already
    holds one of its names, with the duplicate-field error. *)
Lemma addFields_collision (e : TypeExtension) F (m0 m0' m1 : gmap string FieldDefinition) :
  for_of (addField e) F m0 = Ok m0' ->
  (exists fd, fd ∈ F /\ is_Some (m1 !! pfd_name fd)) ->
  for_of (addField e) F m1 = Raise (duplicateField e).
Proof.
  revert m0 m1. induction F as [|fd F IH]; intros m0 m1; simpl.
  - intros _ (fd & Hfd & _). by apply elem_of_nil in Hfd.
  - intros H (fd' & Hfd' & Hsome). bind_ok H.
    pose proof (addField_Ok_name _ _ _ _ E) as Hinh.
    apply addField_Ok in E as (_ & f & Hf & ->).
    unfold addField at 1, has_key.
    destruct (m1 !! pfd_name fd) eqn:Hm1; [done|]. rewrite Hinh.
    fold (fieldLabel e fd). rewrite Hf. simpl.
    eapply IH; [exact H|]. exists fd'.
    apply elem_of_cons in Hfd' as [->|Hfd'].
    + rewrite Hm1 in Hsome. by destruct Hsome.
    + split; [done|]. apply lookup_insert_is_Some'. by right.
Qed.

Lemma objectTypeExtension_Ok (e : TypeExtension) i f t t' :
  objectTypeExtension e i f t = Ok t' ->
  exists base ifs fs fs' ds,
    t = ObjectTypeDefinition base ifs fs /\
    NoDup (ifs ++ default [] i) /\
    for_of (addField e) (default [] f) fs = Ok fs' /\
    extensionDirectives e = Ok ds /\
    t' = ObjectTypeDefinition (push_directives base ds) (ifs ++ default [] i) fs'.
Proof.
  destruct t as [|base ifs fs| | | |]; simpl; try discriminate.
  intros H. repeat bind_ok H. injection H as <-.
  apply noDuplicate_Ok_inv in E as [Hnd ->].
  exists base, ifs, fs, x0, x1. done.
Qed.

Lemma objectTypeExtension_Ok_intro (e : TypeExtension) i f base ifs fs fs' ds :
  NoDup (ifs ++ default [] i) ->
  for_of (addField e) (default [] f) fs = Ok fs' ->
  extensionDirectives e = Ok ds ->
  objectTypeExtension e i f (ObjectTypeDefinition base ifs fs)
  = Ok (ObjectTypeDefinition (push_directives base ds) (ifs ++ default [] i) fs').
Proof.
  intros Hnd Hfs Hds. simpl. rewrite noDuplicate_Ok by done. simpl.
  rewrite Hfs. simpl. rewrite Hds. done.
Qed.

(** If the two extensions go through in one order, they go through in the
    other, and the field maps agree. *)
Lemma objectTypeExtension_swap (e1 e2 : TypeExtension) i1 f1 i2 f2 t t1 t12 :
  objectTypeExtension e1 i1 f1 t = Ok t1 ->
  objectTypeExtension e2 i2 f2 t1 = Ok t12 ->
  exists t2 t21,
    objectTypeExtension e2 i2 f2 t = Ok t2 /\
    objectTypeExtension e1 i1 f1 t2 = Ok t21 /\
    td_fieldsDefinition t21 = td_fieldsDefinition t12.
Proof.
  intros H1 H2.
  apply objectTypeExtension_Ok in H1 as (base & ifs & fs & fs1 & ds1 & -> & Hnd1 & Hf1 & Hd1 & ->).
  apply objectTypeExtension_Ok in H2 as (? & ? & ? & fs12 & ds2 & [= <- <- <-] & Hnd2 & Hf2 & Hd2 & ->).
  pose proof (addFields_Ok_inv _ _ _ _ Hf1) as (HndF1 & Hin1 & Hout1).
  pose proof (addFields_Ok_inv _ _ _ _ Hf2) as (HndF2 & Hin2 & Hout2).
  (* the names of the two lists are disjoint *)
  assert (Hdisj : forall fd, fd ∈ default [] f2 -> pfd_name fd ∉ pfd_name <$> default [] f1).
  { intros fd Hfd Hk. apply list_elem_of_fmap in Hk as (fd' & Hname & Hfd').
    destruct (Hin2 _ Hfd) as [Hnone _]. destruct (Hin1 _ Hfd') as (_ & f' & _ & Hsome).
    rewrite Hname in Hnone. congruence. }
  (* the second extension alone *)
  destruct (addFields_Ok_intro e2 (default [] f2) fs HndF2) as [fs2 Hfs2].
  { intros fd Hfd. destruct (Hin2 _ Hfd) as (Hnone & f' & Hf' & _).
    split; [|by eexists]. rewrite <- (Hout1 _ (Hdisj _ Hfd)). done. }
  { by eapply addFields_Ok_names. }
  pose proof (addFields_Ok_inv _ _ _ _ Hfs2) as (_ & Hin2' & Hout2').
  (* then the first one *)
  destruct (addFields_Ok_intro e1 (default [] f1) fs2 HndF1) as [fs21 Hfs21].
  { intros fd Hfd. destruct (Hin1 _ Hfd) as (Hnone & f' & Hf' & _).
    split; [|by eexists]. rewrite Hout2'; [done|].
    intros Hk. apply list_elem_of_fmap in Hk as (fd' & Hname & Hfd').
    apply (Hdisj _ Hfd'). rewrite <- Hname. by apply list_elem_of_fmap_2. }
  { by eapply addFields_Ok_names. }
  pose proof (addFields_Ok_inv _ _ _ _ Hfs21) as (_ & Hin1' & Hout1').
  assert (Hnd2' : NoDup (ifs ++ default [] i2)).
  { rewrite <- app_assoc in Hnd2. apply NoDup_app in Hnd2 as (Ha & Hb & Hc).
    apply NoDup_app in Hc as (_ & _ & Hc). apply NoDup_app. split; [done|]. split; [|done].
    intros x Hx Hx'. apply (Hb x Hx). apply elem_of_app. by right. }
  assert (Hnd1' : NoDup ((ifs ++ default [] i2) ++ default [] i1)).
  { eapply NoDup_Permutation_proper; [|exact Hnd2]. rewrite <- !app_assoc.
    apply Permutation_app_head, Permutation_app_comm. }
  eexists _, _. split; [by apply objectTypeExtension_Ok_intro|].
  split; [by apply objectTypeExtension_Ok_intro|].
  simpl. f_equal. apply map_eq. intros k.
  destruct (decide (k ∈ pfd_name <$> default [] f2)) as [Hk2|Hk2].
  - apply list_elem_of_fmap in Hk2 as (fd & -> & Hfd).
    destruct (Hin2 _ Hfd) as (_ & f & Hf & ->).
    destruct (Hin2' _ Hfd) as (_ & f' & Hf' & Hfs2k).
    rewrite (Hout1' _ (Hdisj _ Hfd)), Hfs2k. congruence.
  - rewrite (Hout2 _ Hk2).
    destruct (decide (k ∈ pfd_name <$> default [] f1)) as [Hk1|Hk1].
    + apply list_elem_of_fmap in Hk1 as (fd & -> & Hfd).
      destruct (Hin1 _ Hfd) as (_ & f & Hf & ->).
      destruct (Hin1' _ Hfd) as (_ & f' & Hf' & ->). congruence.
    + rewrite (Hout1' _ Hk1), (Hout2' _ Hk2), (Hout1 _ Hk1). done.
Qed.

(** C4 (amended).  Two object-type extensions applied to one definition.
    (1) The two orders either both fail or both succeed with the same
        [fieldsDefinition]; when each extension is accepted by the base on
        its own, their interface lists do not clash and their field names
        are disjoint, both orders succeed.
    (2) With the same provisos but a field name in common, the extension
        processed second fails with the duplicate-field error, in both
        orders. *)
Theorem objectTypeExtensions_commute (e1 e2 : TypeExtension) i1 f1 i2 f2 t :
  resultFields (bind (objectTypeExtension e1 i1 f1 t) (objectTypeExtension e2 i2 f2))
  = resultFields (bind (objectTypeExtension e2 i2 f2 t) (objectTypeExtension e1 i1 f1)) /\
  (forall t1 t2,
      objectTypeExtension e1 i1 f1 t = Ok t1 ->
      objectTypeExtension e2 i2 f2 t = Ok t2 ->
      (forall ifs, td_implementsInterfaces t = Some ifs ->
                   NoDup (ifs ++ default [] i1 ++ default [] i2)) ->
      ((forall k, k ∈ pfd_name <$> default [] f1 -> k ∉ pfd_name <$> default [] f2) ->
       exists t12 t21,
         objectTypeExtension e2 i2 f2 t1 = Ok t12 /\
         objectTypeExtension e1 i1 f1 t2 = Ok t21 /\
         td_fieldsDefinition t12 = td_fieldsDefinition t21) /\
      ((exists k, k ∈ pfd_name <$> default [] f1 /\ k ∈ pfd_name <$> default [] f2) ->
       objectTypeExtension e2 i2 f2 t1 = Raise (duplicateField e2) /\
       objectTypeExtension e1 i1 f1 t2 = Raise (duplicateField e1))).
Proof.
  split.
  - destruct (bind (objectTypeExtension e1 i1 f1 t) (objectTypeExtension e2 i2 f2))
      as [t12|err12] eqn:H12.
    + bind_ok H12.
      destruct (objectTypeExtension_swap _ _ _ _ _ _ _ _ _ E H12) as (t2 & t21 & H2 & H21 & Heq).
      rewrite H2. simpl. rewrite H21. simpl. done.
    + destruct (bind (objectTypeExtension e2 i2 f2 t) (objectTypeExtension e1 i1 f1))
        as [t21|err21] eqn:H21; [|done].
      bind_ok H21.
      destruct (objectTypeExtension_swap _ _ _ _ _ _ _ _ _ E H21) as (t1 & t12 & H1 & H12' & Heq).
      rewrite H1 in H12. simpl in H12. congruence.
  - intros t1 t2 H1 H2 Hifs.
    apply objectTypeExtension_Ok in H1 as (base & ifs & fs & fs1 & ds1 & -> & Hnd1 & Hf1 & Hd1 & ->).
    apply objectTypeExtension_Ok in H2 as (? & ? & ? & fs2 & ds2 & [= <- <- <-] & Hnd2 & Hf2 & Hd2 & ->).
    specialize (Hifs ifs eq_refl).
    pose proof (addFields_Ok_inv _ _ _ _ Hf1) as (HndF1 & Hin1 & Hout1).
    pose proof (addFields_Ok_inv _ _ _ _ Hf2) as (HndF2 & Hin2 & Hout2).
    assert (Hnd12 : NoDup ((ifs ++ default [] i1) ++ default [] i2))
      by (by rewrite <- app_assoc).
    assert (Hnd21 : NoDup ((ifs ++ default [] i2) ++ default [] i1)).
    { eapply NoDup_Permutation_proper; [|exact Hnd12]. rewrite <- !app_assoc.
      apply Permutation_app_head, Permutation_app_comm. }
    split.
    + intros Hdisj.
      destruct (addFields_Ok_intro e2 (default [] f2) fs1 HndF2) as [fs12 Hfs12].
      { intros fd Hfd. destruct (Hin2 _ Hfd) as (Hnone & f' & Hf' & _).
        split; [|by eexists]. rewrite Hout1; [done|].
        intros Hk. by apply (Hdisj _ Hk), list_elem_of_fmap_2. }
      { by eapply addFields_Ok_names. }
      assert (H12 : objectTypeExtension e2 i2 f2
                      (ObjectTypeDefinition (push_directives base ds1)
                         (ifs ++ default [] i1) fs1)
                    = Ok (ObjectTypeDefinition
                            (push_directives (push_directives base ds1) ds2)
                            ((ifs ++ default [] i1) ++ default [] i2) fs12))
        by (by apply objectTypeExtension_Ok_intro).
      destruct (objectTypeExtension_swap e1 e2 i1 f1 i2 f2
                  (ObjectTypeDefinition base ifs fs) _ _
                  (objectTypeExtension_Ok_intro _ _ _ _ _ _ _ _ Hnd1 Hf1 Hd1) H12)
        as (t2 & t21 & H2 & H21 & Heq).
      rewrite (objectTypeExtension_Ok_intro _ _ _ _ _ _ _ _ Hnd2 Hf2 Hd2) in H2.
      injection H2 as <-. eexists _, t21. split; [exact H12|]. split; [exact H21|]. done.
    + intros (k & Hk1 & Hk2).
      apply list_elem_of_fmap in Hk1 as (fd1 & -> & Hfd1).
      apply list_elem_of_fmap in Hk2 as (fd2 & Hname & Hfd2).
      destruct (Hin1 _ Hfd1) as (_ & g1 & _ & Hg1).
      destruct (Hin2 _ Hfd2) as (_ & g2 & _ & Hg2).
      split; simpl.
      * rewrite noDuplicate_Ok by done. simpl.
        erewrite addFields_collision; [done|exact Hf2|].
        exists fd2. split; [done|]. rewrite <- Hname, Hg1. by eexists.
      * rewrite noDuplicate_Ok by done. simpl.
        erewrite addFields_collision; [done|exact Hf1|].
        exists fd1. split; [done|]. rewrite Hname, Hg2. by eexists.
Qed.

(** ** Every failure is the failure of an entry *)

Lemma for_of_raised {A S : Type} (P : Error -> Prop) (body : A -> S -> Result S)
    (l : list A) (s : S) (e : Error) :
  (forall x s' e', body x s' = Raise e' -> P e') ->
  for_of body l s = Raise e -> P e.
Proof.
  intros Hbody H. apply for_of_Raise_inv in H as (pre & x & post & s' & _ & _ & Hx). eauto.
Qed.

Lemma map_raising_raised {A B : Type} (P : Error -> Prop) (f : A -> Result B)
    (l : list A) (e : Error) :
  (forall x e', f x = Raise e' -> P e') ->
  map_raising f l = Raise e -> P e.
Proof.
  intros Hf. induction l as [|x l IH]; simpl; [discriminate|].
  intros H. apply bind_Raise_inv in H as [H|(y & _ & H)]; [eauto|].
  apply bind_Raise_inv in H as [H|(ys & _ & H)]; [eauto|discriminate].
Qed.

(** Splits a failed computation into the step that failed. *)
Ltac raised :=
  repeat match goal with
    | H : raise _ = Raise _ |- _ => injection H as <-
    | H : Raise _ = Raise _ |- _ => injection H as <-
    | H : Ok _ = Raise _ |- _ => discriminate H
    | H : bind _ _ = Raise _ |- _ => apply bind_Raise_inv in H as [H|(? & _ & H)]
    | H : (if ?c then _ else _) = Raise _ |- _ => destruct c
    end;
  try reflexivity; eauto.

Notation "'entry_failed' e" := (entryFailure (message e) = true) (at level 10, e at level 9).

Lemma directive_raised (d : ParserDirective) on e :
  directive d on = Raise e -> entry_failed e.
Proof.
  unfold directive. intros H. raised.
  eapply (for_of_raised (fun e => entry_failed e)); [|exact H].
  intros x s' e' Hx. simpl in Hx. raised.
Qed.

Lemma directives_raised (ds : option (list ParserDirective)) on e :
  directives ds on = Raise e -> entry_failed e.
Proof.
  unfold directives. apply (map_raising_raised (fun e => entry_failed e)).
  intros x e'. apply directive_raised.
Qed.

Lemma inputValuesDefinition_raised (l : option (list ParserInputValueDefinition)) on e :
  inputValuesDefinition l on = Raise e -> entry_failed e.
Proof.
  unfold inputValuesDefinition. apply (for_of_raised (fun e => entry_failed e)).
  intros x s' e' Hx. simpl in Hx. unfold inputValueDefinition in Hx. raised.
  by eapply directives_raised.
Qed.

Lemma fieldDefinition_raised (fd : ParserFieldDefinition) on e :
  fieldDefinition fd on = Raise e -> entry_failed e.
Proof.
  unfold fieldDefinition. intros H. raised.
  - by eapply inputValuesDefinition_raised.
  - by eapply directives_raised.
Qed.

Lemma fieldsDefinition_raised (l : list ParserFieldDefinition) on e :
  fieldsDefinition l on = Raise e -> entry_failed e.
Proof.
  unfold fieldsDefinition. apply (for_of_raised (fun e => entry_failed e)).
  intros x s' e' Hx. simpl in Hx. raised. by eapply fieldDefinition_raised.
Qed.

Lemma noDuplicate_raised (l : list string) on e :
  noDuplicate l on = Raise e -> entry_failed e.
Proof. unfold noDuplicate. intros H. raised. Qed.

Lemma bindRootOperationTypes_raised (l : list RootOperationTypeDefinition) m e :
  for_of bindRootOperationType l m = Raise e -> entry_failed e.
Proof.
  apply (for_of_raised (fun e => entry_failed e)).
  intros x s' e' Hx. unfold bindRootOperationType in Hx. raised.
Qed.

Lemma addEnumValues_raised name what (l : list ParserEnumValueDefinition) m e :
  for_of (addEnumValue name what) l m = Raise e -> entry_failed e.
Proof.
  apply (for_of_raised (fun e => entry_failed e)).
  intros x s' e' Hx. unfold addEnumValue in Hx. raised. by eapply directives_raised.
Qed.

Lemma typeDefinition_raised (d : ParserTypeDefinition) ctx e :
  typeDefinition d ctx = Raise e -> entry_failed e.
Proof.
  unfold typeDefinition. intros H. raised.
  destruct (ptd_body d); simpl in H;
    [ unfold scalarTypeDefinition in H
    | unfold objectTypeDefinition in H
    | unfold interfaceTypeDefinition in H
    | unfold unionTypeDefinition in H
    | unfold enumTypeDefinition in H
    | unfold inputObjectTypeDefinition in H ];
    unfold definitionBase in H; raised;
    try (by eapply directives_raised);
    try (by eapply noDuplicate_raised);
    try (by eapply inputValuesDefinition_raised);
    try (by eapply addEnumValues_raised).
  - destruct fieldsDefinition0; [by eapply fieldsDefinition_raised|discriminate].
  - destruct fieldsDefinition0; [by eapply fieldsDefinition_raised|discriminate].
Qed.

Lemma addFields_raised (d : TypeExtension) (l : list ParserFieldDefinition) m e :
  for_of (addField d) l m = Raise e -> entry_failed e.
Proof.
  apply (for_of_raised (fun e => entry_failed e)).
  intros x s' e' Hx. unfold addField in Hx. raised. by eapply fieldDefinition_raised.
Qed.

Lemma typeExtension_raised (d : TypeExtension) ctx e :
  typeExtension d ctx = Raise e -> entry_failed e.
Proof.
  unfold typeExtension. intros H.
  destruct (typeDefinitions ctx !! te_name d) as [t|];
    [|unfold differentType in H; raised].
  raised. destruct (te_body d), t; simpl in H; unfold differentType, extensionDirectives in H;
    raised;
    try (by eapply directives_raised);
    try (by eapply noDuplicate_raised);
    try (by eapply addFields_raised);
    try (by eapply addEnumValues_raised).
  eapply (for_of_raised (fun e => entry_failed e)); [|exact H].
  intros x s' e' Hx. simpl in Hx. unfold inputValueDefinition in Hx. raised.
  by eapply directives_raised.
Qed.

Lemma schemaStep_raised (d : DefinitionNode) ctx e :
  schemaStep d ctx = Raise e -> entry_failed e.
Proof.
  destruct d as [[[d|d|d]|[x|x]]|x]; simpl; intros H.
  - unfold schemaDefinition in H. destruct (rootOperationTypes ctx); raised.
    + by eapply bindRootOperationTypes_raised.
    + by eapply directives_raised.
  - unfold directiveDefinition in H. raised.
    + by eapply inputValuesDefinition_raised.
    + eapply (for_of_raised (fun e => entry_failed e)); [|exact H].
      intros y s' e' Hy. unfold addLocation in Hy. raised.
  - by eapply typeDefinition_raised.
  - unfold schemaExtension in H. raised.
    + by eapply bindRootOperationTypes_raised.
    + by eapply directives_raised.
  - by eapply typeExtension_raised.
  - raised.
Qed.

Lemma analyzeSchema_raised document e :
  analyzeSchema document = inr e -> entry_failed e.
Proof.
  unfold analyzeSchema, schema.
  destruct (for_of schemaStep document emptyContext) as [ctx|e'] eqn:H; simpl; [discriminate|].
  intros [= <-]. eapply (for_of_raised (fun e => entry_failed e)); [|exact H].
  intros x s' e'' Hx. by eapply schemaStep_raised.
Qed.

(** ** Documents without a SchemaDefinition *)

(** Without a SchemaDefinition, every binding of the context comes from a
    SchemaExtension of the document. *)
Lemma schema_bindings_origin document ctx ctx' m' o ty :
  Forall (fun x => forall d, x <> schemaDefinitionNode d) document ->
  for_of schemaStep document ctx = Ok ctx' ->
  rootOperationTypes ctx' = Some m' -> m' !! o = Some ty ->
  (exists m, rootOperationTypes ctx = Some m /\ m !! o = Some ty) \/
  (exists e b, schemaExtensionNode e ∈ document /\
               b ∈ default [] (se_rootOperationTypeDefinitions e) /\
               operationType b = o /\ rotd_type b = ty).
Proof.
  intros Hall. revert ctx. induction Hall as [|x l Hx _ IH]; intros ctx; simpl.
  - intros [= <-]. eauto.
  - intros H Hm' Ho. bind_ok H.
    destruct (IH _ H Hm' Ho) as [(m1 & Hm1 & Ho1)|(e & b & He & Hb)].
    + destruct x as [[[d|d|d]|[e|e]]|x]; simpl in E; try discriminate.
      * by destruct (Hx d).
      * apply directiveDefinition_Ok in E as [Hrot _]. rewrite Hrot in Hm1. eauto.
      * apply typeDefinition_Ok in E as (_ & t & -> & _). eauto.
      * apply schemaExtension_Ok in E as (_ & m2 & Hm2 & Hloop).
        rewrite Hm1 in Hm2. injection Hm2 as <-.
        destruct (bindRootOperationTypes_origin _ _ _ _ _ Hloop Ho1)
          as [Hold|(b & Hb & Hop & Hty)].
        -- left. destruct (rootOperationTypes ctx) as [m|]; simpl in Hold; [eauto|].
           by rewrite lookup_empty in Hold.
        -- right. exists e, b. split; [apply elem_of_cons; by left|done].
      * apply typeExtension_Ok in E as (t0 & t & _ & -> & _). eauto.
    + right. exists e, b. split; [apply elem_of_cons; by right|done].
Qed.

(** C2 (amended).  A missing SchemaDefinition is no failure.  No document
    is ever answered "No SchemaDefinition": a failure is the failure of the
    first entry that fails.  A document without a SchemaDefinition whose
    entries all pass is accepted, and every binding of its
    [rootOperationTypes] was made by one of its SchemaExtension entries (so
    the mapping is empty when there are none). *)
Theorem missing_SchemaDefinition_accepted document :
  Forall (fun x => forall d, x <> schemaDefinitionNode d) document ->
  analyzeSchema document <> inr {| message := "No SchemaDefinition" |} /\
  (forall e, analyzeSchema document = inr e ->
             exists pre x post ctx,
               document = pre ++ x :: post /\
               for_of schemaStep pre emptyContext = Ok ctx /\
               schemaStep x ctx = Raise e) /\
  (forall ctx, for_of schemaStep document emptyContext = Ok ctx ->
               exists s, analyzeSchema document = inl s /\
                         forall o ty, s_rootOperationTypes s !! o = Some ty ->
                           exists e b, schemaExtensionNode e ∈ document /\
                                       b ∈ default [] (se_rootOperationTypeDefinitions e) /\
                                       operationType b = o /\ rotd_type b = ty).
Proof.
  intros Hall. split; [|split].
  - intros H. apply analyzeSchema_raised in H. discriminate H.
  - intros e. unfold analyzeSchema, schema.
    destruct (for_of schemaStep document emptyContext) as [ctx|e'] eqn:H; simpl; [discriminate|].
    intros [= <-]. by apply for_of_Raise_inv.
  - intros ctx Hctx. exists (freeze ctx). unfold analyzeSchema, schema. rewrite Hctx. simpl.
    split; [done|]. intros o ty Ho.
    destruct (rootOperationTypes ctx) as [m|] eqn:Hm; simpl in Ho;
      [|by rewrite lookup_empty in Ho].
    destruct (schema_bindings_origin _ _ _ _ _ _ Hall Hctx Hm Ho) as [(m0 & Hm0 & _)|H];
      [discriminate Hm0|done].
Qed.

(** ** The inline revision on the same documents *)

Lemma inline_schemaStep_no_SchemaDefinition (x : DefinitionNode) ctx ctx' :
  (forall d, x <> schemaDefinitionNode d) ->
  rootOperationTypes ctx = None ->
  inline_schemaStep x ctx = Ok ctx' ->
  rootOperationTypes ctx' = None.
Proof.
  intros Hx Hnone H. destruct x as [[[d|d|d]|[e|e]]|x]; simpl in H.
  - by destruct (Hx d).
  - apply directiveDefinition_Ok in H as [-> _]. done.
  - apply typeDefinition_Ok in H as (_ & t & -> & _). done.
  - unfold inline_schemaExtension in H. rewrite Hnone in H. discriminate.
  - apply typeExtension_Ok in H as (t0 & t & _ & -> & _). done.
  - by injection H as <-.
Qed.

(** In the inline revision a document without a SchemaDefinition is always
    rejected, with "No SchemaDefinition" when all its entries pass; and a
    SchemaExtension met before the SchemaDefinition is itself a failure. *)
Lemma inline_missing_SchemaDefinition document :
  Forall (fun x => forall d, x <> schemaDefinitionNode d) document ->
  (exists e, inline_analyzeSchema document = inr e) /\
  (is_Ok (for_of inline_schemaStep document emptyContext) ->
   inline_analyzeSchema document = inr {| message := "No SchemaDefinition" |}).
Proof.
  intros Hall.
  assert (Hnone : forall ctx ctx', rootOperationTypes ctx = None ->
                    for_of inline_schemaStep document ctx = Ok ctx' ->
                    rootOperationTypes ctx' = None).
  { induction Hall as [|x l Hx _ IH]; intros ctx ctx' Hn; simpl; [by intros [= <-]|].
    intros H. bind_ok H. eapply IH; [|exact H].
    eapply inline_schemaStep_no_SchemaDefinition; eauto. }
  unfold inline_analyzeSchema, inline_schema.
  destruct (for_of inline_schemaStep document emptyContext) as [ctx|e] eqn:H; simpl.
  - rewrite (Hnone emptyContext ctx eq_refl H). simpl. eauto.
  - split; [eauto|]. by intros [? [=]].
Qed.

Lemma inline_schemaExtension_first (e : SchemaExtension) post :
  inline_analyzeSchema (schemaExtensionNode e :: post)
  = inr {| message := "SchemaExtension before SchemaDefinition" |}.
Proof. reflexivity. Qed.

(** ** The insert-if-absent loop, in general *)

Section InsertUnique.
Context {A V : Type} (key : A -> string) (err : A -> Error) (build : A -> Result V).

Lemma insertUnique_Ok (x : A) (m m' : gmap string V) :
  insertUnique key err build x m = Ok m' ->
  m !! key x = None /\ exists v, build x = Ok v /\ m' = <[key x := v]> m.
Proof.
  unfold insertUnique, has_key. destruct (m !! key x); [discriminate|].
  destruct (inherited (key x)); [discriminate|].
  intros H. bind_ok H. injection H as <-. eauto.
Qed.

(** A key named like a member of [Object.prototype] is never inserted. *)
Lemma insertUnique_Ok_key (x : A) (m m' : gmap string V) :
  insertUnique key err build x m = Ok m' -> inherited (key x) = false.
Proof.
  unfold insertUnique, has_key. destruct (m !! key x); [discriminate|].
  by destruct (inherited (key x)).
Qed.

Lemma insertUnique_loop_Ok (l : list A) (m m' : gmap string V) :
  for_of (insertUnique key err build) l m = Ok m' ->
  NoDup (key <$> l) /\
  (forall x, x ∈ l -> m !! key x = None /\
                      exists v, build x = Ok v /\ m' !! key x = Some v) /\
  (forall k, k ∉ key <$> l -> m' !! k = m !! k).
Proof.
  revert m. induction l as [|x l IH]; intros m; simpl.
  - intros [= <-]. split; [constructor|]. split; [|done].
    intros x Hx. by apply elem_of_nil in Hx.
  - intros H. bind_ok H. apply insertUnique_Ok in E as (Hfree & v & Hv & ->).
    destruct (IH _ H) as (Hnd & Hin & Hout).
    assert (Hfresh : key x ∉ key <$> l).
    { intros Hk. apply list_elem_of_fmap in Hk as (y & Hname & Hy).
      destruct (Hin _ Hy) as [Hnone _]. rewrite <- Hname in Hnone.
      by rewrite lookup_insert_eq in Hnone. }
    split; [by constructor|]. split.
    + intros y Hy. apply elem_of_cons in Hy as [->|Hy].
      * split; [done|]. exists v. split; [done|].
        rewrite (Hout _ Hfresh). by rewrite lookup_insert_eq.
      * destruct (Hin _ Hy) as (Hnone & w & Hw & Hm'). split; [|eauto].
        destruct (decide (key x = key y)) as [Heq|Hne].
        -- rewrite Heq in Hnone. by rewrite lookup_insert_eq in Hnone.
        -- by rewrite lookup_insert_ne in Hnone.
    + intros k Hk. apply not_elem_of_cons in Hk as [Hne Hk].
      rewrite (Hout _ Hk). by rewrite lookup_insert_ne.
Qed.

Lemma insertUnique_loop_Ok_keys (l : list A) (m m' : gmap string V) :
  for_of (insertUnique key err build) l m = Ok m' ->
  Forall (fun k => inherited k = false) (key <$> l).
Proof.
  revert m. induction l as [|x l IH]; intros m; simpl; [constructor|].
  intros H. bind_ok H. constructor; [by eapply insertUnique_Ok_key|by eapply IH].
Qed.

Lemma insertUnique_loop_intro (l : list A) (m : gmap string V) :
  namesAccepted (key <$> l) ->
  (forall x, x ∈ l -> m !! key x = None /\ is_Ok (build x)) ->
  is_Ok (for_of (insertUnique key err build) l m).
Proof.
  revert m. induction l as [|x l IH]; intros m [Hnd Hinh] Hall; simpl; [by eexists|].
  apply NoDup_cons in Hnd as [Hfresh Hnd]. apply Forall_cons in Hinh as [Hx Hinh].
  destruct (Hall x) as (Hnone & v & Hv); [apply elem_of_cons; by left|].
  unfold insertUnique at 1, has_key. rewrite Hnone, Hx, Hv. simpl.
  apply IH; [done|]. intros y Hy.
  destruct (Hall y) as [Hnone' Hok']; [apply elem_of_cons; by right|].
  split; [|done]. rewrite lookup_insert_ne; [done|].
  intros Heq. apply Hfresh. rewrite Heq. by apply list_elem_of_fmap_2.
Qed.

(** After a prefix that goes through, the loop fails at an element whose
    key is taken: by the map it started from, by an element of the prefix,
    or by [Object.prototype]. *)
Lemma insertUnique_loop_taken (l1 : list A) (x : A) (l2 : list A) (m : gmap string V) :
  is_Ok (for_of (insertUnique key err build) l1 m) ->
  is_Some (m !! key x) \/ key x ∈ key <$> l1 \/ inherited (key x) = true ->
  for_of (insertUnique key err build) (l1 ++ x :: l2) m = Raise (err x).
Proof.
  intros [m1 Hm1] Hx. rewrite for_of_app, Hm1. simpl.
  destruct (insertUnique_loop_Ok _ _ _ Hm1) as (_ & Hin & Hout).
  unfold insertUnique at 1, has_key.
  destruct (m1 !! key x) eqn:Hk; [done|].
  destruct (inherited (key x)) eqn:Hi; [done|]. exfalso.
  destruct (decide (key x ∈ key <$> l1)) as [Hl|Hnl].
  - apply list_elem_of_fmap in Hl as (y & Heq & Hy).
    destruct (Hin _ Hy) as (_ & v & _ & Hsome). rewrite Heq in Hk. congruence.
  - rewrite (Hout _ Hnl) in Hk.
    destruct Hx as [[v Hv]|[Hx|Hx]]; [congruence|done|done].
Qed.

(** The loop only adds: what the map held, it still holds. *)
Lemma insertUnique_loop_subseteq (l : list A) (m m' : gmap string V) :
  for_of (insertUnique key err build) l m = Ok m' -> m ⊆ m'.
Proof.
  intros H. destruct (insertUnique_loop_Ok _ _ _ H) as (_ & Hin & Hout).
  apply map_subseteq_spec. intros k v Hk.
  destruct (decide (k ∈ key <$> l)) as [Hi|Hni].
  - apply list_elem_of_fmap in Hi as (y & -> & Hy).
    destruct (Hin _ Hy) as (Hnone & _). congruence.
  - by rewrite (Hout _ Hni).
Qed.

Lemma insertUnique_loop_dom (l : list A) (m m' : gmap string V) :
  for_of (insertUnique key err build) l m = Ok m' ->
  dom m' = dom m ∪ list_to_set (key <$> l).
Proof.
  intros H. destruct (insertUnique_loop_Ok _ _ _ H) as (_ & Hin & Hout).
  apply set_eq. intros k. rewrite elem_of_union, !elem_of_dom, elem_of_list_to_set.
  destruct (decide (k ∈ key <$> l)) as [Hi|Hni].
  - split; [auto|]. intros _. apply list_elem_of_fmap in Hi as (y & -> & Hy).
    destruct (Hin _ Hy) as (_ & v & _ & Hv). by eexists.
  - rewrite (Hout _ Hni). tauto.
Qed.

End InsertUnique.

(** ** Directive applications *)

Lemma map_raising_Ok {X Y : Type} (f : X -> Result Y) (l : list X) (r : list Y) :
  map_raising f l = Ok r -> Forall2 (fun x y => f x = Ok y) l r.
Proof.
  revert r. induction l as [|x l IH]; intros r; simpl.
  - intros [= <-]. constructor.
  - intros H. bind_ok H. bind_ok H. injection H as <-. constructor; auto.
Qed.

Lemma map_raising_is_Ok {X Y : Type} (f : X -> Result Y) (l : list X) :
  is_Ok (map_raising f l) <-> Forall (fun x => is_Ok (f x)) l.
Proof.
  induction l as [|x l IH]; simpl.
  - split; [constructor|by eexists].
  - rewrite Forall_cons, <- IH. split.
    + intros [r H]. bind_ok H. bind_ok H. split; by eexists.
    + intros [[y Hy] [ys Hys]]. rewrite Hy. simpl. rewrite Hys. simpl. by eexists.
Qed.

Lemma directive_loop (d : ParserDirective) on :
  directive d on
  = let! args :=
      for_of (insertUnique parg_name
                (fun a => {| message := "Multiple argument " +:+ parg_name a
                                        +:+ " on directive " +:+ pdir_name d
                                        +:+ " on " +:+ on |})
                (fun a => Ok {| arg_name := parg_name a; arg_value := parg_value a |}))
             (default [] (pdir_arguments d)) ∅ in
    Ok {| dir_name := pdir_name d; dir_arguments := args |}.
Proof. reflexivity. Qed.


Lemma directive_is_Ok (d : ParserDirective) on :
  is_Ok (directive d on) <-> namesAccepted (parg_name <$> default [] (pdir_arguments d)).
Proof.
  rewrite directive_loop. split.
  - intros [r H]. bind_ok H. split.
    + by apply insertUnique_loop_Ok in E as [Hnd _].
    + by eapply insertUnique_loop_Ok_keys.
  - intros Hacc.
    destruct (insertUnique_loop_intro parg_name
                (fun a => {| message := "Multiple argument " +:+ parg_name a
                                        +:+ " on directive " +:+ pdir_name d
                                        +:+ " on " +:+ on |})
                (fun a => Ok {| arg_name := parg_name a; arg_value := parg_value a |})
                (default [] (pdir_arguments d)) ∅ Hacc) as [m Hm].
    + intros x _. split; [apply lookup_empty|by eexists].
    + rewrite Hm. simpl. by eexists.
Qed.

Lemma directive_Ok_stored (d : ParserDirective) on r :
  directive d on = Ok r -> directiveStored d r.
Proof.
  intros H. rewrite directive_loop in H. bind_ok H. injection H as <-.
  unfold directiveStored. simpl. split; [done|].
  pose proof (insertUnique_loop_dom _ _ _ _ _ _ E) as Hdom.
  destruct (insertUnique_loop_Ok _ _ _ _ _ _ E) as (_ & Hin & _).
  split.
  - rewrite Hdom, dom_empty_L. apply (left_id_L ∅ (∪)).
  - intros a Ha. destruct (Hin _ Ha) as (_ & v & [= <-] & Hv). done.
Qed.

(** Why an application is rejected: one of its arguments has a name that an
    earlier argument has, or that every object inherits. *)
Lemma directive_Raise_inv (d : ParserDirective) on err :
  directive d on = Raise err ->
  exists l1 a l2,
    default [] (pdir_arguments d) = l1 ++ a :: l2 /\
    (parg_name a ∈ parg_name <$> l1 \/ inherited (parg_name a) = true) /\
    err = {| message := "Multiple argument " +:+ parg_name a +:+ " on directive "
                        +:+ pdir_name d +:+ " on " +:+ on |}.
Proof.
  rewrite directive_loop. intros H.
  apply bind_Raise_inv in H as [H|(m & _ & H)]; [|discriminate].
  apply for_of_Raise_inv in H as (l1 & a & l2 & m1 & Hl & H1 & Ha).
  exists l1, a, l2. split; [done|].
  destruct (insertUnique_loop_Ok _ _ _ _ _ _ H1) as (_ & _ & Hout).
  unfold insertUnique, has_key in Ha. simpl in Ha.
  destruct (m1 !! parg_name a) as [v|] eqn:Hm1.
  - injection Ha as <-. split; [|done]. left.
    destruct (decide (parg_name a ∈ parg_name <$> l1)) as [Hin|Hnin]; [done|].
    rewrite (Hout _ Hnin), lookup_empty in Hm1. discriminate.
  - destruct (inherited (parg_name a)) eqn:Hi; [|discriminate].
    injection Ha as <-. split; [by right|done].
Qed.

Lemma directives_stored (ds : option (list ParserDirective)) on r :
  directives ds on = Ok r -> Forall2 directiveStored (default [] ds) r.
Proof.
  unfold directives. intros H. apply map_raising_Ok in H.
  eapply Forall2_impl; [exact H|]. intros d x Hd. simpl in Hd.
  exact (directive_Ok_stored _ _ _ Hd).
Qed.

Lemma directives_is_Ok (ds : option (list ParserDirective)) on :
  is_Ok (directives ds on)
  <-> Forall (fun d => namesAccepted (parg_name <$> default [] (pdir_arguments d)))
             (default [] ds).
Proof.
  unfold directives. rewrite map_raising_is_Ok. apply Forall_iff. intros d.
  apply directive_is_Ok.
Qed.

(** X1.  [directive] accepts an application exactly when its argument names
    are pairwise distinct and none of them is a member of
    [Object.prototype].  It then keeps the name and stores every argument
    under its own name with its value.  With the arguments before it
    accepted, an argument whose name was already used, or is inherited,
    fails with "Multiple argument <arg> on directive <name> on <on>"; and
    there is no other failure. *)
Theorem directive_arguments (d : ParserDirective) (on : string) :
  (is_Ok (directive d on)
   <-> namesAccepted (parg_name <$> default [] (pdir_arguments d))) /\
  (forall r, directive d on = Ok r ->
     dir_name r = pdir_name d /\
     dom (dir_arguments r) = list_to_set (parg_name <$> default [] (pdir_arguments d)) /\
     forall a, a ∈ default [] (pdir_arguments d) ->
               dir_arguments r !! parg_name a
               = Some {| arg_name := parg_name a; arg_value := parg_value a |}) /\
  (forall l1 a l2,
     default [] (pdir_arguments d) = l1 ++ a :: l2 ->
     namesAccepted (parg_name <$> l1) ->
     parg_name a ∈ parg_name <$> l1 \/ inherited (parg_name a) = true ->
     directive d on
     = Raise {| message := "Multiple argument " +:+ parg_name a +:+ " on directive "
                           +:+ pdir_name d +:+ " on " +:+ on |}) /\
  (forall err, directive d on = Raise err ->
     exists l1 a l2,
       default [] (pdir_arguments d) = l1 ++ a :: l2 /\
       (parg_name a ∈ parg_name <$> l1 \/ inherited (parg_name a) = true) /\
       err = {| message := "Multiple argument " +:+ parg_name a +:+ " on directive "
                           +:+ pdir_name d +:+ " on " +:+ on |}).
Proof.
  split; [apply directive_is_Ok|]. split; [|split].
  - intros r H. exact (directive_Ok_stored _ _ _ H).
  - intros l1 a l2 Hl Hacc Ha. rewrite directive_loop, Hl.
    rewrite insertUnique_loop_taken; [done| |by right].
    apply insertUnique_loop_intro; [done|].
    intros y _. split; [apply lookup_empty|by eexists].
  - apply directive_Raise_inv.
Qed.

(** X2.  [directives] succeeds exactly when every application is accepted:
    argument names pairwise distinct, none of them inherited.  It then keeps
    one directive per application, in the order of the source, each with
    the name and the arguments of its application; names may repeat. *)
Theorem directives_in_order (ds : option (list ParserDirective)) (on : string) :
  (is_Ok (directives ds on)
   <-> Forall (fun d => namesAccepted (parg_name <$> default [] (pdir_arguments d)))
              (default [] ds)) /\
  (forall r, directives ds on = Ok r ->
             length r = length (default [] ds) /\
             dir_name <$> r = pdir_name <$> default [] ds /\
             Forall2 directiveStored (default [] ds) r).
Proof.
  split; [apply directives_is_Ok|].
  intros r H. pose proof (directives_stored _ _ _ H) as Hst.
  split; [symmetry; by eapply Forall2_length|]. split; [|done].
  clear H. induction Hst as [|d x l r' [Hd _] _ IH]; [done|].
  rewrite !fmap_cons. by f_equal.
Qed.

(** ** A SchemaExtension before the SchemaDefinition *)


(** ** Argument definitions and fields *)

Lemma inputValuesDefinition_loop (l : option (list ParserInputValueDefinition)) on :
  inputValuesDefinition l on
  = for_of (insertUnique piv_name
              (fun a => {| message := "Multiple argument " +:+ piv_name a
                                      +:+ " on " +:+ on |})
              (fun a => inputValueDefinition a ("argument on " +:+ on)))
           (default [] l) ∅.
Proof. reflexivity. Qed.

Lemma inputValueDefinition_Ok (a : ParserInputValueDefinition) on v :
  inputValueDefinition a on = Ok v ->
  iv_name v = piv_name a /\ iv_description v = piv_description a /\
  iv_type v = piv_type a /\ iv_defaultValue v = piv_defaultValue a /\
  directives (piv_directives a) on = Ok (iv_directives v).
Proof.
  unfold inputValueDefinition. intros H. bind_ok H. by injection H as <-.
Qed.

Lemma inputValueDefinition_is_Ok (a : ParserInputValueDefinition) on :
  is_Ok (inputValueDefinition a on) <-> is_Ok (directives (piv_directives a) on).
Proof.
  unfold inputValueDefinition. split.
  - intros [v H]. bind_ok H. by eexists.
  - intros [ds H]. rewrite H. simpl. by eexists.
Qed.

(** X3.  [inputValuesDefinition] accepts a list of argument definitions
    exactly when their names are pairwise distinct, none of them is a member
    of [Object.prototype], and the directives of each are accepted.  The
    result is keyed by exactly those names, and each entry carries the name,
    description, type and default value of its definition untouched.  With
    the definitions before it accepted, one whose name was already used, or
    is inherited, fails with "Multiple argument <name> on <on>". *)
Theorem inputValuesDefinition_keyed (l : option (list ParserInputValueDefinition))
    (on : string) :
  (is_Ok (inputValuesDefinition l on)
   <-> namesAccepted (piv_name <$> default [] l) /\
       Forall (fun a => is_Ok (directives (piv_directives a) ("argument on " +:+ on)))
              (default [] l)) /\
  (forall r, inputValuesDefinition l on = Ok r ->
     dom r = list_to_set (piv_name <$> default [] l) /\
     forall a, a ∈ default [] l ->
       exists v, r !! piv_name a = Some v /\
                 iv_name v = piv_name a /\ iv_description v = piv_description a /\
                 iv_type v = piv_type a /\ iv_defaultValue v = piv_defaultValue a) /\
  (forall l1 a l2,
     default [] l = l1 ++ a :: l2 ->
     is_Ok (inputValuesDefinition (Some l1) on) ->
     piv_name a ∈ piv_name <$> l1 \/ inherited (piv_name a) = true ->
     inputValuesDefinition l on
     = Raise {| message := "Multiple argument " +:+ piv_name a +:+ " on " +:+ on |}).
Proof.
  rewrite !inputValuesDefinition_loop. split; [|split].
  - split.
    + intros [r H]. destruct (insertUnique_loop_Ok _ _ _ _ _ _ H) as (Hnd & Hin & _).
      split; [split; [done|by eapply insertUnique_loop_Ok_keys]|].
      apply Forall_forall. intros a Ha.
      destruct (Hin _ Ha) as (_ & v & Hv & _).
      apply inputValueDefinition_is_Ok. by eexists.
    + intros [Hnd Hall]. apply insertUnique_loop_intro; [done|].
      intros a Ha. split; [apply lookup_empty|].
      apply inputValueDefinition_is_Ok. by apply (proj1 (Forall_forall _ _) Hall).
  - intros r H.
    pose proof (insertUnique_loop_dom _ _ _ _ _ _ H) as Hdom.
    destruct (insertUnique_loop_Ok _ _ _ _ _ _ H) as (_ & Hin & _).
    split.
    + rewrite Hdom, dom_empty_L. apply (left_id_L ∅ (∪)).
    + intros a Ha. destruct (Hin _ Ha) as (_ & v & Hv & Hr).
      apply inputValueDefinition_Ok in Hv as (? & ? & ? & ? & _). eauto 10.
  - intros l1 a l2 Hl Hok Ha. rewrite Hl. rewrite inputValuesDefinition_loop in Hok.
    simpl in Hok. rewrite insertUnique_loop_taken; [done|done|by right].
Qed.

Lemma fieldsDefinition_loop (l : list ParserFieldDefinition) on :
  fieldsDefinition l on
  = for_of (insertUnique pfd_name
              (fun _ => {| message := "Multiple field definition on " +:+ on |})
              (fun fd => fieldDefinition fd ("field " +:+ pfd_name fd +:+ " on " +:+ on)))
           l ∅.
Proof. reflexivity. Qed.

Lemma fieldDefinition_Ok (fd : ParserFieldDefinition) on f :
  fieldDefinition fd on = Ok f ->
  fd_name f = pfd_name fd /\ fd_description f = pfd_description fd /\
  fd_type f = pfd_type fd /\
  inputValuesDefinition (pfd_argumentsDefinition fd) on = Ok (fd_argumentsDefinition f) /\
  directives (pfd_directives fd) on = Ok (fd_directives f).
Proof.
  unfold fieldDefinition. intros H. bind_ok H. bind_ok H. by injection H as <-.
Qed.

(** X4.  [fieldsDefinition] accepts a list of fields only if their names
    are pairwise distinct.  The result is keyed by exactly those names, and
    the field stored under a name has that name and the description and
    type node of its definition; with the fields before it well formed, a
    repeated name fails with "Multiple field definition on <on>". *)
Theorem fieldsDefinition_keyed (l : list ParserFieldDefinition) (on : string) :
  (forall r, fieldsDefinition l on = Ok r ->
     NoDup (pfd_name <$> l) /\
     dom r = list_to_set (pfd_name <$> l) /\
     forall fd, fd ∈ l ->
       exists f, r !! pfd_name fd = Some f /\
                 fd_name f = pfd_name fd /\ fd_description f = pfd_description fd /\
                 fd_type f = pfd_type fd) /\
  (forall l1 fd l2,
     l = l1 ++ fd :: l2 ->
     is_Ok (fieldsDefinition l1 on) ->
     pfd_name fd ∈ pfd_name <$> l1 ->
     fieldsDefinition l on
     = Raise {| message := "Multiple field definition on " +:+ on |}).
Proof.
  rewrite !fieldsDefinition_loop. split.
  - intros r H.
    pose proof (insertUnique_loop_dom _ _ _ _ _ _ H) as Hdom.
    destruct (insertUnique_loop_Ok _ _ _ _ _ _ H) as (Hnd & Hin & _).
    split; [done|]. split.
    + rewrite Hdom, dom_empty_L. apply (left_id_L ∅ (∪)).
    + intros fd Hfd. destruct (Hin _ Hfd) as (_ & f & Hf & Hr).
      apply fieldDefinition_Ok in Hf as (? & ? & ? & _). eauto 10.
  - intros l1 fd l2 -> Hok Hfd. rewrite fieldsDefinition_loop in Hok.
    rewrite (insertUnique_loop_taken pfd_name
               (fun _ => {| message := "Multiple field definition on " +:+ on |}));
      [done|done|right; by left].
Qed.

(** ** Stored definitions only grow *)

Lemma for_of_ext {X S : Type} (f g : X -> S -> Result S) (l : list X) (s : S) :
  (forall x s', f x s' = g x s') -> for_of f l s = for_of g l s.
Proof.
  intros Hfg. revert s. induction l as [|x l IH]; intros s; simpl; [done|].
  rewrite Hfg. destruct (g x s); simpl; auto.
Qed.

Lemma addField_loop (e : TypeExtension) (l : list ParserFieldDefinition) m :
  for_of (addField e) l m
  = for_of (insertUnique pfd_name (fun _ => duplicateField e)
              (fun fd => fieldDefinition fd (fieldLabel e fd))) l m.
Proof. reflexivity. Qed.

Lemma addEnumValue_loop name what (l : list ParserEnumValueDefinition) m :
  for_of (addEnumValue name what) l m
  = for_of (insertUnique pev_enumValue
              (fun x => {| message := "Duplicate enum value " +:+ pev_enumValue x
                                      +:+ " on " +:+ name +:+ " " +:+ what |})
              (fun x => let! ds := directives (pev_directives x)
                                     ("type " +:+ name +:+ " " +:+ what) in
                        Ok {| ev_name := pev_enumValue x;
                              ev_description := pev_description x;
                              ev_directives := ds |})) l m.
Proof.
  apply for_of_ext. intros x m'. unfold addEnumValue, insertUnique.
  destruct (has_key m' (pev_enumValue x)); [done|].
  by destruct (directives _ _).
Qed.

Lemma extendsBase_refl (b : TypeDefinitionBase) : extendsBase b b.
Proof. by repeat split. Qed.

Lemma extendsBase_push (b : TypeDefinitionBase) ds : extendsBase b (push_directives b ds).
Proof. repeat split. simpl. by apply prefix_app_r. Qed.

Lemma extendsDefinition_refl (t : TypeDefinition) : extendsDefinition t t.
Proof. split; [apply extendsBase_refl|]. by destruct t. Qed.

Lemma extendsDefinition_trans (t1 t2 t3 : TypeDefinition) :
  extendsDefinition t1 t2 -> extendsDefinition t2 t3 -> extendsDefinition t1 t3.
Proof.
  intros [(Hn & Hd & Hp) H12] [(Hn' & Hd' & Hp') H23]. split.
  - repeat split; [congruence|congruence|by etrans].
  - destruct t1, t2, t3; simpl in *; try done;
      repeat match goal with H : _ /\ _ |- _ => destruct H end;
      repeat split; by etrans.
Qed.

Lemma typeExtension_extends (e : TypeExtension) ctx ctx' :
  typeExtension e ctx = Ok ctx' ->
  exists t0 t, typeDefinitions ctx !! te_name e = Some t0 /\
               ctx' = setTypeDefinition (te_name e) t ctx /\
               extendsDefinition t0 t.
Proof.
  unfold typeExtension.
  destruct (typeDefinitions ctx !! te_name e) as [t0|] eqn:Hd;
    [|destruct (inherited (te_name e)); discriminate].
  intros H. bind_ok H. injection H as <-. exists t0, x. split; [done|]. split; [done|].
  destruct (te_body e), t0; simpl in E; try discriminate;
    repeat bind_ok E; injection E as <-;
    (split; [apply extendsBase_push|]); simpl; try done.
  - apply noDuplicate_Ok_inv in E0 as [_ ->]. split; [by apply prefix_app_r|].
    rewrite addField_loop in E1. by eapply insertUnique_loop_subseteq.
  - apply noDuplicate_Ok_inv in E0 as [_ ->]. split; [by apply prefix_app_r|].
    rewrite addField_loop in E1. by eapply insertUnique_loop_subseteq.
  - apply noDuplicate_Ok_inv in E1 as [_ ->]. by apply prefix_app_r.
  - rewrite addEnumValue_loop in E0. by eapply insertUnique_loop_subseteq.
  - exact (insertUnique_loop_subseteq piv_name
             (fun a => {| message := "Multiple argument " +:+ piv_name a +:+ " on type "
                                     +:+ te_name e +:+ " extension" |})
             (fun a => inputValueDefinition a
                         ("argument on type " +:+ te_name e +:+ " extension"))
             _ _ _ E0).
Qed.

Lemma schemaStep_only_grows (d : DefinitionNode) ctx ctx' :
  schemaStep d ctx = Ok ctx' ->
  directiveDefinitions ctx ⊆ directiveDefinitions ctx' /\
  schemaDirectives ctx `prefix_of` schemaDirectives ctx' /\
  (forall n t, typeDefinitions ctx !! n = Some t ->
               exists t', typeDefinitions ctx' !! n = Some t' /\ extendsDefinition t t').
Proof.
  intros H. destruct d as [[[d|d|d]|[e|e]]|x]; simpl in H; try discriminate.
  - unfold schemaDefinition in H. destruct (rootOperationTypes ctx); [discriminate|].
    repeat bind_ok H. injection H as <-. simpl.
    split; [done|]. split; [by apply prefix_app_r|].
    intros n t Ht. exists t. split; [done|apply extendsDefinition_refl].
  - unfold directiveDefinition, has_key in H.
    destruct (directiveDefinitions ctx !! pdd_name d) eqn:Hd; [discriminate|].
    destruct (inherited (pdd_name d)); [discriminate|].
    repeat bind_ok H. injection H as <-. simpl.
    split; [by apply insert_subseteq|]. split; [done|].
    intros n t Ht. exists t. split; [done|apply extendsDefinition_refl].
  - apply typeDefinition_Ok in H as (Hn & t' & -> & _). simpl.
    split; [done|]. split; [done|].
    intros n t Ht. exists t. split; [|apply extendsDefinition_refl].
    rewrite lookup_insert_ne; [done|]. intros Heq. rewrite Heq in Hn. congruence.
  - unfold schemaExtension in H. repeat bind_ok H. injection H as <-. simpl.
    split; [done|]. split; [by apply prefix_app_r|].
    intros n t Ht. exists t. split; [done|apply extendsDefinition_refl].
  - apply typeExtension_extends in H as (t0 & t' & H0 & -> & Hext). simpl.
    split; [done|]. split; [done|].
    intros n t Ht. destruct (decide (te_name e = n)) as [Heq|Hne].
    + rewrite Heq in *. rewrite lookup_insert_eq. exists t'. split; [done|]. congruence.
    + rewrite lookup_insert_ne by done. exists t. split; [done|apply extendsDefinition_refl].
Qed.

Lemma for_of_schemaStep_grows document ctx ctx' :
  for_of schemaStep document ctx = Ok ctx' ->
  directiveDefinitions ctx ⊆ directiveDefinitions ctx' /\
  schemaDirectives ctx `prefix_of` schemaDirectives ctx' /\
  (forall n t, typeDefinitions ctx !! n = Some t ->
               exists t', typeDefinitions ctx' !! n = Some t' /\ extendsDefinition t t').
Proof.
  revert ctx. induction document as [|x l IH]; intros ctx; simpl.
  - intros [= <-]. split; [done|]. split; [done|].
    intros n t Ht. exists t. split; [done|apply extendsDefinition_refl].
  - intros H. bind_ok H.
    destruct (schemaStep_only_grows _ _ _ E) as (Hd1 & Hs1 & Ht1).
    destruct (IH _ H) as (Hd2 & Hs2 & Ht2).
    split; [by etrans|]. split; [by etrans|].
    intros n t Ht. destruct (Ht1 _ _ Ht) as (t1 & Hl1 & He1).
    destruct (Ht2 _ _ Hl1) as (t2 & Hl2 & He2).
    exists t2. split; [done|]. by eapply extendsDefinition_trans.
Qed.

(** X5.  The traversal only adds to the context.  From any context, after
    any entries that pass: a directive definition is still there, unchanged;
    the schema directives collected so far are a prefix of the new ones; and
    a stored type definition is still stored under its name, with the same
    name, description and kind, its directives, interfaces and union members
    extended at the end and its fields, enum values and input fields kept
    as they were. *)
Theorem schema_only_grows document ctx ctx' :
  for_of schemaStep document ctx = Ok ctx' ->
  directiveDefinitions ctx ⊆ directiveDefinitions ctx' /\
  schemaDirectives ctx `prefix_of` schemaDirectives ctx' /\
  (forall n t, typeDefinitions ctx !! n = Some t ->
               exists t', typeDefinitions ctx' !! n = Some t' /\ extendsDefinition t t').
Proof. apply for_of_schemaStep_grows. Qed.

(** ** The names a schema declares *)

Lemma extendsDefinition_td_type (t t' : TypeDefinition) :
  extendsDefinition t t' -> td_type t' = td_type t.
Proof. intros [_ H]. by destruct t, t'. Qed.

Lemma definitionBase_Ok (d : ParserTypeDefinition) base :
  definitionBase d = Ok base ->
  td_name base = ptd_name d /\ td_description base = ptd_description d.
Proof. unfold definitionBase. intros H. bind_ok H. by injection H as <-. Qed.

Lemma typeDefinition_Ok_base (d : ParserTypeDefinition) ctx ctx' :
  typeDefinition d ctx = Ok ctx' ->
  exists t, ctx' = setTypeDefinition (ptd_name d) t ctx /\
            td_type t = typeType (ptd_body d) /\
            td_name (td_base t) = ptd_name d /\
            td_description (td_base t) = ptd_description d.
Proof.
  unfold typeDefinition. destruct (has_key _ _); [discriminate|]. intros H.
  destruct (ptd_body d); simpl in H;
    [ unfold scalarTypeDefinition in H
    | unfold objectTypeDefinition in H
    | unfold interfaceTypeDefinition in H
    | unfold unionTypeDefinition in H
    | unfold enumTypeDefinition in H
    | unfold inputObjectTypeDefinition in H ];
    repeat bind_ok H; injection H as <-;
    match goal with E : definitionBase d = Ok _ |- _ =>
      apply definitionBase_Ok in E as [? ?] end;
    eexists; repeat split; done.
Qed.

Lemma schemaStep_typeDefinitions_dom (x : DefinitionNode) ctx ctx' :
  schemaStep x ctx = Ok ctx' ->
  match typeDefinitionName x with
  | Some n => typeDefinitions ctx !! n = None /\
              dom (typeDefinitions ctx') = {[n]} ∪ dom (typeDefinitions ctx)
  | None => dom (typeDefinitions ctx') = dom (typeDefinitions ctx)
  end.
Proof.
  intros H. destruct x as [[[d|d|d]|[e|e]]|x]; simpl in *; try discriminate.
  - apply schemaDefinition_Ok in H as (_ & -> & _). done.
  - apply directiveDefinition_Ok in H as [_ ->]. done.
  - apply typeDefinition_Ok in H as (Hn & t & -> & _). simpl.
    split; [done|]. apply dom_insert_L.
  - apply schemaExtension_Ok in H as (-> & _). done.
  - apply typeExtension_Ok in H as (t0 & t & H0 & -> & _). simpl.
    rewrite dom_insert_L. apply subseteq_union_1_L, singleton_subseteq_l.
    apply elem_of_dom. by eexists.
Qed.

Lemma for_of_schemaStep_typeDefinitions_dom document ctx ctx' :
  for_of schemaStep document ctx = Ok ctx' ->
  NoDup (omap typeDefinitionName document) /\
  (forall n, n ∈ omap typeDefinitionName document -> typeDefinitions ctx !! n = None) /\
  dom (typeDefinitions ctx')
  = dom (typeDefinitions ctx) ∪ list_to_set (omap typeDefinitionName document).
Proof.
  revert ctx. induction document as [|x l IH]; intros ctx; simpl.
  - intros [= <-]. split; [constructor|]. split.
    + intros n Hn. by apply elem_of_nil in Hn.
    + by rewrite (right_id_L ∅ (∪)).
  - intros H. bind_ok H.
    pose proof (schemaStep_typeDefinitions_dom _ _ _ E) as Hx.
    destruct (IH _ H) as (Hnd & Hfresh & Hdom).
    destruct (typeDefinitionName x) as [n|]; simpl.
    + destruct Hx as [Hn Hx]. rewrite Hx in Hdom.
      assert (Hnl : n ∉ omap typeDefinitionName l).
      { intros Hin. specialize (Hfresh _ Hin). apply not_elem_of_dom in Hfresh.
        apply Hfresh. rewrite Hx. apply elem_of_union_l, elem_of_singleton. done. }
      split; [by constructor|]. split.
      * intros n' Hn'. apply elem_of_cons in Hn' as [->|Hn']; [done|].
        specialize (Hfresh _ Hn'). apply not_elem_of_dom in Hfresh.
        apply not_elem_of_dom. intros Hd. apply Hfresh. rewrite Hx.
        by apply elem_of_union_r.
      * rewrite Hdom. change (list_to_set (n :: omap typeDefinitionName l))
          with ({[n]} ∪ list_to_set (omap typeDefinitionName l) : gset string).
        apply set_eq. intros k. rewrite !elem_of_union. tauto.
    + split; [done|]. split.
      * intros n' Hn'. specialize (Hfresh _ Hn'). apply not_elem_of_dom in Hfresh.
        apply not_elem_of_dom. by rewrite <- Hx.
      * by rewrite Hdom, Hx.
Qed.

(** X6.  On success, the type names of the schema are exactly the names of
    the document's TypeDefinition entries, which are pairwise distinct; and
    the definition stored for an entry has the entry's name, description and
    kind, whatever extensions follow. *)
Theorem typeDefinitions_of_document document s :
  analyzeSchema document = inl s ->
  NoDup (omap typeDefinitionName document) /\
  dom (s_typeDefinitions s) = list_to_set (omap typeDefinitionName document) /\
  forall d, typeDefinitionNode d ∈ document ->
    exists t, s_typeDefinitions s !! ptd_name d = Some t /\
              td_type t = typeType (ptd_body d) /\
              td_name (td_base t) = ptd_name d /\
              td_description (td_base t) = ptd_description d.
Proof.
  intros Hs. apply analyzeSchema_inl_inv in Hs as (ctx & Hctx & ->). simpl.
  destruct (for_of_schemaStep_typeDefinitions_dom _ _ _ Hctx) as (Hnd & _ & Hdom).
  split; [done|]. split.
  - rewrite Hdom. simpl. rewrite dom_empty_L. apply (left_id_L ∅ (∪)).
  - intros d Hd. apply list_elem_of_split in Hd as (l1 & l2 & ->).
    rewrite for_of_app in Hctx. bind_ok Hctx. simpl in Hctx. bind_ok Hctx.
    apply typeDefinition_Ok_base in E0 as (t & -> & Hk & Hn & Hdesc).
    destruct (for_of_schemaStep_grows _ _ _ Hctx) as (_ & _ & Hgrow).
    destruct (Hgrow (ptd_name d) t) as (t' & Ht' & Hext);
      [simpl; by rewrite lookup_insert_eq|].
    exists t'. split; [done|].
    rewrite (extendsDefinition_td_type _ _ Hext).
    destruct Hext as [(Hn' & Hd' & _) _]. repeat split; congruence.
Qed.

(** ** Every map is keyed by the names of its entries *)

Lemma insertUnique_loop_keyed {X V : Type} (P : string -> V -> Prop)
    (key : X -> string) (err : X -> Error) (build : X -> Result V)
    (l : list X) (m m' : gmap string V) :
  (forall x v, build x = Ok v -> P (key x) v) ->
  (forall k v, m !! k = Some v -> P k v) ->
  for_of (insertUnique key err build) l m = Ok m' ->
  forall k v, m' !! k = Some v -> P k v.
Proof.
  intros Hbuild Hm H k v Hk.
  destruct (insertUnique_loop_Ok _ _ _ _ _ _ H) as (_ & Hin & Hout).
  destruct (decide (k ∈ key <$> l)) as [Hi|Hni].
  - apply list_elem_of_fmap in Hi as (y & -> & Hy).
    destruct (Hin _ Hy) as (_ & w & Hw & Hsome).
    rewrite Hsome in Hk. injection Hk as <-. by apply Hbuild.
  - rewrite (Hout _ Hni) in Hk. by apply Hm.
Qed.

Lemma inputValuesDefinition_argumentsKeyed
    (l : option (list ParserInputValueDefinition)) on r :
  inputValuesDefinition l on = Ok r -> argumentsKeyed r.
Proof.
  rewrite inputValuesDefinition_loop. intros H k v.
  eapply (insertUnique_loop_keyed (fun k v => iv_name v = k)); [| |exact H].
  - intros x w Hw. by apply inputValueDefinition_Ok in Hw as [? _].
  - intros k' v' Hk'. by rewrite lookup_empty in Hk'.
Qed.

Lemma fieldDefinition_keyed (fd : ParserFieldDefinition) on f :
  fieldDefinition fd on = Ok f ->
  fd_name f = pfd_name fd /\ argumentsKeyed (fd_argumentsDefinition f).
Proof.
  intros H. apply fieldDefinition_Ok in H as (Hn & _ & _ & Hargs & _).
  split; [done|]. by eapply inputValuesDefinition_argumentsKeyed.
Qed.

Lemma fieldsDefinition_fieldsKeyed (l : list ParserFieldDefinition) on r :
  fieldsDefinition l on = Ok r -> fieldsKeyed r.
Proof.
  rewrite fieldsDefinition_loop. intros H k v.
  eapply (insertUnique_loop_keyed
            (fun k f => fd_name f = k /\ argumentsKeyed (fd_argumentsDefinition f)));
    [| |exact H].
  - intros x w Hw. exact (fieldDefinition_keyed _ _ _ Hw).
  - intros k' v' Hk'. by rewrite lookup_empty in Hk'.
Qed.

Lemma addFields_fieldsKeyed (e : TypeExtension) (l : list ParserFieldDefinition) m m' :
  fieldsKeyed m -> for_of (addField e) l m = Ok m' -> fieldsKeyed m'.
Proof.
  rewrite addField_loop. intros Hm H k v.
  eapply (insertUnique_loop_keyed
            (fun k f => fd_name f = k /\ argumentsKeyed (fd_argumentsDefinition f)));
    [| |exact H].
  - intros x w Hw. exact (fieldDefinition_keyed _ _ _ Hw).
  - exact Hm.
Qed.

Lemma addEnumValues_keyed name what (l : list ParserEnumValueDefinition) m m' :
  (forall k x, m !! k = Some x -> ev_name x = k) ->
  for_of (addEnumValue name what) l m = Ok m' ->
  forall k x, m' !! k = Some x -> ev_name x = k.
Proof.
  rewrite addEnumValue_loop. intros Hm H.
  eapply (insertUnique_loop_keyed (fun k x => ev_name x = k)); [| |exact H].
  - intros x w Hw. bind_ok Hw. by injection Hw as <-.
  - exact Hm.
Qed.

Lemma typeDefinition_keyed (d : ParserTypeDefinition) ctx ctx' :
  typeDefinition d ctx = Ok ctx' ->
  exists t, ctx' = setTypeDefinition (ptd_name d) t ctx /\
            td_name (td_base t) = ptd_name d /\ definitionKeyed t.
Proof.
  unfold typeDefinition. destruct (has_key _ _); [discriminate|]. intros H.
  destruct (ptd_body d) as [|i f|i f|m|v|f]; simpl in H;
    [ unfold scalarTypeDefinition in H
    | unfold objectTypeDefinition in H
    | unfold interfaceTypeDefinition in H
    | unfold unionTypeDefinition in H
    | unfold enumTypeDefinition in H
    | unfold inputObjectTypeDefinition in H ];
    repeat bind_ok H; injection H as <-;
    match goal with E : definitionBase d = Ok _ |- _ =>
      apply definitionBase_Ok in E as [? ?] end;
    eexists; (split; [reflexivity|]); (split; [done|]); simpl; try done.
  - destruct f; [by eapply fieldsDefinition_fieldsKeyed|].
    injection E1 as <-. intros k' y' Hk'. by rewrite lookup_empty in Hk'.
  - destruct f; [by eapply fieldsDefinition_fieldsKeyed|].
    injection E1 as <-. intros k' y' Hk'. by rewrite lookup_empty in Hk'.
  - eapply addEnumValues_keyed; [|exact E]. intros k' y' Hk'. by rewrite lookup_empty in Hk'.
  - by eapply inputValuesDefinition_argumentsKeyed.
Qed.

Lemma typeExtension_keyed (e : TypeExtension) ctx ctx' :
  typeExtension e ctx = Ok ctx' ->
  exists t0 t, typeDefinitions ctx !! te_name e = Some t0 /\
               ctx' = setTypeDefinition (te_name e) t ctx /\
               td_name (td_base t) = td_name (td_base t0) /\
               (definitionKeyed t0 -> definitionKeyed t).
Proof.
  intros H. pose proof H as H'.
  apply typeExtension_extends in H' as (t0 & t & Ht0 & -> & [(Hn & _) _]).
  exists t0, t. split; [done|]. split; [done|]. split; [done|].
  unfold typeExtension in H. rewrite Ht0 in H. bind_ok H.
  injection H as H.
  assert (x = t) as ->.
  { apply (f_equal (fun m => m !! te_name e)) in H.
    rewrite !lookup_insert_eq in H. congruence. }
  clear H. intros Hk.
  destruct (te_body e), t0; simpl in E; try discriminate;
    repeat bind_ok E; injection E as <-; simpl in *; try done.
  - by eapply addFields_fieldsKeyed.
  - by eapply addFields_fieldsKeyed.
  - by eapply addEnumValues_keyed.
  - intros k v.
    eapply (insertUnique_loop_keyed (fun k v => iv_name v = k) piv_name
              (fun a => {| message := "Multiple argument " +:+ piv_name a +:+ " on type "
                                      +:+ te_name e +:+ " extension" |})
              (fun a => inputValueDefinition a
                          ("argument on type " +:+ te_name e +:+ " extension")));
      [| |exact E0].
    + intros y w Hw. by apply inputValueDefinition_Ok in Hw as [? _].
    + exact Hk.
Qed.

Lemma schemaStep_keyed (x : DefinitionNode) ctx ctx' :
  typeDefinitionsKeyed (typeDefinitions ctx) /\
  directiveDefinitionsKeyed (directiveDefinitions ctx) ->
  schemaStep x ctx = Ok ctx' ->
  typeDefinitionsKeyed (typeDefinitions ctx') /\
  directiveDefinitionsKeyed (directiveDefinitions ctx').
Proof.
  intros [Ht Hd] H. destruct x as [[[d|d|d]|[e|e]]|x]; simpl in H; try discriminate.
  - unfold schemaDefinition in H. destruct (rootOperationTypes ctx); [discriminate|].
    repeat bind_ok H. by injection H as <-.
  - unfold directiveDefinition in H. destruct (has_key _ _); [discriminate|].
    repeat bind_ok H. injection H as <-. simpl. split; [done|].
    intros n dd Hn. destruct (decide (pdd_name d = n)) as [Heq|Hne].
    + rewrite Heq, lookup_insert_eq in Hn. injection Hn as <-. simpl. split; [done|].
      by eapply inputValuesDefinition_argumentsKeyed.
    + rewrite lookup_insert_ne in Hn by done. by apply Hd.
  - apply typeDefinition_keyed in H as (t & -> & Hn & Hk). simpl. split; [|done].
    intros n t' Hl. destruct (decide (ptd_name d = n)) as [Heq|Hne].
    + rewrite Heq, lookup_insert_eq in Hl. injection Hl as <-. split; [congruence|done].
    + rewrite lookup_insert_ne in Hl by done. by apply Ht.
  - unfold schemaExtension in H. repeat bind_ok H. by injection H as <-.
  - apply typeExtension_keyed in H as (t0 & t & Ht0 & -> & Hn & Hk). simpl. split; [|done].
    destruct (Ht _ _ Ht0) as [Hn0 Hk0].
    intros n t' Hl. destruct (decide (te_name e = n)) as [Heq|Hne].
    + rewrite Heq, lookup_insert_eq in Hl. injection Hl as <-.
      split; [congruence|auto].
    + rewrite lookup_insert_ne in Hl by done. by apply Ht.
Qed.

(** X7.  In the schema of a successful analysis every map is keyed by the
    name of its entries: a type definition is stored under its own name, a
    field under its name, its arguments under theirs, an enum value and an
    input field likewise, and a directive definition and its arguments too. *)
Theorem schema_keyed_by_name document s :
  analyzeSchema document = inl s ->
  typeDefinitionsKeyed (s_typeDefinitions s) /\
  directiveDefinitionsKeyed (s_directiveDefinitions s).
Proof.
  intros Hs. apply analyzeSchema_inl_inv in Hs as (ctx & Hctx & ->). simpl.
  eapply (for_of_invariant
            (fun c => typeDefinitionsKeyed (typeDefinitions c) /\
                      directiveDefinitionsKeyed (directiveDefinitions c)));
    [|split|exact Hctx].
  - intros x c c' Hc Hx. by eapply schemaStep_keyed.
  - intros n t Hn. unfold emptyContext in Hn. simpl in Hn. by rewrite lookup_empty in Hn.
  - intros n d Hn. unfold emptyContext in Hn. simpl in Hn. by rewrite lookup_empty in Hn.
Qed.

(** ** Directive definitions *)

Lemma directiveLocations_Ok name (l : list DirectiveLocation) (S S' : gset DirectiveLocation) :
  for_of (addLocation name) l S = Ok S' ->
  namesAccepted l /\ (forall x, x ∈ l -> x ∉ S) /\ S' = list_to_set l ∪ S.
Proof.
  revert S. induction l as [|x l IH]; intros S; simpl.
  - intros [= <-]. split; [split; constructor|]. split.
    + intros x Hx. by apply elem_of_nil in Hx.
    + by rewrite (left_id_L ∅ (∪)).
  - unfold addLocation at 1. case_bool_decide as Hx; [discriminate|].
    destruct (inherited x) eqn:Hinh; [discriminate|]. simpl. intros H.
    destruct (IH _ H) as ([Hnd Hall] & Hfresh & ->).
    assert (Hxl : x ∉ l).
    { intros Hin. apply (Hfresh _ Hin). by apply elem_of_union_l, elem_of_singleton. }
    split; [split; by constructor|]. split.
    + intros y Hy. apply elem_of_cons in Hy as [->|Hy]; [done|].
      intros HyS. apply (Hfresh _ Hy). by apply elem_of_union_r.
    + change (list_to_set (x :: l)) with ({[x]} ∪ list_to_set l : gset DirectiveLocation).
      apply set_eq. intros k. rewrite !elem_of_union. tauto.
Qed.

Lemma directiveLocations_repeated name (l1 : list DirectiveLocation) x l2
    (S : gset DirectiveLocation) :
  namesAccepted l1 -> (forall y, y ∈ l1 -> y ∉ S) ->
  x ∈ l1 \/ x ∈ S \/ inherited x = true ->
  for_of (addLocation name) (l1 ++ x :: l2) S
  = Raise {| message := "Multiple DirectiveLocation " +:+ x
                        +:+ " for directive " +:+ name |}.
Proof.
  revert S. induction l1 as [|y l1 IH]; intros S [Hnd Hall] Hfresh Hx; simpl.
  - unfold addLocation.
    destruct Hx as [Hx|[Hx|Hx]]; [by apply elem_of_nil in Hx| |].
    + by rewrite bool_decide_true.
    + rewrite Hx. by rewrite orb_true_r.
  - apply NoDup_cons in Hnd as [Hy Hnd]. apply Forall_cons in Hall as [Hyi Hall].
    unfold addLocation at 1.
    rewrite bool_decide_false by (apply Hfresh, elem_of_cons; by left).
    rewrite Hyi. simpl.
    apply IH; [done| |].
    + intros z Hz HzS. apply elem_of_union in HzS as [HzS|HzS].
      * apply elem_of_singleton in HzS as ->. done.
      * apply (Hfresh z); [apply elem_of_cons; by right|done].
    + destruct Hx as [Hx|[Hx|Hx]].
      * apply elem_of_cons in Hx as [->|Hx]; [|by left].
        right. left. by apply elem_of_union_l, elem_of_singleton.
      * right. left. by apply elem_of_union_r.
      * right. by right.
Qed.

(** X8.  [directiveDefinition] stores a definition under its name, with its
    description and [repeatable] flag as parsed, its arguments normalized
    and its locations as a set; the name was free and is not a member of
    [Object.prototype], and the locations listed are pairwise distinct.  A
    name already defined, or inherited, fails with
    "Multiple DirectiveDefinition for <name>" before anything is built; with
    the name free and the arguments accepted, the first location that
    repeats an earlier one (or is inherited) fails with
    "Multiple DirectiveLocation <location> for directive <name>". *)
Theorem directiveDefinition_stored (d : ParserDirectiveDefinition) ctx :
  (forall ctx', directiveDefinition d ctx = Ok ctx' ->
     directiveDefinitions ctx !! pdd_name d = None /\
     inherited (pdd_name d) = false /\
     namesAccepted (pdd_directiveLocations d) /\
     exists dd,
       directiveDefinitions ctx' = <[pdd_name d := dd]> (directiveDefinitions ctx) /\
       dd_name dd = pdd_name d /\ dd_description dd = pdd_description d /\
       dd_repeatable dd = pdd_repeatable d /\
       dd_locations dd = list_to_set (pdd_directiveLocations d) /\
       inputValuesDefinition (pdd_argumentsDefinition d) ("directive " +:+ pdd_name d)
       = Ok (dd_argumentsDefinition dd)) /\
  (is_Some (directiveDefinitions ctx !! pdd_name d) \/ inherited (pdd_name d) = true ->
   directiveDefinition d ctx
   = Raise {| message := "Multiple DirectiveDefinition for " +:+ pdd_name d |}) /\
  (forall l1 x l2,
     directiveDefinitions ctx !! pdd_name d = None ->
     inherited (pdd_name d) = false ->
     is_Ok (inputValuesDefinition (pdd_argumentsDefinition d)
              ("directive " +:+ pdd_name d)) ->
     pdd_directiveLocations d = l1 ++ x :: l2 ->
     namesAccepted l1 -> x ∈ l1 \/ inherited x = true ->
     directiveDefinition d ctx
     = Raise {| message := "Multiple DirectiveLocation " +:+ x
                           +:+ " for directive " +:+ pdd_name d |}).
Proof.
  unfold directiveDefinition, has_key. split; [|split].
  - intros ctx'. destruct (directiveDefinitions ctx !! pdd_name d); [discriminate|].
    destruct (inherited (pdd_name d)); [discriminate|].
    intros H. repeat bind_ok H. injection H as <-. simpl.
    apply directiveLocations_Ok in E0 as (Hacc & _ & ->).
    split; [done|]. split; [done|]. split; [done|].
    eexists. split; [reflexivity|]. simpl.
    repeat split; [|done]. by rewrite (right_id_L ∅ (∪)).
  - intros [[dd Hdd]|Hinh]; [by rewrite Hdd|].
    rewrite Hinh. by destruct (directiveDefinitions ctx !! pdd_name d).
  - intros l1 x l2 Hnone Hinh [args Hargs] Hl Hacc Hx. rewrite Hnone, Hinh, Hargs, Hl. simpl.
    rewrite directiveLocations_repeated; [done|done| |].
    + intros y _. apply not_elem_of_empty.
    + destruct Hx as [Hx|Hx]; [by left|right; by right].
Qed.

Lemma schemaStep_directiveDefinitions (x : DefinitionNode) ctx ctx' :
  schemaStep x ctx = Ok ctx' ->
  match x with
  | typeSystem_ (definition_ (DDirective d)) =>
      directiveDefinitions ctx !! pdd_name d = None /\
      exists dd, directiveDefinitions ctx'
                 = <[pdd_name d := dd]> (directiveDefinitions ctx) /\
                 dd_description dd = pdd_description d /\
                 dd_repeatable dd = pdd_repeatable d /\
                 dd_locations dd = list_to_set (pdd_directiveLocations d)
  | _ => directiveDefinitions ctx' = directiveDefinitions ctx
  end.
Proof.
  intros H. destruct x as [[[d|d|d]|[e|e]]|x]; simpl in *; try discriminate.
  - unfold schemaDefinition in H. destruct (rootOperationTypes ctx); [discriminate|].
    repeat bind_ok H. by injection H as <-.
  - unfold directiveDefinition, has_key in H.
    destruct (directiveDefinitions ctx !! pdd_name d); [discriminate|].
    destruct (inherited (pdd_name d)); [discriminate|].
    repeat bind_ok H. injection H as <-. simpl.
    apply directiveLocations_Ok in E0 as (_ & _ & ->).
    split; [done|]. eexists. split; [reflexivity|]. simpl.
    repeat split. by rewrite (right_id_L ∅ (∪)).
  - apply typeDefinition_Ok in H as (_ & t & -> & _). done.
  - unfold schemaExtension in H. repeat bind_ok H. by injection H as <-.
  - apply typeExtension_Ok in H as (t0 & t & _ & -> & _). done.
Qed.

Lemma for_of_schemaStep_directiveDefinitions document ctx ctx' :
  for_of schemaStep document ctx = Ok ctx' ->
  NoDup (omap directiveDefinitionName document) /\
  (forall n, n ∈ omap directiveDefinitionName document ->
             directiveDefinitions ctx !! n = None) /\
  dom (directiveDefinitions ctx')
  = dom (directiveDefinitions ctx) ∪ list_to_set (omap directiveDefinitionName document).
Proof.
  revert ctx. induction document as [|x l IH]; intros ctx; simpl.
  - intros [= <-]. split; [constructor|]. split.
    + intros n Hn. by apply elem_of_nil in Hn.
    + by rewrite (right_id_L ∅ (∪)).
  - intros H. bind_ok H.
    pose proof (schemaStep_directiveDefinitions _ _ _ E) as Hx.
    destruct (IH _ H) as (Hnd & Hfresh & Hdom).
    assert (Hcase : (exists d, x = typeSystem_ (definition_ (DDirective d))) \/
                    directiveDefinitionName x = None).
    { destruct x as [[[d|d|d]|[e|e]]|x]; eauto. }
    destruct Hcase as [[d ->]|Hnone]; simpl.
    + destruct Hx as (Hn & dd & Hx & _). rewrite Hx, dom_insert_L in Hdom.
      assert (Hnl : pdd_name d ∉ omap directiveDefinitionName l).
      { intros Hin. specialize (Hfresh _ Hin). rewrite Hx, lookup_insert_eq in Hfresh.
        discriminate. }
      split; [by constructor|]. split.
      * intros n' Hn'. apply elem_of_cons in Hn' as [->|Hn']; [done|].
        specialize (Hfresh _ Hn'). rewrite Hx in Hfresh.
        destruct (decide (pdd_name d = n')) as [Heq|Hne].
        -- rewrite Heq, lookup_insert_eq in Hfresh. discriminate.
        -- by rewrite lookup_insert_ne in Hfresh.
      * rewrite Hdom.
        change (list_to_set (pdd_name d :: omap directiveDefinitionName l))
          with ({[pdd_name d]} ∪ list_to_set (omap directiveDefinitionName l) : gset string).
        apply set_eq. intros k. rewrite !elem_of_union. tauto.
    + rewrite Hnone.
      assert (Heq : directiveDefinitions x0 = directiveDefinitions ctx).
      { destruct x as [[[d|d|d]|[e|e]]|x]; try done. }
      rewrite Heq in Hfresh, Hdom. done.
Qed.

(** X9.  On success, the directive definitions of the schema are exactly
    those of the document's DirectiveDefinition entries, whose names are
    pairwise distinct, and each is what its entry declared: same
    description, same [repeatable] flag, the set of its locations. *)
Theorem directiveDefinitions_of_document document s :
  analyzeSchema document = inl s ->
  NoDup (omap directiveDefinitionName document) /\
  dom (s_directiveDefinitions s) = list_to_set (omap directiveDefinitionName document) /\
  forall d, typeSystem_ (definition_ (DDirective d)) ∈ document ->
    exists dd, s_directiveDefinitions s !! pdd_name d = Some dd /\
               dd_description dd = pdd_description d /\
               dd_repeatable dd = pdd_repeatable d /\
               dd_locations dd = list_to_set (pdd_directiveLocations d).
Proof.
  intros Hs. apply analyzeSchema_inl_inv in Hs as (ctx & Hctx & ->). simpl.
  destruct (for_of_schemaStep_directiveDefinitions _ _ _ Hctx) as (Hnd & _ & Hdom).
  split; [done|]. split.
  - rewrite Hdom. simpl. rewrite dom_empty_L. apply (left_id_L ∅ (∪)).
  - intros d Hd. apply list_elem_of_split in Hd as (l1 & l2 & ->).
    rewrite for_of_app in Hctx. bind_ok Hctx. simpl in Hctx. bind_ok Hctx.
    pose proof (schemaStep_directiveDefinitions
                  (typeSystem_ (definition_ (DDirective d))) _ _ E0)
      as (_ & dd & Hx & Hdesc & Hrep & Hloc).
    destruct (for_of_schemaStep_grows _ _ _ Hctx) as (Hsub & _ & _).
    exists dd. split; [|done].
    eapply lookup_weaken; [|exact Hsub]. rewrite Hx. apply lookup_insert_eq.
Qed.

(** ** Schema directives and description *)

Lemma directives_names (ds : option (list ParserDirective)) on r :
  directives ds on = Ok r -> dir_name <$> r = pdir_name <$> default [] ds.
Proof.
  unfold directives. intros H. apply map_raising_Ok in H.
  induction H as [|d x l r' Hd _ IH]; [done|].
  rewrite !fmap_cons, IH. f_equal.
  rewrite directive_loop in Hd. bind_ok Hd. by injection Hd as <-.
Qed.

Lemma schemaStep_schemaDirectives (x : DefinitionNode) ctx ctx' :
  schemaStep x ctx = Ok ctx' ->
  exists new, schemaDirectives ctx' = schemaDirectives ctx ++ new /\
              Forall2 directiveStored (schemaDirectivesOf x) new.
Proof.
  intros H. destruct x as [[[d|d|d]|[e|e]]|x]; simpl in *; try discriminate.
  - unfold schemaDefinition in H. destruct (rootOperationTypes ctx); [discriminate|].
    repeat bind_ok H. injection H as <-. simpl.
    eexists. split; [reflexivity|]. by eapply directives_stored.
  - unfold directiveDefinition in H. destruct (has_key _ _); [discriminate|].
    repeat bind_ok H. injection H as <-. simpl.
    exists []. split; [by rewrite app_nil_r|constructor].
  - apply typeDefinition_Ok in H as (_ & t & -> & _). simpl.
    exists []. split; [by rewrite app_nil_r|constructor].
  - unfold schemaExtension in H. repeat bind_ok H. injection H as <-. simpl.
    eexists. split; [reflexivity|]. by eapply directives_stored.
  - apply typeExtension_Ok in H as (t0 & t & _ & -> & _). simpl.
    exists []. split; [by rewrite app_nil_r|constructor].
Qed.

(** X10.  The schema directives of a successful analysis are the directives
    applied by the SchemaDefinition and the SchemaExtension entries, one for
    one and in document order, each with the name and the arguments of its
    application; the same directive name may occur any number of times. *)
Theorem schemaDirectives_in_document_order document s :
  analyzeSchema document = inl s ->
  Forall2 directiveStored (concat (schemaDirectivesOf <$> document))
    (s_schemaDirectives s).
Proof.
  intros Hs. apply analyzeSchema_inl_inv in Hs as (ctx & Hctx & ->). simpl.
  assert (Hgen : forall l c c', for_of schemaStep l c = Ok c' ->
            exists new, schemaDirectives c' = schemaDirectives c ++ new /\
                        Forall2 directiveStored (concat (schemaDirectivesOf <$> l)) new).
  { induction l as [|x l IH]; intros c c'; simpl.
    - intros [= <-]. exists []. split; [by rewrite app_nil_r|constructor].
    - intros H. bind_ok H.
      destruct (schemaStep_schemaDirectives _ _ _ E) as (n1 & Hn1 & Hs1).
      destruct (IH _ _ H) as (n2 & Hn2 & Hs2).
      exists (n1 ++ n2). split; [by rewrite Hn2, Hn1, app_assoc|].
      by apply Forall2_app. }
  destruct (Hgen _ _ _ Hctx) as (new & Hnew & Hst). by rewrite Hnew.
Qed.

Lemma schemaStep_description (x : DefinitionNode) ctx ctx' :
  schemaStep x ctx = Ok ctx' ->
  match x with
  | typeSystem_ (definition_ (DSchema d)) =>
      rootOperationTypes ctx = None /\ is_Some (rootOperationTypes ctx') /\
      description ctx' = sd_description d
  | _ => description ctx' = description ctx
  end.
Proof.
  intros H. destruct x as [[[d|d|d]|[e|e]]|x]; simpl in *; try discriminate.
  - unfold schemaDefinition in H. destruct (rootOperationTypes ctx); [discriminate|].
    repeat bind_ok H. injection H as <-. simpl. split; [done|]. split; [by eexists|done].
  - unfold directiveDefinition in H. destruct (has_key _ _); [discriminate|].
    repeat bind_ok H. by injection H as <-.
  - apply typeDefinition_Ok in H as (_ & t & -> & _). done.
  - unfold schemaExtension in H. repeat bind_ok H. by injection H as <-.
  - apply typeExtension_Ok in H as (t0 & t & _ & -> & _). done.
Qed.

(** X11.  The description of the schema is set by the SchemaDefinition
    alone: on success it is the description of the document's
    SchemaDefinition entry, and it is absent when the document has none,
    whatever its extensions. *)
Theorem description_of_SchemaDefinition document s :
  analyzeSchema document = inl s ->
  (forall d, schemaDefinitionNode d ∈ document -> s_description s = sd_description d) /\
  (Forall (fun x => forall d, x <> schemaDefinitionNode d) document ->
   s_description s = None).
Proof.
  intros Hs. apply analyzeSchema_inl_inv in Hs as (ctx & Hctx & ->). simpl. split.
  - intros d Hd. apply list_elem_of_split in Hd as (l1 & l2 & ->).
    rewrite for_of_app in Hctx. bind_ok Hctx. simpl in Hctx. bind_ok Hctx.
    pose proof (schemaStep_description (schemaDefinitionNode d) _ _ E0)
      as (_ & Hsome & Hdesc).
    assert (Hinv : is_Some (rootOperationTypes ctx) /\
                   description ctx = sd_description d); [|by destruct Hinv].
    eapply (for_of_invariant
              (fun c => is_Some (rootOperationTypes c) /\
                        description c = sd_description d));
      [|split; [exact Hsome|exact Hdesc]|exact Hctx].
    intros y c c' [Hc Hdc] Hy. split; [by eapply schemaStep_rootOperationTypes_Some|].
    pose proof (schemaStep_description _ _ _ Hy) as Hstep.
    destruct y as [[[d'|d'|d']|[e'|e']]|y']; try congruence.
    destruct Hstep as (Hnone & _). rewrite Hnone in Hc. by destruct Hc.
  - intros Hall.
    assert (Hgen : forall c c', for_of schemaStep document c = Ok c' ->
                                description c' = description c).
    { clear Hctx. induction Hall as [|y l Hy _ IH]; intros c c'; simpl; [by intros [= <-]|].
      intros H. bind_ok H. rewrite (IH _ _ H).
      pose proof (schemaStep_description _ _ _ E) as Hstep.
      destruct y as [[[d'|d'|d']|[e'|e']]|y']; try done. by destruct (Hy d'). }
    by rewrite (Hgen _ _ Hctx).
Qed.

(** ** Root operation types, over the whole document *)

Lemma bindRootOperationTypes_exact (l : list RootOperationTypeDefinition) m m' :
  for_of bindRootOperationType l m = Ok m' ->
  Forall (fun b => rotd_type b <> "") l ->
  (forall o ty, m !! o = Some ty -> ty <> "") ->
  NoDup (operationType <$> l) /\
  (forall b, b ∈ l -> m !! operationType b = None) /\
  (forall o ty, m' !! o = Some ty
                <-> m !! o = Some ty \/
                    exists b, b ∈ l /\ operationType b = o /\ rotd_type b = ty).
Proof.
  revert m. induction l as [|b l IH]; intros m; simpl.
  - intros [= <-] _ _. split; [constructor|]. split.
    + intros b Hb. by apply elem_of_nil in Hb.
    + intros o ty. split; [auto|]. intros [H|(b & Hb & _)]; [done|by apply elem_of_nil in Hb].
  - intros H Hne Hm. bind_ok H. apply Forall_cons in Hne as [Hb Hne].
    apply bindRootOperationType_Ok in E as [Hfree ->].
    assert (Hnone : m !! operationType b = None).
    { destruct (m !! operationType b) as [ty|] eqn:Hty; [|done].
      simpl in Hfree. specialize (Hm _ _ Hty). by destruct ty. }
    destruct (IH _ H Hne) as (Hnd & Hfresh & Hiff).
    { intros o ty Ho. destruct (decide (operationType b = o)) as [Heq|Hneq].
      - rewrite Heq, lookup_insert_eq in Ho. by injection Ho as <-.
      - rewrite lookup_insert_ne in Ho by done. eauto. }
    assert (Hbl : operationType b ∉ operationType <$> l).
    { intros Hin. apply list_elem_of_fmap in Hin as (b' & Heq & Hb').
      specialize (Hfresh _ Hb'). rewrite <- Heq, lookup_insert_eq in Hfresh. discriminate. }
    split; [by constructor|]. split.
    + intros b' Hb'. apply elem_of_cons in Hb' as [->|Hb']; [done|].
      specialize (Hfresh _ Hb').
      destruct (decide (operationType b = operationType b')) as [Heq|Hneq].
      * rewrite Heq, lookup_insert_eq in Hfresh. discriminate.
      * by rewrite lookup_insert_ne in Hfresh.
    + intros o ty. rewrite Hiff. split.
      * intros [Ho|(b' & Hb' & Hop & Hty)].
        -- destruct (decide (operationType b = o)) as [Heq|Hneq].
           ++ rewrite Heq, lookup_insert_eq in Ho. injection Ho as <-.
              right. exists b. split; [apply elem_of_cons; by left|done].
           ++ rewrite lookup_insert_ne in Ho by done. by left.
        -- right. exists b'. split; [apply elem_of_cons; by right|done].
      * intros [Ho|(b' & Hb' & Hop & Hty)].
        -- left. rewrite lookup_insert_ne; [done|]. intros Heq. congruence.
        -- apply elem_of_cons in Hb' as [->|Hb'].
           ++ left. by rewrite Hop, lookup_insert_eq, Hty.
           ++ right. eauto.
Qed.

Lemma schemaStep_bindings (x : DefinitionNode) ctx ctx' :
  schemaStep x ctx = Ok ctx' ->
  for_of bindRootOperationType (rootOperationTypesOf x)
    (default ∅ (rootOperationTypes ctx))
  = Ok (default ∅ (rootOperationTypes ctx')).
Proof.
  intros H. destruct x as [[[d|d|d]|[e|e]]|x]; simpl in *; try discriminate.
  - apply schemaDefinition_Ok in H as (Hnone & _ & m & -> & Hm). by rewrite Hnone.
  - apply directiveDefinition_Ok in H as [-> _]. done.
  - apply typeDefinition_Ok in H as (_ & t & -> & _). done.
  - apply schemaExtension_Ok in H as (_ & m & -> & Hm). done.
  - apply typeExtension_Ok in H as (t0 & t & _ & -> & _). done.
Qed.

Lemma for_of_schemaStep_bindings document ctx ctx' :
  for_of schemaStep document ctx = Ok ctx' ->
  for_of bindRootOperationType (concat (rootOperationTypesOf <$> document))
    (default ∅ (rootOperationTypes ctx))
  = Ok (default ∅ (rootOperationTypes ctx')).
Proof.
  revert ctx. induction document as [|x l IH]; intros ctx; simpl.
  - by intros [= <-].
  - intros H. bind_ok H. rewrite for_of_app, (schemaStep_bindings _ _ _ E). simpl. auto.
Qed.

(** X12.  Each root operation type is bound at most once over the
    SchemaDefinition and all SchemaExtension entries together: when the
    analysis succeeds (type names being non-empty, as names are), the
    operation types listed anywhere in the document are pairwise distinct,
    and [rootOperationTypes] holds exactly the bindings listed. *)
Theorem rootOperationTypes_of_document document s :
  analyzeSchema document = inl s ->
  Forall (fun b => rotd_type b <> "") (concat (rootOperationTypesOf <$> document)) ->
  NoDup (operationType <$> concat (rootOperationTypesOf <$> document)) /\
  forall o ty,
    s_rootOperationTypes s !! o = Some ty
    <-> exists b, b ∈ concat (rootOperationTypesOf <$> document) /\
                  operationType b = o /\ rotd_type b = ty.
Proof.
  intros Hs Hne. apply analyzeSchema_inl_inv in Hs as (ctx & Hctx & ->). simpl.
  apply for_of_schemaStep_bindings in Hctx. simpl in Hctx.
  destruct (bindRootOperationTypes_exact _ _ _ Hctx Hne) as (Hnd & _ & Hiff).
  { intros o ty Ho. by rewrite lookup_empty in Ho. }
  split; [done|]. intros o ty. rewrite Hiff. split; [|auto].
  intros [Ho|H]; [by rewrite lookup_empty in Ho|done].
Qed.

(** ** Executable documents *)

(** X13.  [analyzeOperation] accepts a document exactly when all its
    entries are executable definitions, and what it returns then is empty:
    no fragment and no operation is ever recorded.  Any other document gets
    "TypeSystemDefinitionOrExtension in Operation". *)
Theorem analyzeOperation_outcome document :
  analyzeOperation document
  = if forallb isExecutable document
    then inl {| fragments := ∅; operations := ∅ |}
    else inr {| message := "TypeSystemDefinitionOrExtension in Operation" |}.
Proof.
  unfold analyzeOperation, operation.
  generalize ({| fragments := ∅; operations := ∅ |} : OperationContext).
  induction document as [|x l IH]; intros c; simpl; [done|].
  destruct x as [x|x]; simpl; [done|]. destruct x; simpl; apply IH.
Qed.

(** ** The inline revision against the current one *)

Lemma inline_schemaStep_agrees (x : DefinitionNode) ctx ctx' :
  isExecutable x = false ->
  inline_schemaStep x ctx = Ok ctx' -> schemaStep x ctx = Ok ctx'.
Proof.
  destruct x as [[[d|d|d]|[e|e]]|x]; simpl; try done.
  intros _. unfold inline_schemaExtension, schemaExtension.
  by destruct (rootOperationTypes ctx).
Qed.

Lemma for_of_cons {X S : Type} (body : X -> S -> Result S) (x : X) (l : list X) (s : S) :
  for_of body (x :: l) s = bind (body x s) (for_of body l).
Proof. reflexivity. Qed.

Lemma inline_skips_executable (document : list DefinitionNode) ctx :
  for_of inline_schemaStep document ctx
  = for_of inline_schemaStep (filter (fun x => isExecutable x = false) document) ctx.
Proof.
  unfold Document in *.
  revert ctx. induction document as [|x l IH]; intros ctx; [done|].
  destruct x as [x|x].
  - rewrite filter_cons_True by done. rewrite !for_of_cons.
    destruct (inline_schemaStep (typeSystem_ x) ctx); simpl; [apply IH|done].
  - rewrite filter_cons_False by done. rewrite for_of_cons. simpl. apply IH.
Qed.

Lemma schemaStep_agrees_inline (x : DefinitionNode) ctx ctx' :
  schemaStep x ctx = Ok ctx' ->
  is_Some (rootOperationTypes ctx) \/ rootOperationTypes ctx' = None ->
  inline_schemaStep x ctx = Ok ctx'.
Proof.
  destruct x as [[[d|d|d]|[e|e]]|x]; simpl; try done.
  intros H Hrot. unfold inline_schemaExtension. unfold schemaExtension in H.
  destruct (rootOperationTypes ctx) as [m|] eqn:Hm; [done|].
  destruct Hrot as [[? [=]]|Hnone]. repeat bind_ok H. injection H as <-. discriminate.
Qed.

Lemma for_of_schemaStep_agrees_inline document ctx ctx' :
  for_of schemaStep document ctx = Ok ctx' ->
  is_Some (rootOperationTypes ctx) \/ rootOperationTypes ctx' = None ->
  for_of inline_schemaStep document ctx = Ok ctx'.
Proof.
  revert ctx. induction document as [|x l IH]; intros ctx; simpl; [done|].
  intros H Hrot. bind_ok H.
  assert (Hrot1 : is_Some (rootOperationTypes x0) \/ rootOperationTypes ctx' = None).
  { destruct Hrot as [Hs|Hn]; [|by right]. left.
    by eapply schemaStep_rootOperationTypes_Some. }
  rewrite (schemaStep_agrees_inline _ _ _ E); [simpl; by apply IH|].
  destruct Hrot as [Hs|Hn]; [by left|]. right.
  destruct (rootOperationTypes x0) eqn:Hx0; [|done].
  destruct (schema_rootOperationTypes_Some _ _ _ (ex_intro _ _ Hx0) H) as [m Hm].
  congruence.
Qed.

(** X14.  The two revisions agree on what they both accept.  A document
    accepted by the inline revision is accepted by the current one with the
    same schema, once its executable entries (which the inline revision
    skips) are left out; and a document with a SchemaDefinition that the
    current revision accepts is accepted by the inline revision with the
    same schema. *)
Theorem revisions_agree document s :
  (inline_analyzeSchema document = inl s ->
   analyzeSchema (filter (fun x => isExecutable x = false) document) = inl s) /\
  (analyzeSchema document = inl s ->
   (exists d, schemaDefinitionNode d ∈ document) ->
   inline_analyzeSchema document = inl s).
Proof.
  unfold Document in *. split.
  - unfold inline_analyzeSchema, inline_schema, analyzeSchema, schema.
    rewrite inline_skips_executable.
    assert (Hgen : forall l c c',
              Forall (fun x => isExecutable x = false) l ->
              for_of inline_schemaStep l c = Ok c' -> for_of schemaStep l c = Ok c').
    { induction l as [|x l IH]; intros c c' Hall; simpl; [done|].
      apply Forall_cons in Hall as [Hx Hall]. intros H. bind_ok H.
      rewrite (inline_schemaStep_agrees _ _ _ Hx E). simpl. by apply IH. }
    assert (Hall : Forall (fun x => isExecutable x = false)
                     (filter (fun x => isExecutable x = false) document)).
    { apply Forall_forall. intros x Hx. by apply list_elem_of_filter in Hx as [? _]. }
    revert Hall. generalize (filter (fun x => isExecutable x = false) document).
    intros l Hall.
    destruct (for_of inline_schemaStep l emptyContext) as [c|e] eqn:Hrun; simpl;
      [|by intros [=]].
    rewrite (Hgen _ _ _ Hall Hrun). simpl.
    destruct (rootOperationTypes c); simpl; [done|by intros [=]].
  - intros Hs [d Hd]. apply analyzeSchema_inl_inv in Hs as (ctx & Hctx & ->).
    apply list_elem_of_split in Hd as (l1 & l2 & ->).
    pose proof (schema_after_schemaDefinition _ _ _ _ Hctx) as [m Hm].
    unfold inline_analyzeSchema, inline_schema.
    rewrite for_of_app in Hctx. bind_ok Hctx. simpl in Hctx. bind_ok Hctx.
    pose proof (schemaStep_description (schemaDefinitionNode d) _ _ E0)
      as (Hnone & Hsome & _).
    rewrite for_of_app.
    rewrite (for_of_schemaStep_agrees_inline _ _ _ E); [|by right]. simpl.
    change (inline_schemaStep (schemaDefinitionNode d) x)
      with (schemaStep (schemaDefinitionNode d) x).
    rewrite E0. simpl.
    rewrite (for_of_schemaStep_agrees_inline _ _ _ Hctx); [|by left]. simpl.
    by rewrite Hm.
Qed.

(** ** Uniqueness, enum values and input fields *)

(** X15.  [noDuplicate] returns its list untouched when no name occurs
    twice in it, adjacent or not, and fails with "Duplicate <on>" otherwise. *)
Theorem noDuplicate_outcome (strs : list string) (on : string) :
  noDuplicate strs on
  = if decide (NoDup strs) then Ok strs
    else Raise {| message := "Duplicate " +:+ on |}.
Proof.
  destruct (decide (NoDup strs)) as [Hnd|Hnd].
  - by apply noDuplicate_Ok.
  - by apply noDuplicate_Raise.
Qed.

(** X16.  Enum values.  A definition that is accepted lists pairwise
    distinct values, none of them named like a member of
    [Object.prototype], and stores each under its own name; an extension
    that is accepted keeps the values there were and adds its own.  When the
    values listed before it are accepted (distinct, not inherited, not yet
    stored, their directives accepted), a value that is listed earlier, is
    already stored, or is inherited fails with
    "Duplicate enum value <value> on <name> definition" (or "extension"),
    whatever the directives of the type itself. *)
Theorem enum_values (name : string) :
  (forall (d : ParserTypeDefinition) vs ctx ctx',
      enumTypeDefinition d vs ctx = Ok ctx' ->
      namesAccepted (pev_enumValue <$> default [] vs) /\
      exists base m,
        ctx' = setTypeDefinition (ptd_name d) (EnumTypeDefinition base m) ctx /\
        dom m = list_to_set (pev_enumValue <$> default [] vs) /\
        forall v, v ∈ default [] vs ->
          exists x, m !! pev_enumValue v = Some x /\ ev_name x = pev_enumValue v /\
                    ev_description x = pev_description v) /\
  (forall (d : ParserTypeDefinition) vs ctx l1 v l2,
      ptd_name d = name -> default [] vs = l1 ++ v :: l2 ->
      namesAccepted (pev_enumValue <$> l1) ->
      Forall (fun y => is_Ok (directives (pev_directives y)
                                ("type " +:+ name +:+ " definition"))) l1 ->
      pev_enumValue v ∈ pev_enumValue <$> l1 \/ inherited (pev_enumValue v) = true ->
      enumTypeDefinition d vs ctx
      = Raise {| message := "Duplicate enum value " +:+ pev_enumValue v +:+ " on "
                            +:+ name +:+ " definition" |}) /\
  (forall (e : TypeExtension) vs base m t',
      enumTypeExtension e vs (EnumTypeDefinition base m) = Ok t' ->
      namesAccepted (pev_enumValue <$> default [] vs) /\
      (forall v, v ∈ default [] vs -> m !! pev_enumValue v = None) /\
      exists base' m', t' = EnumTypeDefinition base' m' /\ m ⊆ m' /\
                       dom m' = dom m ∪ list_to_set (pev_enumValue <$> default [] vs)) /\
  (forall (e : TypeExtension) vs base m l1 v l2,
      te_name e = name -> default [] vs = l1 ++ v :: l2 ->
      namesAccepted (pev_enumValue <$> l1) ->
      (forall y, y ∈ l1 -> m !! pev_enumValue y = None) ->
      Forall (fun y => is_Ok (directives (pev_directives y)
                                ("type " +:+ name +:+ " extension"))) l1 ->
      is_Some (m !! pev_enumValue v) \/ pev_enumValue v ∈ pev_enumValue <$> l1
      \/ inherited (pev_enumValue v) = true ->
      enumTypeExtension e vs (EnumTypeDefinition base m)
      = Raise {| message := "Duplicate enum value " +:+ pev_enumValue v +:+ " on "
                            +:+ name +:+ " extension" |}).
Proof.
  assert (Hprefix : forall what l1 (m : gmap string EnumValueDefinition),
             namesAccepted (pev_enumValue <$> l1) ->
             (forall y, y ∈ l1 -> m !! pev_enumValue y = None) ->
             Forall (fun y => is_Ok (directives (pev_directives y)
                                       ("type " +:+ name +:+ " " +:+ what))) l1 ->
             is_Ok (for_of (insertUnique pev_enumValue
                              (fun x => {| message := "Duplicate enum value "
                                                      +:+ pev_enumValue x +:+ " on "
                                                      +:+ name +:+ " " +:+ what |})
                              (fun x => let! ds := directives (pev_directives x)
                                                     ("type " +:+ name +:+ " " +:+ what) in
                                        Ok {| ev_name := pev_enumValue x;
                                              ev_description := pev_description x;
                                              ev_directives := ds |})) l1 m)).
  { intros what l1 m Hacc Hfree Hds. apply insertUnique_loop_intro; [done|].
    intros y Hy. split; [by apply Hfree|].
    destruct (proj1 (Forall_forall _ _) Hds y Hy) as [ds Hy']. rewrite Hy'. by eexists. }
  split; [|split; [|split]].
  - intros d vs ctx ctx' H. unfold enumTypeDefinition in H. repeat bind_ok H.
    injection H as <-. rewrite addEnumValue_loop in E.
    pose proof (insertUnique_loop_dom _ _ _ _ _ _ E) as Hdom.
    pose proof (insertUnique_loop_Ok_keys _ _ _ _ _ _ E) as Hkeys.
    destruct (insertUnique_loop_Ok _ _ _ _ _ _ E) as (Hnd & Hin & _).
    split; [done|]. eexists _, _. split; [reflexivity|]. split.
    + rewrite Hdom, dom_empty_L. apply (left_id_L ∅ (∪)).
    + intros v Hv. destruct (Hin _ Hv) as (_ & y & Hy & Hm).
      exists y. split; [done|]. bind_ok Hy. by injection Hy as <-.
  - intros d vs ctx l1 v l2 Hname Hl Hacc Hds Hv. unfold enumTypeDefinition.
    rewrite Hname, Hl, addEnumValue_loop.
    rewrite insertUnique_loop_taken; [done| |by right].
    apply (Hprefix "definition"); [done| |done]. intros y _. apply lookup_empty.
  - intros e vs base m t' H. simpl in H. repeat bind_ok H. injection H as <-.
    rewrite addEnumValue_loop in E.
    pose proof (insertUnique_loop_Ok_keys _ _ _ _ _ _ E) as Hkeys.
    destruct (insertUnique_loop_Ok _ _ _ _ _ _ E) as (Hnd & Hin & _).
    split; [done|]. split; [intros v Hv; by destruct (Hin _ Hv)|].
    eexists _, _. split; [reflexivity|].
    split; [by eapply insertUnique_loop_subseteq|by eapply insertUnique_loop_dom].
  - intros e vs base m l1 v l2 Hname Hl Hacc Hfree Hds Hv. simpl.
    rewrite Hname, Hl, addEnumValue_loop.
    rewrite insertUnique_loop_taken; [done| |done].
    by apply (Hprefix "extension").
Qed.

(** X17.  Input fields added by an extension.  An accepted extension lists
    pairwise distinct fields that the input object did not have and that are
    not named like a member of [Object.prototype]; it keeps the input fields
    there were and adds its own, each under its name.  When the fields
    listed before it are accepted (distinct, not inherited, not yet stored,
    their directives accepted), a field that is listed earlier, is already
    stored, or is inherited fails with
    "Multiple argument <name> on type <type> extension". *)
Theorem inputObjectTypeExtension_fields (e : TypeExtension)
    (fs : option (list ParserInputValueDefinition)) base m :
  (forall t', inputObjectTypeExtension e fs (InputObjectTypeDefinition base m) = Ok t' ->
     namesAccepted (piv_name <$> default [] fs) /\
     (forall a, a ∈ default [] fs -> m !! piv_name a = None) /\
     exists base' m', t' = InputObjectTypeDefinition base' m' /\ m ⊆ m' /\
                      dom m' = dom m ∪ list_to_set (piv_name <$> default [] fs) /\
                      forall a, a ∈ default [] fs ->
                        exists v, m' !! piv_name a = Some v /\ iv_name v = piv_name a /\
                                  iv_type v = piv_type a /\
                                  iv_defaultValue v = piv_defaultValue a) /\
  (forall l1 a l2,
     default [] fs = l1 ++ a :: l2 ->
     namesAccepted (piv_name <$> l1) ->
     (forall y, y ∈ l1 -> m !! piv_name y = None) ->
     Forall (fun y => is_Ok (directives (piv_directives y)
                               ("argument on type " +:+ te_name e +:+ " extension"))) l1 ->
     is_Some (m !! piv_name a) \/ piv_name a ∈ piv_name <$> l1
     \/ inherited (piv_name a) = true ->
     inputObjectTypeExtension e fs (InputObjectTypeDefinition base m)
     = Raise {| message := "Multiple argument " +:+ piv_name a +:+ " on type "
                           +:+ te_name e +:+ " extension" |}).
Proof.
  pose (loop := insertUnique piv_name
                  (fun a => {| message := "Multiple argument " +:+ piv_name a
                                          +:+ " on type " +:+ te_name e +:+ " extension" |})
                  (fun a => inputValueDefinition a
                              ("argument on type " +:+ te_name e +:+ " extension"))).
  assert (Hdef : forall l,
             inputObjectTypeExtension e l (InputObjectTypeDefinition base m)
             = let! fs' := for_of loop (default [] l) m in
               let! ds := extensionDirectives e in
               Ok (InputObjectTypeDefinition (push_directives base ds) fs'))
    by reflexivity.
  split.
  - intros t' H. rewrite Hdef in H. repeat bind_ok H. injection H as <-.
    pose proof (insertUnique_loop_dom _ _ _ _ _ _ E) as Hdom.
    pose proof (insertUnique_loop_Ok_keys _ _ _ _ _ _ E) as Hkeys.
    destruct (insertUnique_loop_Ok _ _ _ _ _ _ E) as (Hnd & Hin & _).
    split; [done|]. split; [intros a Ha; by destruct (Hin _ Ha)|].
    eexists _, _. split; [reflexivity|].
    split; [by eapply insertUnique_loop_subseteq|]. split; [done|].
    intros a Ha. destruct (Hin _ Ha) as (_ & v & Hv & Hm).
    apply inputValueDefinition_Ok in Hv as (? & _ & ? & ? & _). eauto 10.
  - intros l1 a l2 Hl Hacc Hfree Hds Ha. rewrite Hdef, Hl. unfold loop.
    rewrite insertUnique_loop_taken; [done| |done].
    apply insertUnique_loop_intro; [done|].
    intros y Hy. split; [by apply Hfree|]. apply inputValueDefinition_is_Ok.
    by apply (proj1 (Forall_forall _ _) Hds).
Qed.

(** ** Interfaces and union members accumulate *)

Lemma typeDefinition_names (d : ParserTypeDefinition) ctx ctx' :
  typeDefinition d ctx = Ok ctx' ->
  typeDefinitions ctx !! ptd_name d = None /\
  exists t, ctx' = setTypeDefinition (ptd_name d) t ctx /\
            td_names t = bodyNames (ptd_body d) /\ NoDup (td_names t).
Proof.
  unfold typeDefinition, has_key.
  destruct (typeDefinitions ctx !! ptd_name d); [discriminate|].
  destruct (inherited (ptd_name d)); [discriminate|]. intros H.
  split; [done|].
  destruct (ptd_body d) as [|i f|i f|m|v|f]; simpl in H;
    [ unfold scalarTypeDefinition in H
    | unfold objectTypeDefinition in H
    | unfold interfaceTypeDefinition in H
    | unfold unionTypeDefinition in H
    | unfold enumTypeDefinition in H
    | unfold inputObjectTypeDefinition in H ];
    repeat bind_ok H; injection H as <-;
    try match goal with E : noDuplicate _ _ = Ok _ |- _ =>
          apply noDuplicate_Ok_inv in E as [? ->] end;
    eexists; (split; [reflexivity|]); simpl; split; try done; constructor.
Qed.

Lemma typeExtension_names (e : TypeExtension) ctx ctx' :
  typeExtension e ctx = Ok ctx' ->
  exists t0 t, typeDefinitions ctx !! te_name e = Some t0 /\
               ctx' = setTypeDefinition (te_name e) t ctx /\
               td_names t = td_names t0 ++ bodyNames (te_body e) /\
               NoDup (td_names t).
Proof.
  unfold typeExtension.
  destruct (typeDefinitions ctx !! te_name e) as [t0|] eqn:Hd;
    [|destruct (inherited (te_name e)); discriminate].
  intros H. bind_ok H. injection H as <-. exists t0, x. split; [done|]. split; [done|].
  destruct (te_body e), t0; simpl in E; try discriminate;
    repeat bind_ok E; injection E as <-;
    try match goal with E : noDuplicate _ _ = Ok _ |- _ =>
          apply noDuplicate_Ok_inv in E as [? ->] end;
    simpl; split; try done; constructor.
Qed.

Lemma schemaStep_names (x : DefinitionNode) ctx ctx' n :
  schemaStep x ctx = Ok ctx' ->
  from_option td_names [] (typeDefinitions ctx' !! n)
  = from_option td_names [] (typeDefinitions ctx !! n) ++ namesListedFor n x /\
  ((forall k t, typeDefinitions ctx !! k = Some t -> NoDup (td_names t)) ->
   forall k t, typeDefinitions ctx' !! k = Some t -> NoDup (td_names t)).
Proof.
  intros H. destruct x as [[[d|d|d]|[e|e]]|x]; simpl in *; try discriminate.
  - apply schemaDefinition_Ok in H as (_ & -> & _). by rewrite app_nil_r.
  - apply directiveDefinition_Ok in H as [_ ->]. by rewrite app_nil_r.
  - apply typeDefinition_names in H as (Hnone & t & -> & Hnames & Hnd). simpl. split.
    + destruct (decide (ptd_name d = n)) as [Heq|Hne].
      * rewrite <- Heq, lookup_insert_eq, Hnone. simpl. done.
      * rewrite lookup_insert_ne by done. by rewrite app_nil_r.
    + intros Hall k t' Hk. destruct (decide (ptd_name d = k)) as [Heq|Hne].
      * rewrite Heq, lookup_insert_eq in Hk. by injection Hk as <-.
      * rewrite lookup_insert_ne in Hk by done. eauto.
  - apply schemaExtension_Ok in H as (-> & _). by rewrite app_nil_r.
  - apply typeExtension_names in H as (t0 & t & H0 & -> & Hnames & Hnd). simpl. split.
    + destruct (decide (te_name e = n)) as [Heq|Hne].
      * rewrite <- Heq, lookup_insert_eq, H0. simpl. done.
      * rewrite lookup_insert_ne by done. by rewrite app_nil_r.
    + intros Hall k t' Hk. destruct (decide (te_name e = k)) as [Heq|Hne].
      * rewrite Heq, lookup_insert_eq in Hk. by injection Hk as <-.
      * rewrite lookup_insert_ne in Hk by done. eauto.
Qed.

(** X18.  The interfaces of an object or interface type, and the members of
    a union, accumulate in document order: on success the stored list is the
    list of the definition followed by the lists of its extensions, in the
    order of the document, and no name occurs twice in it. *)
Theorem names_accumulate document s n t :
  analyzeSchema document = inl s ->
  s_typeDefinitions s !! n = Some t ->
  td_names t = concat (namesListedFor n <$> document) /\ NoDup (td_names t).
Proof.
  intros Hs Ht. apply analyzeSchema_inl_inv in Hs as (ctx & Hctx & ->). simpl in Ht.
  assert (Hgen : forall l c c', for_of schemaStep l c = Ok c' ->
            from_option td_names [] (typeDefinitions c' !! n)
            = from_option td_names [] (typeDefinitions c !! n)
              ++ concat (namesListedFor n <$> l) /\
            ((forall k t, typeDefinitions c !! k = Some t -> NoDup (td_names t)) ->
             forall k t, typeDefinitions c' !! k = Some t -> NoDup (td_names t))).
  { induction l as [|x l IH]; intros c c'; simpl.
    - intros [= <-]. by rewrite app_nil_r.
    - intros H. bind_ok H. destruct (schemaStep_names _ _ _ n E) as [Hx Hndx].
      destruct (IH _ _ H) as [Hl Hndl].
      split; [|intros Hall; apply Hndl, Hndx, Hall].
      by rewrite Hl, Hx, app_assoc. }
  destruct (Hgen _ _ _ Hctx) as [Hnames Hnd]. rewrite Ht in Hnames. simpl in Hnames.
  split; [done|]. eapply Hnd; [|exact Ht].
  intros k t' Hk. unfold emptyContext in Hk. simpl in Hk. by rewrite lookup_empty in Hk.
Qed.

(** ** Interface extensions *)

Lemma interfaceTypeExtension_swapKind (e : TypeExtension) i f t :
  interfaceTypeExtension e i f t
  = let! t' := objectTypeExtension e i f (swapKind t) in Ok (swapKind t').
Proof.
  destruct t as [|b ifs fs|b ifs fs| | |]; simpl; try done.
  destruct (noDuplicate _ _); simpl; [|done].
  destruct (for_of _ _ _); simpl; [|done].
  by destruct (extensionDirectives e).
Qed.

Lemma swapKind_involutive (t : TypeDefinition) : swapKind (swapKind t) = t.
Proof. by destruct t. Qed.

Lemma td_fieldsDefinition_swapKind (t : TypeDefinition) :
  td_fieldsDefinition (swapKind t) = td_fieldsDefinition t.
Proof. by destruct t. Qed.

Lemma interfaceTypeExtension_swap (e1 e2 : TypeExtension) i1 f1 i2 f2 t t1 t12 :
  interfaceTypeExtension e1 i1 f1 t = Ok t1 ->
  interfaceTypeExtension e2 i2 f2 t1 = Ok t12 ->
  exists t2 t21,
    interfaceTypeExtension e2 i2 f2 t = Ok t2 /\
    interfaceTypeExtension e1 i1 f1 t2 = Ok t21 /\
    td_fieldsDefinition t21 = td_fieldsDefinition t12.
Proof.
  rewrite !interfaceTypeExtension_swapKind. intros H1 H2.
  bind_ok H1. injection H1 as <-. rewrite swapKind_involutive in H2.
  bind_ok H2. injection H2 as <-.
  destruct (objectTypeExtension_swap _ _ _ _ _ _ _ _ _ E E0) as (t2 & t21 & H2 & H21 & Heq).
  exists (swapKind t2), (swapKind t21).
  rewrite !interfaceTypeExtension_swapKind, swapKind_involutive, H2. simpl.
  rewrite H21. simpl. by rewrite !td_fieldsDefinition_swapKind.
Qed.

(** X19.  Two interface-type extensions commute like two object-type
    extensions: applied to one definition in either order, they both fail or
    both succeed with the same [fieldsDefinition]. *)
Theorem interfaceTypeExtensions_commute (e1 e2 : TypeExtension) i1 f1 i2 f2 t :
  resultFields (bind (interfaceTypeExtension e1 i1 f1 t) (interfaceTypeExtension e2 i2 f2))
  = resultFields (bind (interfaceTypeExtension e2 i2 f2 t)
                       (interfaceTypeExtension e1 i1 f1)).
Proof.
  destruct (bind (interfaceTypeExtension e1 i1 f1 t) (interfaceTypeExtension e2 i2 f2))
    as [t12|err12] eqn:H12.
  - bind_ok H12.
    destruct (interfaceTypeExtension_swap _ _ _ _ _ _ _ _ _ E H12)
      as (t2 & t21 & H2 & H21 & Heq).
    rewrite H2. simpl. rewrite H21. simpl. done.
  - destruct (bind (interfaceTypeExtension e2 i2 f2 t) (interfaceTypeExtension e1 i1 f1))
      as [t21|err21] eqn:H21; [|done].
    bind_ok H21.
    destruct (interfaceTypeExtension_swap _ _ _ _ _ _ _ _ _ E H21)
      as (t1 & t12 & H1 & H12' & Heq).
    rewrite H1 in H12. simpl in H12. congruence.
Qed.

(** ** The order of type definitions *)

(** What a type definition stores does not depend on the context. *)
Lemma typeDefinition_independent (d : ParserTypeDefinition) c1 c1' c2 :
  typeDefinition d c1 = Ok c1' ->
  typeDefinitions c2 !! ptd_name d = None ->
  typeDefinitions c1 !! ptd_name d = None /\
  exists t, c1' = setTypeDefinition (ptd_name d) t c1 /\
            typeDefinition d c2 = Ok (setTypeDefinition (ptd_name d) t c2).
Proof.
  unfold typeDefinition, has_key. intros H Hc2. rewrite Hc2.
  destruct (typeDefinitions c1 !! ptd_name d); [discriminate|].
  destruct (inherited (ptd_name d)); [discriminate|]. split; [done|].
  destruct (ptd_body d) as [|i f|i f|m|v|f]; simpl in *;
    [ unfold scalarTypeDefinition in *
    | unfold objectTypeDefinition in *
    | unfold interfaceTypeDefinition in *
    | unfold unionTypeDefinition in *
    | unfold enumTypeDefinition in *
    | unfold inputObjectTypeDefinition in * ];
    repeat bind_ok H; injection H as <-;
    (eexists; split; [reflexivity|]);
    repeat match goal with E : _ = Ok _ |- _ => rewrite E; clear E; simpl end;
    reflexivity.
Qed.

(** X20.  The order of two adjacent type definitions does not matter: if a
    document is accepted, so is the document with the two definitions
    exchanged, with the same schema. *)
Theorem typeDefinitions_exchange pre (d1 d2 : ParserTypeDefinition) post s :
  analyzeSchema (pre ++ typeDefinitionNode d1 :: typeDefinitionNode d2 :: post) = inl s ->
  analyzeSchema (pre ++ typeDefinitionNode d2 :: typeDefinitionNode d1 :: post) = inl s.
Proof.
  intros Hs. apply analyzeSchema_inl_inv in Hs as (ctx & Hctx & ->).
  rewrite for_of_app in Hctx. bind_ok Hctx. rename x into c.
  simpl in Hctx. bind_ok Hctx. bind_ok Hctx.
  destruct (typeDefinition_Ok _ _ _ E0) as (Hn1 & t1 & -> & _).
  destruct (typeDefinition_Ok _ _ _ E1) as (Hn2 & t2 & -> & _).
  simpl in Hn2.
  assert (Hne : ptd_name d1 <> ptd_name d2).
  { intros Heq. rewrite Heq, lookup_insert_eq in Hn2. discriminate. }
  rewrite lookup_insert_ne in Hn2 by done.
  destruct (typeDefinition_independent _ _ _ c E1 Hn2) as (_ & t2' & Heq2 & Hd2).
  assert (Hn1' : typeDefinitions (setTypeDefinition (ptd_name d2) t2' c)
                 !! ptd_name d1 = None).
  { simpl. by rewrite lookup_insert_ne. }
  destruct (typeDefinition_independent _ _ _ _ E0 Hn1') as (_ & t1' & Heq1 & Hd1).
  assert (t1' = t1) as ->.
  { apply (f_equal (fun c => typeDefinitions c !! ptd_name d1)) in Heq1.
    simpl in Heq1. rewrite !lookup_insert_eq in Heq1. congruence. }
  assert (t2' = t2) as ->.
  { apply (f_equal (fun c => typeDefinitions c !! ptd_name d2)) in Heq2.
    simpl in Heq2. rewrite !lookup_insert_eq in Heq2. congruence. }
  unfold analyzeSchema, schema.
  rewrite for_of_app, E. simpl bind. rewrite Hd2. simpl bind. rewrite Hd1. simpl bind.
  replace (setTypeDefinition (ptd_name d1) t1 (setTypeDefinition (ptd_name d2) t2 c))
    with (setTypeDefinition (ptd_name d2) t2 (setTypeDefinition (ptd_name d1) t1 c)).
  - by rewrite Hctx.
  - unfold setTypeDefinition. simpl. f_equal. by apply insert_insert_ne.
Qed.

(** ** Fields, values and directives of a type, over the document *)

Lemma fieldsDefinition_option_keys (f : option (list ParserFieldDefinition)) on m :
  match f with
  | Some d => fieldsDefinition d on
  | None => Ok ∅
  end = Ok m ->
  NoDup (pfd_name <$> default [] f) /\ dom m = list_to_set (pfd_name <$> default [] f).
Proof.
  destruct f as [l|]; simpl.
  - rewrite fieldsDefinition_loop. intros H.
    pose proof (insertUnique_loop_dom _ _ _ _ _ _ H) as Hdom.
    destruct (insertUnique_loop_Ok _ _ _ _ _ _ H) as (Hnd & _).
    split; [done|]. rewrite Hdom, dom_empty_L. apply (left_id_L ∅ (∪)).
  - intros [= <-]. split; [constructor|]. by rewrite dom_empty_L.
Qed.

Lemma typeDefinition_keys (d : ParserTypeDefinition) ctx ctx' :
  typeDefinition d ctx = Ok ctx' ->
  typeDefinitions ctx !! ptd_name d = None /\
  exists t, ctx' = setTypeDefinition (ptd_name d) t ctx /\
            NoDup (bodyKeys (ptd_body d)) /\
            td_keys t = list_to_set (bodyKeys (ptd_body d)) /\
            dir_name <$> td_directives (td_base t)
            = pdir_name <$> default [] (ptd_directives d).
Proof.
  unfold typeDefinition, has_key.
  destruct (typeDefinitions ctx !! ptd_name d); [discriminate|].
  destruct (inherited (ptd_name d)); [discriminate|]. intros H.
  split; [done|].
  destruct (ptd_body d) as [|i f|i f|m|v|f]; simpl in H;
    [ unfold scalarTypeDefinition in H
    | unfold objectTypeDefinition in H
    | unfold interfaceTypeDefinition in H
    | unfold unionTypeDefinition in H
    | unfold enumTypeDefinition in H
    | unfold inputObjectTypeDefinition in H ];
    repeat bind_ok H; injection H as <-;
    match goal with E : definitionBase d = Ok _ |- _ =>
      unfold definitionBase in E; bind_ok E; injection E as <-;
      match goal with E' : directives _ _ = Ok _ |- _ =>
        apply directives_names in E' end
    end;
    eexists; (split; [reflexivity|]); simpl.
  - split; [constructor|]. by split.
  - apply fieldsDefinition_option_keys in E1 as [? ?]. by repeat split.
  - apply fieldsDefinition_option_keys in E1 as [? ?]. by repeat split.
  - split; [constructor|]. by split.
  - rewrite addEnumValue_loop in E.
    pose proof (insertUnique_loop_dom _ _ _ _ _ _ E) as Hdom.
    destruct (insertUnique_loop_Ok _ _ _ _ _ _ E) as (Hnd & _).
    split; [done|]. split; [|done]. rewrite Hdom, dom_empty_L. apply (left_id_L ∅ (∪)).
  - rewrite inputValuesDefinition_loop in E0.
    pose proof (insertUnique_loop_dom _ _ _ _ _ _ E0) as Hdom.
    destruct (insertUnique_loop_Ok _ _ _ _ _ _ E0) as (Hnd & _).
    split; [done|]. split; [|done]. rewrite Hdom, dom_empty_L. apply (left_id_L ∅ (∪)).
Qed.

Lemma insertUnique_loop_fresh {X V : Type} (key : X -> string) (err : X -> Error)
    (build : X -> Result V) (l : list X) (m m' : gmap string V) :
  for_of (insertUnique key err build) l m = Ok m' ->
  NoDup (key <$> l) /\ (forall k, k ∈ key <$> l -> k ∉ dom m) /\
  dom m' = dom m ∪ list_to_set (key <$> l).
Proof.
  intros H. pose proof (insertUnique_loop_dom _ _ _ _ _ _ H) as Hdom.
  destruct (insertUnique_loop_Ok _ _ _ _ _ _ H) as (Hnd & Hin & _).
  split; [done|]. split; [|done].
  intros k Hk. apply list_elem_of_fmap in Hk as (y & -> & Hy).
  destruct (Hin _ Hy) as [Hnone _]. by apply not_elem_of_dom.
Qed.

Lemma typeExtension_keys (e : TypeExtension) ctx ctx' :
  typeExtension e ctx = Ok ctx' ->
  exists t0 t, typeDefinitions ctx !! te_name e = Some t0 /\
               ctx' = setTypeDefinition (te_name e) t ctx /\
               NoDup (bodyKeys (te_body e)) /\
               (forall k, k ∈ bodyKeys (te_body e) -> k ∉ td_keys t0) /\
               td_keys t = td_keys t0 ∪ list_to_set (bodyKeys (te_body e)) /\
               dir_name <$> td_directives (td_base t)
               = (dir_name <$> td_directives (td_base t0))
                 ++ (pdir_name <$> default [] (te_directives e)).
Proof.
  unfold typeExtension.
  destruct (typeDefinitions ctx !! te_name e) as [t0|] eqn:Hd;
    [|destruct (inherited (te_name e)); discriminate].
  intros H. bind_ok H. injection H as <-. exists t0, x. split; [done|]. split; [done|].
  destruct (te_body e), t0; simpl in E; try discriminate;
    repeat bind_ok E; injection E as <-;
    match goal with E' : extensionDirectives e = Ok _ |- _ =>
      unfold extensionDirectives in E'; apply directives_names in E' end;
    simpl; rewrite ?fmap_app;
    repeat match goal with E' : dir_name <$> _ = _ |- _ => rewrite E'; clear E' end.
  - split; [constructor|]. split; [intros k Hk; by apply elem_of_nil in Hk|].
    split; [|done]. by rewrite (right_id_L ∅ (∪)).
  - rewrite addField_loop in E1.
    destruct (insertUnique_loop_fresh _ _ _ _ _ _ E1) as (? & ? & ?). by repeat split.
  - rewrite addField_loop in E1.
    destruct (insertUnique_loop_fresh _ _ _ _ _ _ E1) as (? & ? & ?). by repeat split.
  - split; [constructor|]. split; [intros k Hk; by apply elem_of_nil in Hk|].
    split; [|done]. by rewrite (right_id_L ∅ (∪)).
  - rewrite addEnumValue_loop in E0.
    destruct (insertUnique_loop_fresh _ _ _ _ _ _ E0) as (? & ? & ?). by repeat split.
  - destruct (insertUnique_loop_fresh piv_name
                (fun a => {| message := "Multiple argument " +:+ piv_name a +:+ " on type "
                                        +:+ te_name e +:+ " extension" |})
                (fun a => inputValueDefinition a
                            ("argument on type " +:+ te_name e +:+ " extension"))
                _ _ _ E0) as (? & ? & ?).
    by repeat split.
Qed.

Lemma schemaStep_keys (x : DefinitionNode) ctx ctx' n :
  schemaStep x ctx = Ok ctx' ->
  NoDup (keysListedFor n x) /\
  (forall k, k ∈ keysListedFor n x ->
             k ∉ from_option td_keys ∅ (typeDefinitions ctx !! n)) /\
  from_option td_keys ∅ (typeDefinitions ctx' !! n)
  = from_option td_keys ∅ (typeDefinitions ctx !! n) ∪ list_to_set (keysListedFor n x) /\
  from_option (fun t => dir_name <$> td_directives (td_base t)) []
    (typeDefinitions ctx' !! n)
  = from_option (fun t => dir_name <$> td_directives (td_base t)) []
      (typeDefinitions ctx !! n)
    ++ (pdir_name <$> directivesListedFor n x).
Proof.
  assert (Hsame : typeDefinitions ctx' = typeDefinitions ctx ->
            NoDup (@nil string) /\
            (forall k, k ∈ @nil string ->
                       k ∉ from_option td_keys ∅ (typeDefinitions ctx !! n)) /\
            from_option td_keys ∅ (typeDefinitions ctx' !! n)
            = from_option td_keys ∅ (typeDefinitions ctx !! n) ∪ list_to_set [] /\
            from_option (fun t => dir_name <$> td_directives (td_base t)) []
              (typeDefinitions ctx' !! n)
            = from_option (fun t => dir_name <$> td_directives (td_base t)) []
                (typeDefinitions ctx !! n) ++ (pdir_name <$> [])).
  { intros ->. split; [constructor|]. split; [intros k Hk; by apply elem_of_nil in Hk|].
    split; [by rewrite list_to_set_nil, (right_id_L ∅ (∪))|by rewrite app_nil_r]. }
  intros H. destruct x as [[[d|d|d]|[e|e]]|x]; simpl in *; try discriminate.
  - apply schemaDefinition_Ok in H as (_ & Heq & _). auto.
  - apply directiveDefinition_Ok in H as [_ Heq]. auto.
  - apply typeDefinition_keys in H as (Hnone & t & -> & Hnd & Hkeys & Hdirs). simpl.
    destruct (decide (ptd_name d = n)) as [Heq|Hne].
    + rewrite <- Heq, lookup_insert_eq, Hnone. simpl.
      split; [done|]. split; [intros k _; apply not_elem_of_empty|].
      split; [by rewrite (left_id_L ∅ (∪))|done].
    + rewrite lookup_insert_ne by done.
      split; [constructor|]. split; [intros k Hk; by apply elem_of_nil in Hk|].
      split; [by rewrite list_to_set_nil, (right_id_L ∅ (∪))|by rewrite app_nil_r].
  - apply schemaExtension_Ok in H as (Heq & _). auto.
  - apply typeExtension_keys in H as (t0 & t & H0 & -> & Hnd & Hfresh & Hkeys & Hdirs).
    simpl. destruct (decide (te_name e = n)) as [Heq|Hne].
    + rewrite <- Heq, lookup_insert_eq, H0. simpl. done.
    + rewrite lookup_insert_ne by done.
      split; [constructor|]. split; [intros k Hk; by apply elem_of_nil in Hk|].
      split; [by rewrite list_to_set_nil, (right_id_L ∅ (∪))|by rewrite app_nil_r].
Qed.

Lemma for_of_schemaStep_keys document ctx ctx' n :
  for_of schemaStep document ctx = Ok ctx' ->
  NoDup (concat (keysListedFor n <$> document)) /\
  (forall k, k ∈ concat (keysListedFor n <$> document) ->
             k ∉ from_option td_keys ∅ (typeDefinitions ctx !! n)) /\
  from_option td_keys ∅ (typeDefinitions ctx' !! n)
  = from_option td_keys ∅ (typeDefinitions ctx !! n)
    ∪ list_to_set (concat (keysListedFor n <$> document)) /\
  from_option (fun t => dir_name <$> td_directives (td_base t)) []
    (typeDefinitions ctx' !! n)
  = from_option (fun t => dir_name <$> td_directives (td_base t)) []
      (typeDefinitions ctx !! n)
    ++ (pdir_name <$> concat (directivesListedFor n <$> document)).
Proof.
  revert ctx. induction document as [|x l IH]; intros ctx.
  - intros [= <-]. simpl. split; [constructor|].
    split; [intros k Hk; by apply elem_of_nil in Hk|].
    split; [by rewrite (right_id_L ∅ (∪))|by rewrite app_nil_r].
  - rewrite for_of_cons. intros H. bind_ok H.
    destruct (schemaStep_keys _ _ _ n E) as (Hndx & Hfx & Hkx & Hdx).
    destruct (IH _ H) as (Hndl & Hfl & Hkl & Hdl).
    rewrite !fmap_cons. simpl concat. split; [|split; [|split]].
    + apply NoDup_app. split; [done|]. split; [|done].
      intros k Hk Hk'. apply (Hfl _ Hk'). rewrite Hkx.
      by apply elem_of_union_r, elem_of_list_to_set.
    + intros k Hk. apply elem_of_app in Hk as [Hk|Hk]; [by apply Hfx|].
      intros Hin. apply (Hfl _ Hk). rewrite Hkx. by apply elem_of_union_l.
    + rewrite Hkl, Hkx, list_to_set_app_L. by rewrite (assoc_L (∪)).
    + by rewrite Hdl, Hdx, fmap_app, app_assoc.
Qed.

(** X21.  The fields of an object or interface type, the values of an enum
    and the fields of an input object are, on success, exactly those listed
    by the definition of the type and by its extensions, and no name is
    listed twice among them. *)
Theorem keys_of_document document s n t :
  analyzeSchema document = inl s ->
  s_typeDefinitions s !! n = Some t ->
  NoDup (concat (keysListedFor n <$> document)) /\
  td_keys t = list_to_set (concat (keysListedFor n <$> document)).
Proof.
  intros Hs Ht. apply analyzeSchema_inl_inv in Hs as (ctx & Hctx & ->). simpl in Ht.
  destruct (for_of_schemaStep_keys _ _ _ n Hctx) as (Hnd & _ & Hkeys & _).
  split; [done|]. rewrite Ht in Hkeys. simpl in Hkeys.
  rewrite Hkeys. unfold emptyContext. simpl. rewrite lookup_empty. simpl.
  apply (left_id_L ∅ (∪)).
Qed.

Lemma typeDefinition_directives (d : ParserTypeDefinition) ctx ctx' :
  typeDefinition d ctx = Ok ctx' ->
  typeDefinitions ctx !! ptd_name d = None /\
  exists t, ctx' = setTypeDefinition (ptd_name d) t ctx /\
            Forall2 directiveStored (default [] (ptd_directives d))
              (td_directives (td_base t)).
Proof.
  unfold typeDefinition, has_key.
  destruct (typeDefinitions ctx !! ptd_name d); [discriminate|].
  destruct (inherited (ptd_name d)); [discriminate|]. intros H.
  split; [done|].
  destruct (ptd_body d) as [|i f|i f|m|v|f]; simpl in H;
    [ unfold scalarTypeDefinition in H
    | unfold objectTypeDefinition in H
    | unfold interfaceTypeDefinition in H
    | unfold unionTypeDefinition in H
    | unfold enumTypeDefinition in H
    | unfold inputObjectTypeDefinition in H ];
    repeat bind_ok H; injection H as <-;
    match goal with E : definitionBase d = Ok _ |- _ =>
      unfold definitionBase in E; bind_ok E; injection E as <-;
      match goal with E' : directives _ _ = Ok _ |- _ =>
        apply directives_stored in E' end
    end;
    eexists; (split; [reflexivity|]); simpl; done.
Qed.

Lemma typeExtension_directives (e : TypeExtension) ctx ctx' :
  typeExtension e ctx = Ok ctx' ->
  exists t0 t new,
    typeDefinitions ctx !! te_name e = Some t0 /\
    ctx' = setTypeDefinition (te_name e) t ctx /\
    td_directives (td_base t) = td_directives (td_base t0) ++ new /\
    Forall2 directiveStored (default [] (te_directives e)) new.
Proof.
  unfold typeExtension.
  destruct (typeDefinitions ctx !! te_name e) as [t0|] eqn:Hd;
    [|destruct (inherited (te_name e)); discriminate].
  intros H. bind_ok H. injection H as <-.
  destruct (te_body e), t0; simpl in E; try discriminate;
    repeat bind_ok E; injection E as <-;
    match goal with E' : extensionDirectives e = Ok ?ds |- _ =>
      unfold extensionDirectives in E'; apply directives_stored in E';
      eexists _, _, ds; (split; [reflexivity|]); (split; [reflexivity|]);
      simpl; split; [reflexivity|exact E']
    end.
Qed.

Lemma schemaStep_typeDirectives (x : DefinitionNode) ctx ctx' n :
  schemaStep x ctx = Ok ctx' ->
  exists new,
    from_option (fun t => td_directives (td_base t)) [] (typeDefinitions ctx' !! n)
    = from_option (fun t => td_directives (td_base t)) [] (typeDefinitions ctx !! n)
      ++ new /\
    Forall2 directiveStored (directivesListedFor n x) new.
Proof.
  assert (Hsame : typeDefinitions ctx' = typeDefinitions ctx ->
            exists new,
              from_option (fun t => td_directives (td_base t)) []
                (typeDefinitions ctx' !! n)
              = from_option (fun t => td_directives (td_base t)) []
                  (typeDefinitions ctx !! n) ++ new /\
              Forall2 directiveStored [] new).
  { intros ->. exists []. split; [by rewrite app_nil_r|constructor]. }
  intros H. destruct x as [[[d|d|d]|[e|e]]|x]; simpl in *; try discriminate.
  - apply schemaDefinition_Ok in H as (_ & Heq & _). auto.
  - apply directiveDefinition_Ok in H as [_ Heq]. auto.
  - apply typeDefinition_directives in H as (Hnone & t & -> & Hst). simpl.
    destruct (decide (ptd_name d = n)) as [Heq|Hne].
    + rewrite <- Heq, lookup_insert_eq, Hnone. simpl. eauto.
    + rewrite lookup_insert_ne by done.
      exists []. split; [by rewrite app_nil_r|constructor].
  - apply schemaExtension_Ok in H as (Heq & _). auto.
  - apply typeExtension_directives in H as (t0 & t & new & H0 & -> & Hnew & Hst).
    simpl. destruct (decide (te_name e = n)) as [Heq|Hne].
    + rewrite <- Heq, lookup_insert_eq, H0. simpl. eauto.
    + rewrite lookup_insert_ne by done.
      exists []. split; [by rewrite app_nil_r|constructor].
Qed.

(** X22.  The directives of a stored type are, on success, those applied by
    its definition followed by those applied by its extensions, one for one
    and in document order, each with the name and the arguments of its
    application. *)
Theorem type_directives_in_document_order document s n t :
  analyzeSchema document = inl s ->
  s_typeDefinitions s !! n = Some t ->
  Forall2 directiveStored (concat (directivesListedFor n <$> document))
    (td_directives (td_base t)).
Proof.
  intros Hs Ht. apply analyzeSchema_inl_inv in Hs as (ctx & Hctx & ->). simpl in Ht.
  assert (Hgen : forall l c c', for_of schemaStep l c = Ok c' ->
            exists new,
              from_option (fun t => td_directives (td_base t)) []
                (typeDefinitions c' !! n)
              = from_option (fun t => td_directives (td_base t)) []
                  (typeDefinitions c !! n) ++ new /\
              Forall2 directiveStored (concat (directivesListedFor n <$> l)) new).
  { induction l as [|x l IH]; intros c c'; simpl.
    - intros [= <-]. exists []. split; [by rewrite app_nil_r|constructor].
    - intros H. bind_ok H.
      destruct (schemaStep_typeDirectives _ _ _ n E) as (n1 & Hn1 & Hs1).
      destruct (IH _ _ H) as (n2 & Hn2 & Hs2).
      exists (n1 ++ n2). split; [by rewrite Hn2, Hn1, app_assoc|].
      by apply Forall2_app. }
  destruct (Hgen _ _ _ Hctx) as (new & Hnew & Hst).
  rewrite Ht in Hnew. simpl in Hnew. unfold emptyContext in Hnew. simpl in Hnew.
  rewrite lookup_empty in Hnew. simpl in Hnew. by rewrite Hnew.
Qed.

End Analyzer.

(** * The claims on concrete documents

    The parser's type and value nodes are taken as their source text. *)


Lemma missing_SchemaDefinition_counterexample :
  Forall (fun x => forall d, x <> schemaDefinitionNode d)
    ([] : @Document string string) /\
  @analyzeSchema string string []
  = inl {| s_description := None; s_rootOperationTypes := ∅;
           s_schemaDirectives := []; s_directiveDefinitions := ∅;
           s_typeDefinitions := ∅ |}.
Proof. split; [constructor|reflexivity]. Qed.

Lemma missing_SchemaDefinition_accepted_witness :
  @analyzeSchema string string [typeDefinitionNode scalarFoo]
  <> inr {| message := "No SchemaDefinition" |} /\
  exists s, @analyzeSchema string string [typeDefinitionNode scalarFoo] = inl s /\
            s_rootOperationTypes s = ∅.
Proof.
  assert (Hall : Forall (fun x => forall d, x <> schemaDefinitionNode d)
                   [@typeDefinitionNode string string scalarFoo]).
  { repeat constructor. discriminate. }
  destruct (missing_SchemaDefinition_accepted _ Hall) as (Hno & _ & Hok).
  split; [exact Hno|].
  destruct (Hok _ eq_refl) as (s & Hs & _). exists s. split; [exact Hs|].
  vm_compute in Hs. injection Hs as <-. reflexivity.
Defined.


Lemma objectTypeExtensions_commute_witness :
  (exists t12 t21,
      bind (objectTypeExtension (extendQuery []) None (Some [field "world" "String"]) (@storedQuery string string "String"))
           (objectTypeExtension (extendQuery []) None (Some [field "other" "Int"]))
      = Ok t12 /\
      bind (objectTypeExtension (extendQuery []) None (Some [field "other" "Int"]) (@storedQuery string string "String"))
           (objectTypeExtension (extendQuery []) None (Some [field "world" "String"]))
      = Ok t21 /\
      td_fieldsDefinition t12 = td_fieldsDefinition t21) /\
  bind (objectTypeExtension (extendQuery []) None (Some [field "world" "String"]) (@storedQuery string string "String"))
       (objectTypeExtension (extendQuery []) None (Some [field "world" "Int"]))
  = Raise {| message := "Multiple field definition on type typeSystem extension" |} /\
  bind (objectTypeExtension (extendQuery []) None (Some [field "world" "Int"]) (@storedQuery string string "String"))
       (objectTypeExtension (extendQuery []) None (Some [field "world" "String"]))
  = Raise {| message := "Multiple field definition on type typeSystem extension" |}.
Proof.
  destruct (objectTypeExtension (extendQuery []) None (Some [field "world" "String"]) (@storedQuery string string "String"))
    as [t1|] eqn:H1; [|vm_compute in H1; discriminate H1].
  destruct (objectTypeExtension (extendQuery []) None (Some [field "other" "Int"]) (@storedQuery string string "String"))
    as [t2|] eqn:H2; [|vm_compute in H2; discriminate H2].
  destruct (objectTypeExtension (extendQuery []) None (Some [field "world" "Int"]) (@storedQuery string string "String"))
    as [t3|] eqn:H3; [|vm_compute in H3; discriminate H3].
  assert (Hifs : forall ifs, td_implementsInterfaces (@storedQuery string string "String") = Some ifs ->
                             NoDup (ifs ++ default [] None ++ default [] None)).
  { intros ifs [= <-]. constructor. }
  split; [|simpl].
  - destruct (proj2 (objectTypeExtensions_commute (extendQuery []) (extendQuery [])
                       None (Some [field "world" "String"])
                       None (Some [field "other" "Int"]) (@storedQuery string string "String"))
                t1 t2 H1 H2 Hifs) as [Hdisjoint _].
    destruct Hdisjoint as (t12 & t21 & H12 & H21 & Heq).
    + intros k Hk Hk'. simpl in Hk, Hk'.
      apply list_elem_of_singleton in Hk. apply list_elem_of_singleton in Hk'.
      rewrite Hk in Hk'. discriminate Hk'.
    + exists t12, t21. simpl. auto.
  - destruct (proj2 (objectTypeExtensions_commute (extendQuery []) (extendQuery [])
                       None (Some [field "world" "String"])
                       None (Some [field "world" "Int"]) (@storedQuery string string "String"))
                t1 t3 H1 H3 Hifs) as [_ Hoverlap].
    apply Hoverlap. exists "world". simpl. split; apply list_elem_of_singleton; reflexivity.
Defined.

Lemma duplicate_TypeDefinition_rejected_witness :
  ptd_name (@scalarFoo string string) = ptd_name (@unionFoo string string) /\
  @analyzeSchema string string
    [typeDefinitionNode scalarFoo; schemaDefinitionNode schemaQuery;
     typeDefinitionNode unionFoo]
  = inr {| message := "Multiple TypeDefinition for Foo" |}.
Proof.
  split; [reflexivity|].
  apply (proj2 (duplicate_TypeDefinition_rejected
                  [] scalarFoo [schemaDefinitionNode schemaQuery] unionFoo []
                  eq_refl)).
  eexists. reflexivity.
Defined.

Lemma two_SchemaDefinitions_rejected_witness :
  @analyzeSchema string string
    [schemaDefinitionNode schemaQuery; typeDefinitionNode (typeQuery "String");
     schemaDefinitionNode schemaQuery]
  = inr {| message := "Multiple SchemaDefinition" |}.
Proof.
  apply (proj2 (two_SchemaDefinitions_rejected
                  [] schemaQuery [typeDefinitionNode (typeQuery "String")] schemaQuery [])).
  eexists. reflexivity.
Defined.

Lemma wrong_document_kind_rejected_witness :
  @analyzeSchema string string
    [schemaDefinitionNode schemaQuery; executable_ operation_]
  = inr {| message := "ExecutableDocument in Schema" |} /\
  @analyzeOperation string string
    [executable_ fragment; typeSystem_ (definition_ (DSchema schemaQuery))]
  = inr {| message := "TypeSystemDefinitionOrExtension in Operation" |}.
Proof.
  destruct (@wrong_document_kind_rejected string string) as (_ & Hschema & Hoperation).
  split.
  - eapply (Hschema [schemaDefinitionNode schemaQuery] operation_ []). reflexivity.
  - apply (Hoperation [executable_ fragment] (definition_ (DSchema schemaQuery)) []).
Defined.

Lemma schemaDefinition_after_schemaExtension_rejected_witness :
  @analyzeSchema string string
    [schemaExtensionNode extendSchemaMutation; schemaDefinitionNode schemaQuery;
     typeDefinitionNode (typeQuery "String")]
  = inr {| message := "Multiple SchemaDefinition" |}.
Proof.
  apply (proj2 (schemaDefinition_after_schemaExtension_rejected
                  [] extendSchemaMutation [] schemaQuery [typeDefinitionNode (typeQuery "String")])).
  eexists. reflexivity.
Defined.

(** ** Documents on which the first failure is another one *)



(** [extend type Query implements I { world: String }] and
    [extend type Query implements I { world: Int }]: each is accepted by the
    base, the field names overlap, and the second one fails on the interface
    list, in both orders. *)
Lemma objectTypeExtensions_commute_counterexample :
  is_Ok (objectTypeExtension (extendQuery []) (Some ["I"]) (Some [field "world" "String"])
           (@storedQuery string string "String")) /\
  is_Ok (objectTypeExtension (extendQuery []) (Some ["I"]) (Some [field "world" "Int"])
           (@storedQuery string string "String")) /\
  bind (objectTypeExtension (extendQuery []) (Some ["I"]) (Some [field "world" "String"])
          (@storedQuery string string "String"))
       (objectTypeExtension (extendQuery []) (Some ["I"]) (Some [field "world" "Int"]))
  = Raise {| message := "Duplicate implements on type Query extension" |} /\
  bind (objectTypeExtension (extendQuery []) (Some ["I"]) (Some [field "world" "Int"])
          (@storedQuery string string "String"))
       (objectTypeExtension (extendQuery []) (Some ["I"]) (Some [field "world" "String"]))
  = Raise {| message := "Duplicate implements on type Query extension" |}.
Proof.
  split; [eexists; vm_compute; reflexivity|].
  split; [eexists; vm_compute; reflexivity|].
  split; vm_compute; reflexivity.
Qed.

(** [scalar Foo] and [union Foo] behind two schema definitions. *)
Lemma duplicate_TypeDefinition_rejected_counterexample :
  @analyzeSchema string string
    [schemaDefinitionNode schemaQuery; schemaDefinitionNode schemaQuery;
     typeDefinitionNode scalarFoo; typeDefinitionNode unionFoo]
  = inr {| message := "Multiple SchemaDefinition" |}.
Proof. reflexivity. Qed.

(** Two schema definitions behind [scalar Foo] and [union Foo]. *)
Lemma two_SchemaDefinitions_rejected_counterexample :
  @analyzeSchema string string
    [typeDefinitionNode scalarFoo; typeDefinitionNode unionFoo;
     schemaDefinitionNode schemaQuery; schemaDefinitionNode schemaQuery]
  = inr {| message := "Multiple TypeDefinition for Foo" |}.
Proof. reflexivity. Qed.

(** A schema extension, then the only schema definition, behind
    [scalar Foo] and [union Foo]. *)
Lemma schemaDefinition_after_schemaExtension_rejected_counterexample :
  @analyzeSchema string string
    [typeDefinitionNode scalarFoo; typeDefinitionNode unionFoo;
     schemaExtensionNode extendSchemaMutation; schemaDefinitionNode schemaQuery]
  = inr {| message := "Multiple TypeDefinition for Foo" |}.
Proof. reflexivity. Qed.

(** * Further properties on concrete documents *)


Lemma directive_arguments_witness :
  is_Ok (directive (deprecated "old") "schema") /\
  directive {| pdir_name := "deprecated";
               pdir_arguments := Some [ {| parg_name := "reason"; parg_value := "old" |};
                                        {| parg_name := "reason"; parg_value := "new" |} ] |}
            "schema"
  = Raise {| message := "Multiple argument reason on directive deprecated on schema" |} /\
  directive {| pdir_name := "d";
               pdir_arguments := Some [ {| parg_name := "valueOf"; parg_value := "1" |} ] |}
            "schema"
  = Raise {| message := "Multiple argument valueOf on directive d on schema" |}.
Proof.
  split; [|split].
  - apply (proj1 (directive_arguments (deprecated "old") "schema")).
    split; simpl; [apply NoDup_singleton|repeat constructor].
  - apply (proj1 (proj2 (proj2 (directive_arguments
                           {| pdir_name := "deprecated";
                              pdir_arguments :=
                                Some [ {| parg_name := "reason"; parg_value := "old" |};
                                       {| parg_name := "reason"; parg_value := "new" |} ] |}
                           "schema")))
             [ {| parg_name := "reason"; parg_value := "old" |} ]
             {| parg_name := "reason"; parg_value := "new" |} []).
    + reflexivity.
    + split; simpl; [apply NoDup_singleton|repeat constructor].
    + left. simpl. apply list_elem_of_singleton. reflexivity.
  - apply (proj1 (proj2 (proj2 (directive_arguments
                           {| pdir_name := "d";
                              pdir_arguments :=
                                Some [ {| parg_name := "valueOf"; parg_value := "1" |} ] |}
                           "schema")))
             [] {| parg_name := "valueOf"; parg_value := "1" |} []).
    + reflexivity.
    + split; constructor.
    + right. reflexivity.
Defined.

Lemma directives_in_order_witness :
  exists r, directives (Some [deprecated "old"; @internal string]) "schema" = Ok r /\
            dir_name <$> r = ["deprecated"; "internal"] /\
            Forall2 directiveStored [deprecated "old"; @internal string] r.
Proof.
  destruct (directives (Some [deprecated "old"; @internal string]) "schema")
    as [r|e] eqn:H; [|vm_compute in H; discriminate H].
  exists r. split; [reflexivity|].
  exact (proj2 (proj2 (directives_in_order
                         (Some [deprecated "old"; @internal string]) "schema") r H)).
Defined.

Lemma inputValuesDefinition_keyed_witness :
  @inputValuesDefinition string string
    (Some [inputValue "reason" "String"; inputValue "reason" "Int"]) "directive deprecated"
  = Raise {| message := "Multiple argument reason on directive deprecated" |} /\
  @inputValuesDefinition string string
    (Some [inputValue "hasOwnProperty" "String"]) "directive deprecated"
  = Raise {| message := "Multiple argument hasOwnProperty on directive deprecated" |}.
Proof.
  split.
  - apply (proj2 (proj2 (@inputValuesDefinition_keyed string string
                           (Some [inputValue "reason" "String"; inputValue "reason" "Int"])
                           "directive deprecated"))
             [inputValue "reason" "String"] (inputValue "reason" "Int") []).
    + reflexivity.
    + vm_compute. eexists. reflexivity.
    + left. simpl. apply list_elem_of_singleton. reflexivity.
  - apply (proj2 (proj2 (@inputValuesDefinition_keyed string string
                           (Some [inputValue "hasOwnProperty" "String"])
                           "directive deprecated"))
             [] (inputValue "hasOwnProperty" "String") []).
    + reflexivity.
    + eexists. reflexivity.
    + right. reflexivity.
Defined.

Lemma fieldsDefinition_keyed_witness :
  @fieldsDefinition string string [field "hello" "String"; field "hello" "Int"] "type Query"
  = Raise {| message := "Multiple field definition on type Query" |}.
Proof.
  apply (proj2 (@fieldsDefinition_keyed string string
                  [field "hello" "String"; field "hello" "Int"] "type Query")
           [field "hello" "String"] (field "hello" "Int") []).
  - reflexivity.
  - vm_compute. eexists. reflexivity.
  - simpl. apply list_elem_of_singleton. reflexivity.
Defined.

Lemma schema_only_grows_witness :
  exists ctx',
    for_of schemaStep [typeExtensionNode (extendQueryNode "String" "old")]
      (setTypeDefinition "Query" (@storedQuery string string "String") emptyContext)
    = Ok ctx' /\
    exists t', typeDefinitions ctx' !! "Query" = Some t' /\
               extendsDefinition (storedQuery "String") t'.
Proof.
  destruct (for_of schemaStep [typeExtensionNode (extendQueryNode "String" "old")]
              (setTypeDefinition "Query" (@storedQuery string string "String") emptyContext))
    as [ctx'|e] eqn:H; [|vm_compute in H; discriminate H].
  exists ctx'. split; [reflexivity|].
  apply (proj2 (proj2 (schema_only_grows _ _ _ H)) "Query"). reflexivity.
Defined.

Lemma typeDefinitions_of_document_witness :
  exists s, @analyzeSchema string string (sampleDocument "String" "old") = inl s /\
            dom (s_typeDefinitions s) = list_to_set ["Query"; "Color"].
Proof.
  destruct (@analyzeSchema string string (sampleDocument "String" "old"))
    as [s|e] eqn:H; [|vm_compute in H; discriminate H].
  exists s. split; [reflexivity|].
  exact (proj1 (proj2 (typeDefinitions_of_document _ _ H))).
Defined.

Lemma schema_keyed_by_name_witness :
  exists s, @analyzeSchema string string (sampleDocument "String" "old") = inl s /\
            typeDefinitionsKeyed (s_typeDefinitions s) /\
            directiveDefinitionsKeyed (s_directiveDefinitions s).
Proof.
  destruct (@analyzeSchema string string (sampleDocument "String" "old"))
    as [s|e] eqn:H; [|vm_compute in H; discriminate H].
  exists s. split; [reflexivity|].
  exact (schema_keyed_by_name _ _ H).
Defined.

Lemma directiveDefinition_stored_witness :
  directiveDefinition (directiveDeprecated "String" ["SCHEMA"; "OBJECT"; "SCHEMA"])
    (@emptyContext string string)
  = Raise {| message := "Multiple DirectiveLocation SCHEMA for directive deprecated" |} /\
  directiveDefinition
    {| pdd_description := None; pdd_name := "constructor";
       pdd_argumentsDefinition := None; pdd_repeatable := false;
       pdd_directiveLocations := ["SCHEMA"] |}
    (@emptyContext string string)
  = Raise {| message := "Multiple DirectiveDefinition for constructor" |}.
Proof.
  split.
  - apply (proj2 (proj2 (directiveDefinition_stored
                           (directiveDeprecated "String" ["SCHEMA"; "OBJECT"; "SCHEMA"])
                           (@emptyContext string string)))
             ["SCHEMA"; "OBJECT"] "SCHEMA" []).
    + reflexivity.
    + reflexivity.
    + vm_compute. eexists. reflexivity.
    + reflexivity.
    + split; [|repeat constructor].
      apply NoDup_cons. split; [|apply NoDup_singleton].
      intros Hin. apply list_elem_of_singleton in Hin. discriminate Hin.
    + left. apply list_elem_of_here.
  - apply (proj1 (proj2 (directiveDefinition_stored
                           {| pdd_description := None; pdd_name := "constructor";
                              pdd_argumentsDefinition := None; pdd_repeatable := false;
                              pdd_directiveLocations := ["SCHEMA"] |}
                           (@emptyContext string string)))).
    right. reflexivity.
Defined.

Lemma directiveDefinitions_of_document_witness :
  exists s, @analyzeSchema string string (sampleDocument "String" "old") = inl s /\
            dom (s_directiveDefinitions s) = list_to_set ["deprecated"].
Proof.
  destruct (@analyzeSchema string string (sampleDocument "String" "old"))
    as [s|e] eqn:H; [|vm_compute in H; discriminate H].
  exists s. split; [reflexivity|].
  exact (proj1 (proj2 (directiveDefinitions_of_document _ _ H))).
Defined.

Lemma schemaDirectives_in_document_order_witness :
  exists s, @analyzeSchema string string (sampleDocument "String" "old") = inl s /\
            Forall2 directiveStored [deprecated "old"; @internal string]
              (s_schemaDirectives s).
Proof.
  destruct (@analyzeSchema string string (sampleDocument "String" "old"))
    as [s|e] eqn:H; [|vm_compute in H; discriminate H].
  exists s. split; [reflexivity|].
  exact (schemaDirectives_in_document_order _ _ H).
Defined.

Lemma description_of_SchemaDefinition_witness :
  exists s, @analyzeSchema string string (sampleDocument "String" "old") = inl s /\
            s_description s = Some "The API".
Proof.
  destruct (@analyzeSchema string string (sampleDocument "String" "old"))
    as [s|e] eqn:H; [|vm_compute in H; discriminate H].
  exists s. split; [reflexivity|].
  apply (proj1 (description_of_SchemaDefinition _ _ H) (schemaApi "old")).
  apply list_elem_of_here.
Defined.

Lemma rootOperationTypes_of_document_witness :
  exists s, @analyzeSchema string string (sampleDocument "String" "old") = inl s /\
            s_rootOperationTypes s !! query = Some "Query" /\
            s_rootOperationTypes s !! mutation = Some "Mutation" /\
            s_rootOperationTypes s !! subscription = None.
Proof.
  destruct (@analyzeSchema string string (sampleDocument "String" "old"))
    as [s|e] eqn:H; [|vm_compute in H; discriminate H].
  exists s. split; [reflexivity|].
  assert (Hall : Forall (fun b => rotd_type b <> "")
                   (concat (rootOperationTypesOf
                              <$> @sampleDocument string string "String" "old"))).
  { simpl. repeat constructor; discriminate. }
  destruct (rootOperationTypes_of_document _ _ H Hall) as [_ Hiff].
  split; [|split].
  - apply Hiff. exists {| operationType := query; rotd_type := "Query" |}.
    split; [apply list_elem_of_here|]. split; reflexivity.
  - apply Hiff. exists {| operationType := mutation; rotd_type := "Mutation" |}.
    split; [apply list_elem_of_further, list_elem_of_here|]. split; reflexivity.
  - destruct (s_rootOperationTypes s !! subscription) as [ty|] eqn:Hs; [|reflexivity].
    apply Hiff in Hs as (b & Hb & Ho & _). simpl in Hb.
    apply elem_of_cons in Hb as [->|Hb]; [discriminate Ho|].
    apply list_elem_of_singleton in Hb as ->. discriminate Ho.
Defined.

Lemma revisions_agree_witness :
  (exists s,
      @inline_analyzeSchema string string
        [schemaDefinitionNode schemaQuery; executable_ operation_;
         typeDefinitionNode (typeQuery "String")] = inl s /\
      @analyzeSchema string string
        [schemaDefinitionNode schemaQuery; typeDefinitionNode (typeQuery "String")]
      = inl s) /\
  (exists s,
      @analyzeSchema string string (sampleDocument "String" "old") = inl s /\
      inline_analyzeSchema (sampleDocument "String" "old") = inl s).
Proof.
  split.
  - destruct (@inline_analyzeSchema string string
                [schemaDefinitionNode schemaQuery; executable_ operation_;
                 typeDefinitionNode (typeQuery "String")])
      as [s|e] eqn:H; [|vm_compute in H; discriminate H].
    exists s. split; [reflexivity|].
    exact (proj1 (revisions_agree _ _) H).
  - destruct (@analyzeSchema string string (sampleDocument "String" "old"))
      as [s|e] eqn:H; [|vm_compute in H; discriminate H].
    exists s. split; [reflexivity|].
    apply (proj2 (revisions_agree _ _) H).
    exists (schemaApi "old"). apply list_elem_of_here.
Defined.

Lemma enum_values_witness :
  enumTypeDefinition (enumColor ["RED"; "GREEN"; "RED"])
    (Some (enumValue <$> ["RED"; "GREEN"; "RED"])) (@emptyContext string string)
  = Raise {| message := "Duplicate enum value RED on Color definition" |} /\
  enumTypeDefinition (enumColor ["constructor"; "RED"])
    (Some (enumValue <$> ["constructor"; "RED"])) (@emptyContext string string)
  = Raise {| message := "Duplicate enum value constructor on Color definition" |} /\
  enumTypeExtension (@extendColor string string ["GREEN"]) (Some [enumValue "GREEN"])
    (EnumTypeDefinition
       {| td_name := "Color"; td_description := None; td_directives := [] |}
       {[ "GREEN" := {| ev_name := "GREEN"; ev_description := None;
                        ev_directives := [] |} ]})
  = Raise {| message := "Duplicate enum value GREEN on Color extension" |}.
Proof.
  destruct (@enum_values string string "Color") as (_ & Hdef & _ & Hext).
  split; [|split].
  - apply (Hdef (enumColor ["RED"; "GREEN"; "RED"])
             (Some (enumValue <$> ["RED"; "GREEN"; "RED"])) emptyContext
             (enumValue <$> ["RED"; "GREEN"]) (enumValue "RED") []).
    + reflexivity.
    + reflexivity.
    + split; [|repeat constructor].
      apply NoDup_cons. split; [|apply NoDup_singleton].
      intros Hin. apply list_elem_of_singleton in Hin. discriminate Hin.
    + repeat constructor; eexists; reflexivity.
    + left. apply list_elem_of_here.
  - apply (Hdef (enumColor ["constructor"; "RED"])
             (Some (enumValue <$> ["constructor"; "RED"])) emptyContext
             [] (enumValue "constructor") [enumValue "RED"]).
    + reflexivity.
    + reflexivity.
    + split; constructor.
    + constructor.
    + right. reflexivity.
  - apply (Hext (extendColor ["GREEN"]) (Some [enumValue "GREEN"])
             {| td_name := "Color"; td_description := None; td_directives := [] |}
             {[ "GREEN" := {| ev_name := "GREEN"; ev_description := None;
                              ev_directives := [] |} ]}
             [] (enumValue "GREEN") []).
    + reflexivity.
    + reflexivity.
    + split; constructor.
    + intros y Hy. apply elem_of_nil in Hy. destruct Hy.
    + constructor.
    + left. vm_compute. eexists. reflexivity.
Defined.

Lemma inputObjectTypeExtension_fields_witness :
  inputObjectTypeExtension (@extendPoint string string [inputValue "x" "Int"])
    (Some [inputValue "x" "Int"])
    (InputObjectTypeDefinition
       {| td_name := "Point"; td_description := None; td_directives := [] |}
       {[ "x" := {| iv_name := "x"; iv_description := None; iv_type := "Float";
                    iv_defaultValue := None; iv_directives := [] |} ]})
  = Raise {| message := "Multiple argument x on type Point extension" |} /\
  inputObjectTypeExtension
    (@extendPoint string string [inputValue "y" "Int"; inputValue "constructor" "Int"])
    (Some [inputValue "y" "Int"; inputValue "constructor" "Int"])
    (InputObjectTypeDefinition
       {| td_name := "Point"; td_description := None; td_directives := [] |}
       {[ "x" := {| iv_name := "x"; iv_description := None; iv_type := "Float";
                    iv_defaultValue := None; iv_directives := [] |} ]})
  = Raise {| message := "Multiple argument constructor on type Point extension" |}.
Proof.
  split.
  - apply (proj2 (inputObjectTypeExtension_fields
                    (@extendPoint string string [inputValue "x" "Int"])
                    (Some [inputValue "x" "Int"])
                    {| td_name := "Point"; td_description := None; td_directives := [] |}
                    {[ "x" := {| iv_name := "x"; iv_description := None; iv_type := "Float";
                                 iv_defaultValue := None; iv_directives := [] |} ]})
             [] (inputValue "x" "Int") []).
    + reflexivity.
    + split; constructor.
    + intros y Hy. apply elem_of_nil in Hy. destruct Hy.
    + constructor.
    + left. vm_compute. eexists. reflexivity.
  - apply (proj2 (inputObjectTypeExtension_fields
                    (@extendPoint string string
                       [inputValue "y" "Int"; inputValue "constructor" "Int"])
                    (Some [inputValue "y" "Int"; inputValue "constructor" "Int"])
                    {| td_name := "Point"; td_description := None; td_directives := [] |}
                    {[ "x" := {| iv_name := "x"; iv_description := None; iv_type := "Float";
                                 iv_defaultValue := None; iv_directives := [] |} ]})
             [inputValue "y" "Int"] (inputValue "constructor" "Int") []).
    + reflexivity.
    + split; simpl; [apply NoDup_singleton|repeat constructor].
    + intros y Hy. apply list_elem_of_singleton in Hy. rewrite Hy. reflexivity.
    + repeat constructor. eexists. reflexivity.
    + right. right. reflexivity.
Defined.

Lemma names_accumulate_witness :
  exists s t, @analyzeSchema string string (sampleDocument "String" "old") = inl s /\
              s_typeDefinitions s !! "Query" = Some t /\
              td_names t = ["Node"].
Proof.
  destruct (@analyzeSchema string string (sampleDocument "String" "old"))
    as [s|e] eqn:H; [|vm_compute in H; discriminate H].
  destruct (s_typeDefinitions s !! "Query") as [t|] eqn:Ht;
    [|vm_compute in H; injection H as <-; vm_compute in Ht; discriminate Ht].
  exists s, t. split; [reflexivity|]. split; [exact Ht|].
  exact (proj1 (names_accumulate _ _ _ _ H Ht)).
Defined.

Lemma typeDefinitions_exchange_witness :
  exists s,
    @analyzeSchema string string
      [schemaDefinitionNode schemaQuery; typeDefinitionNode (typeQuery "String");
       typeDefinitionNode (enumColor ["RED"]); typeExtensionNode (extendColor ["BLUE"])]
    = inl s /\
    @analyzeSchema string string
      [schemaDefinitionNode schemaQuery; typeDefinitionNode (enumColor ["RED"]);
       typeDefinitionNode (typeQuery "String"); typeExtensionNode (extendColor ["BLUE"])]
    = inl s.
Proof.
  destruct (@analyzeSchema string string
              [schemaDefinitionNode schemaQuery; typeDefinitionNode (typeQuery "String");
               typeDefinitionNode (enumColor ["RED"]);
               typeExtensionNode (extendColor ["BLUE"])])
    as [s|e] eqn:H; [|vm_compute in H; discriminate H].
  exists s. split; [reflexivity|].
  exact (typeDefinitions_exchange [schemaDefinitionNode schemaQuery]
           (typeQuery "String") (enumColor ["RED"])
           [typeExtensionNode (extendColor ["BLUE"])] s H).
Defined.

Lemma keys_of_document_witness :
  exists s t, @analyzeSchema string string (sampleDocument "String" "old") = inl s /\
              s_typeDefinitions s !! "Color" = Some t /\
              td_keys t = list_to_set ["RED"; "GREEN"; "BLUE"].
Proof.
  destruct (@analyzeSchema string string (sampleDocument "String" "old"))
    as [s|e] eqn:H; [|vm_compute in H; discriminate H].
  destruct (s_typeDefinitions s !! "Color") as [t|] eqn:Ht;
    [|vm_compute in H; injection H as <-; vm_compute in Ht; discriminate Ht].
  exists s, t. split; [reflexivity|]. split; [exact Ht|].
  exact (proj2 (keys_of_document _ _ _ _ H Ht)).
Defined.

Lemma type_directives_in_document_order_witness :
  exists s t, @analyzeSchema string string (sampleDocument "String" "old") = inl s /\
              s_typeDefinitions s !! "Query" = Some t /\
              Forall2 directiveStored [deprecated "old"] (td_directives (td_base t)).
Proof.
  destruct (@analyzeSchema string string (sampleDocument "String" "old"))
    as [s|e] eqn:H; [|vm_compute in H; discriminate H].
  destruct (s_typeDefinitions s !! "Query") as [t|] eqn:Ht;
    [|vm_compute in H; injection H as <-; vm_compute in Ht; discriminate Ht].
  exists s, t. split; [reflexivity|]. split; [exact Ht|].
  exact (type_directives_in_document_order _ _ _ _ H Ht).
Defined.
